(** * ShardMap: a shallow embedding of aws/kinesis/core/shard_map.{h,cc}

    The development follows the C++ sources: the static string helpers of
    the header first, then the range reconciler with its priority queue,
    then the refresh engine and the janitor as state-passing functions
    over a record that mirrors the data members of [ShardMap]. *)

From Stdlib Require Import ZArith NArith Lia Ascii String List Permutation.
From stdpp Require Import base tactics option list gmap strings.

#[local] Set Warnings "-clear-no-such-hyp".

Local Open Scope N_scope.

(** ** Exceptions and results *)

(** The exceptions the modelled code can raise. *)
Inductive exn : Type :=
  | invalid_argument   (* std::stoull: no conversion could be performed *)
  | out_of_range       (* std::stoull: value too large; vector::at: bad index *)
  | length_error.      (* std::string(count, ch): count > max_size() *)

Inductive result (A : Type) : Type :=
  | Ok (a : A)
  | Throw (e : exn).
Arguments Ok {A} a.
Arguments Throw {A} e.

Definition result_bind {A B} (r : result A) (k : A -> result B) : result B :=
  match r with
  | Ok a => k a
  | Throw e => Throw e
  end.

(** ** Fixed-width unsigned arithmetic *)

Definition uint64_modulus : N := 2 ^ 64.

(** Subtraction on [size_t] (64 bit): the result wraps around. *)
Definition size_t_sub (a b : N) : N := (a + uint64_modulus - b mod uint64_modulus) mod uint64_modulus.

(** ** Strings: the library calls used by the header *)

Module Str.

Definition is_digit (c : ascii) : bool :=
  (48 <=? N_of_ascii c) && (N_of_ascii c <=? 57).

Definition digit_val (c : ascii) : N := N_of_ascii c - 48.

Definition digit_char (d : N) : ascii := ascii_of_N (48 + d).

(** [std::to_string(unsigned long long)]: the decimal digits, least
    significant first; a 64-bit value has at most twenty of them. *)
Fixpoint to_string_loop (fuel : nat) (n : N) (acc : string) : string :=
  match fuel with
  | O => acc
  | S fuel' =>
      let acc' := String (digit_char (n mod 10)) acc in
      if n / 10 =? 0 then acc' else to_string_loop fuel' (n / 10) acc'
  end.

Definition to_string (id : N) : string := to_string_loop 20 id EmptyString.

(** [std::string::max_size()]; every implementation stays below 2^63. *)
Definition max_size : N := 2 ^ 63 - 1.

Fixpoint replicate_char (n : nat) (ch : ascii) : string :=
  match n with
  | O => EmptyString
  | S n' => String ch (replicate_char n' ch)
  end.

(** [std::string(count, ch)]. *)
Definition fill (count : N) (ch : ascii) : result string :=
  if max_size <? count then Throw length_error
  else Ok (replicate_char (N.to_nat count) ch).

Definition isspace (c : ascii) : bool :=
  let n := N_of_ascii c in (n =? 32) || ((9 <=? n) && (n <=? 13)).

Fixpoint skip_space (s : string) : string :=
  match s with
  | String c s' => if isspace c then skip_space s' else s
  | EmptyString => s
  end.

(** The longest prefix of decimal digits, as digit values. *)
Fixpoint take_digits (s : string) : list N :=
  match s with
  | String c s' => if is_digit c then digit_val c :: take_digits s' else []
  | EmptyString => []
  end.

Definition digits_value (acc : N) (ds : list N) : N :=
  fold_left (fun a d => a * 10 + d) ds acc.

(** [std::stoull(str)] in base ten, after [strtoull]: leading white space,
    an optional sign, then digits; a minus sign negates modulo 2^64. *)
Definition stoull (str : string) : result N :=
  let s := skip_space str in
  let '(neg, s) :=
    match s with
    | String "-"%char s' => (true, s')
    | String "+"%char s' => (false, s')
    | _ => (false, s)
    end in
  match take_digits s with
  | [] => Throw invalid_argument
  | ds =>
      let v := digits_value 0 ds in
      if uint64_modulus <=? v then Throw out_of_range
      else Ok (if neg then (uint64_modulus - v) mod uint64_modulus else v)
  end.

End Str.

(** Modelled from the spec: [aws::utils::split_on_first] is declared in
    aws/utils/utils.h, which is not among the sources; parsing
    "splits on the first '-'": the text before the first occurrence of the
    delimiter and the text after it, or the whole string when the delimiter
    does not occur. *)
Definition split_on_first (s delim : string) : list string :=
  match index 0 delim s with
  | Some pos =>
      let after := (pos + String.length delim)%nat in
      [substring 0 pos s; substring after (String.length s - after) s]
  | None => [s]
  end.

(** [std::vector::at]. *)
Definition vector_at {A} (v : list A) (i : nat) : result A :=
  match v !! i with
  | Some x => Ok x
  | None => Throw out_of_range
  end.

(** [ShardMap::shard_id_from_str]. *)
Definition shard_id_from_str (shard_id : string) : result N :=
  let parts := split_on_first shard_id "-" in
  result_bind (vector_at parts 1) Str.stoull.

(** [ShardMap::shard_id_to_str]. *)
Definition shard_id_to_str (id : N) : result string :=
  let i := Str.to_string id in
  result_bind (Str.fill (size_t_sub 12 (N.of_nat (String.length i))) "0"%char)
    (fun p => Ok ("shardId-" ++ p ++ i)%string).


(** What a string that begins with a digit denotes, read from [a] on. *)
Definition starts_with_digit (s : string) : Prop :=
  match s with
  | String c _ => Str.is_digit c = true
  | EmptyString => False
  end.

Definition string_value (a : N) (s : string) : N :=
  Str.digits_value a (Str.take_digits s).

Local Close Scope N_scope.
Local Open Scope Z_scope.

(** ** Hash keys and shard descriptors *)

(** [uint128_t] is [boost::multiprecision::uint128_t]: an unchecked
    128-bit unsigned integer, modelled as a [Z] in [[0, 2^128)]. *)
Definition uint128_modulus : Z := 2 ^ 128.

(** [std::numeric_limits<uint128_t>::max()]. *)
Definition uint128_max : Z := uint128_modulus - 1.

Definition uint128_sub (a b : Z) : Z := (a - b) mod uint128_modulus.

(** [uint128_t(str)]: the unchecked 128-bit type keeps the low 128 bits. *)
Definition to_uint128 (x : Z) : Z := x mod uint128_modulus.

(** [Aws::Kinesis::Model::HashKeyRange]; the getters hand out decimal
    strings: the record holds the numbers they denote, and the code
    converts them with [uint128_t(...)].  A string that is not a numeral
    makes that conversion throw: such descriptors have no counterpart
    here, and a statement that the reconciler returns normally is made for
    shards with proper ranges only. *)
Record HashKeyRange : Type := {
  GetStartingHashKey : Z;
  GetEndingHashKey : Z
}.

(** [Aws::Kinesis::Model::Shard], as far as shard_map.cc reads it. *)
Record Shard : Type := {
  GetShardId : string;
  GetHashKeyRange : HashKeyRange
}.

(** [ShardMap::ShardRange]: the element type of the priority queue.  Its
    declaration is not among the sources; the fields are read off the
    brace initialiser and the member accesses in
    [build_minimal_disjoint_hashranges]. *)
Record ShardRange : Type := {
  sr_shard_id : N;
  sr_start : Z;
  sr_end : Z
}.

(** Modelled from the spec: [ShardMap::MaxHeapComparator] is declared in a
    header revision that is not among the sources.  Shards are processed
    "in order of decreasing ending hash key, breaking ties by decreasing
    starting hash key", so the less-than of the max-heap compares the end
    first and the start second. *)
Definition MaxHeapComparator (a b : ShardRange) : bool :=
  (sr_end a <? sr_end b) || ((sr_end a =? sr_end b) && (sr_start a <? sr_start b)).

(** ** [std::priority_queue] over a [std::vector] *)

Module priority_queue.

Section WithComparator.
Context {A : Type}.
Variable comp : A -> A -> bool.

(** [std::swap(v[i], v[j])]. *)
Definition swap (v : list A) (i j : nat) : list A :=
  match v !! i, v !! j with
  | Some x, Some y => <[i := y]> (<[j := x]> v)
  | _, _ => v
  end.

(** The loop of [std::__push_heap]: the value at [hole] moves up while
    its parent compares less. *)
Fixpoint push_heap_loop (fuel : nat) (v : list A) (hole : nat) : list A :=
  match fuel with
  | O => v
  | S fuel' =>
      let parent := ((hole - 1) / 2)%nat in
      match v !! parent, v !! hole with
      | Some p, Some x =>
          if (0 <? hole)%nat && comp p x
          then push_heap_loop fuel' (swap v hole parent) parent
          else v
      | _, _ => v
      end
  end.

(** The descent of [std::__adjust_heap]: the hole moves down to a leaf,
    always towards the larger child. *)
Fixpoint adjust_heap_loop (fuel : nat) (v : list A) (hole : nat) : list A * nat :=
  match fuel with
  | O => (v, hole)
  | S fuel' =>
      let len := length v in
      if (hole <? (len - 1) / 2)%nat then
        let second := (2 * (hole + 1))%nat in
        match v !! second, v !! (second - 1)%nat with
        | Some r, Some l =>
            let child := if comp r l then (second - 1)%nat else second in
            adjust_heap_loop fuel' (swap v hole child) child
        | _, _ => (v, hole)
        end
      else if (len mod 2 =? 0)%nat && (hole =? (len - 2) / 2)%nat then
        (swap v hole (2 * (hole + 1) - 1)%nat, (2 * (hole + 1) - 1)%nat)
      else (v, hole)
  end.

Definition adjust_heap (v : list A) : list A :=
  let '(v', hole) := adjust_heap_loop (length v) v 0 in
  push_heap_loop (length v') v' hole.

(** [std::push_heap(first, last)]: the last element is the new one. *)
Definition push_heap (v : list A) : list A :=
  push_heap_loop (length v) v (length v - 1).

(** [std::pop_heap(first, last)]: the top goes to the back, the former
    last element is sifted into the remaining range. *)
Definition pop_heap (v : list A) : list A :=
  if (1 <? length v)%nat then
    let v1 := swap v 0 (length v - 1) in
    adjust_heap (take (length v - 1) v1) ++ drop (length v - 1) v1
  else v.

Definition top (q : list A) : option A := head q.

Definition push (x : A) (q : list A) : list A := push_heap (q ++ [x]).

Definition pop (q : list A) : list A :=
  let v := pop_heap q in take (length v - 1) v.

End WithComparator.

End priority_queue.

(** ** The data members of [ShardMap] *)

Inductive State : Type := INVALID | UPDATING | READY.

Definition State_eqb (a b : State) : bool :=
  match a, b with
  | INVALID, INVALID | UPDATING, UPDATING | READY, READY => true
  | _, _ => false
  end.

(** Modelled from the spec: [aws::utils::ScheduledCallback] (section 6.1):
    a handle that the executor fires after its delay and that supports
    [cancel()] and [reschedule(new_delay)]. *)
Inductive ScheduledCallback : Type :=
  | Pending (delay : Z)
  | Done.

Inductive ShardFilterType : Type := AT_LATEST.

(** [Aws::Kinesis::Model::ListShardsRequest]. *)
Record ListShardsRequest : Type := {
  MaxResults : Z;
  NextToken : option string;
  StreamName : option string;
  StreamARN : option string;
  ShardFilter : option ShardFilterType
}.

(** [Aws::Kinesis::Model::ListShardsOutcome]. *)
Inductive ListShardsOutcome : Type :=
  | Failure (exception_name message : string)
  | Success (shards : list Shard) (next_token : string).

(** The object with the collaborators it shares: [executor_] is the
    executor's table of callbacks ([scheduled_callback_] is an index into
    it), [kinesis_client_] the queue of [ListShardsAsync] calls that have
    not completed yet. Times and durations are in milliseconds. *)
Record ShardMap : Type := mkShardMap {
  executor_ : list ScheduledCallback;
  kinesis_client_ : list ListShardsRequest;
  stream_ : string;
  stream_arn_ : string;
  state_ : State;
  end_hash_key_to_shard_id_ : list (Z * N);
  open_shards_ : list Shard;
  open_shard_ids_ : gset N;
  shard_id_to_shard_cache_ : gmap N Shard;
  shard_cache_needs_cleanup_ : bool;
  updated_at_ : Z;
  min_backoff_ : Z;
  max_backoff_ : Z;
  backoff_ : Z;
  closed_shard_ttl_ : Z;
  scheduled_callback_ : option nat
}.

Definition kMinBackoff : Z := 1000.
Definition kMaxBackoff : Z := 30000.
Definition kClosedShardTtl : Z := 60000.

Definition set_executor_ (x : list ScheduledCallback) (m : ShardMap) : ShardMap :=
  mkShardMap x (kinesis_client_ m) (stream_ m) (stream_arn_ m) (state_ m)
    (end_hash_key_to_shard_id_ m) (open_shards_ m) (open_shard_ids_ m)
    (shard_id_to_shard_cache_ m) (shard_cache_needs_cleanup_ m) (updated_at_ m)
    (min_backoff_ m) (max_backoff_ m) (backoff_ m) (closed_shard_ttl_ m)
    (scheduled_callback_ m).

Definition set_kinesis_client_ (x : list ListShardsRequest) (m : ShardMap) : ShardMap :=
  mkShardMap (executor_ m) x (stream_ m) (stream_arn_ m) (state_ m)
    (end_hash_key_to_shard_id_ m) (open_shards_ m) (open_shard_ids_ m)
    (shard_id_to_shard_cache_ m) (shard_cache_needs_cleanup_ m) (updated_at_ m)
    (min_backoff_ m) (max_backoff_ m) (backoff_ m) (closed_shard_ttl_ m)
    (scheduled_callback_ m).

Definition set_state_ (x : State) (m : ShardMap) : ShardMap :=
  mkShardMap (executor_ m) (kinesis_client_ m) (stream_ m) (stream_arn_ m) x
    (end_hash_key_to_shard_id_ m) (open_shards_ m) (open_shard_ids_ m)
    (shard_id_to_shard_cache_ m) (shard_cache_needs_cleanup_ m) (updated_at_ m)
    (min_backoff_ m) (max_backoff_ m) (backoff_ m) (closed_shard_ttl_ m)
    (scheduled_callback_ m).

Definition set_end_hash_key_to_shard_id_ (x : list (Z * N)) (m : ShardMap) : ShardMap :=
  mkShardMap (executor_ m) (kinesis_client_ m) (stream_ m) (stream_arn_ m) (state_ m)
    x (open_shards_ m) (open_shard_ids_ m)
    (shard_id_to_shard_cache_ m) (shard_cache_needs_cleanup_ m) (updated_at_ m)
    (min_backoff_ m) (max_backoff_ m) (backoff_ m) (closed_shard_ttl_ m)
    (scheduled_callback_ m).

Definition set_open_shards_ (x : list Shard) (m : ShardMap) : ShardMap :=
  mkShardMap (executor_ m) (kinesis_client_ m) (stream_ m) (stream_arn_ m) (state_ m)
    (end_hash_key_to_shard_id_ m) x (open_shard_ids_ m)
    (shard_id_to_shard_cache_ m) (shard_cache_needs_cleanup_ m) (updated_at_ m)
    (min_backoff_ m) (max_backoff_ m) (backoff_ m) (closed_shard_ttl_ m)
    (scheduled_callback_ m).

Definition set_open_shard_ids_ (x : gset N) (m : ShardMap) : ShardMap :=
  mkShardMap (executor_ m) (kinesis_client_ m) (stream_ m) (stream_arn_ m) (state_ m)
    (end_hash_key_to_shard_id_ m) (open_shards_ m) x
    (shard_id_to_shard_cache_ m) (shard_cache_needs_cleanup_ m) (updated_at_ m)
    (min_backoff_ m) (max_backoff_ m) (backoff_ m) (closed_shard_ttl_ m)
    (scheduled_callback_ m).

Definition set_shard_id_to_shard_cache_ (x : gmap N Shard) (m : ShardMap) : ShardMap :=
  mkShardMap (executor_ m) (kinesis_client_ m) (stream_ m) (stream_arn_ m) (state_ m)
    (end_hash_key_to_shard_id_ m) (open_shards_ m) (open_shard_ids_ m)
    x (shard_cache_needs_cleanup_ m) (updated_at_ m)
    (min_backoff_ m) (max_backoff_ m) (backoff_ m) (closed_shard_ttl_ m)
    (scheduled_callback_ m).

Definition set_shard_cache_needs_cleanup_ (x : bool) (m : ShardMap) : ShardMap :=
  mkShardMap (executor_ m) (kinesis_client_ m) (stream_ m) (stream_arn_ m) (state_ m)
    (end_hash_key_to_shard_id_ m) (open_shards_ m) (open_shard_ids_ m)
    (shard_id_to_shard_cache_ m) x (updated_at_ m)
    (min_backoff_ m) (max_backoff_ m) (backoff_ m) (closed_shard_ttl_ m)
    (scheduled_callback_ m).

Definition set_updated_at_ (x : Z) (m : ShardMap) : ShardMap :=
  mkShardMap (executor_ m) (kinesis_client_ m) (stream_ m) (stream_arn_ m) (state_ m)
    (end_hash_key_to_shard_id_ m) (open_shards_ m) (open_shard_ids_ m)
    (shard_id_to_shard_cache_ m) (shard_cache_needs_cleanup_ m) x
    (min_backoff_ m) (max_backoff_ m) (backoff_ m) (closed_shard_ttl_ m)
    (scheduled_callback_ m).

Definition set_backoff_ (x : Z) (m : ShardMap) : ShardMap :=
  mkShardMap (executor_ m) (kinesis_client_ m) (stream_ m) (stream_arn_ m) (state_ m)
    (end_hash_key_to_shard_id_ m) (open_shards_ m) (open_shard_ids_ m)
    (shard_id_to_shard_cache_ m) (shard_cache_needs_cleanup_ m) (updated_at_ m)
    (min_backoff_ m) (max_backoff_ m) x (closed_shard_ttl_ m)
    (scheduled_callback_ m).

Definition set_scheduled_callback_ (x : option nat) (m : ShardMap) : ShardMap :=
  mkShardMap (executor_ m) (kinesis_client_ m) (stream_ m) (stream_arn_ m) (state_ m)
    (end_hash_key_to_shard_id_ m) (open_shards_ m) (open_shard_ids_ m)
    (shard_id_to_shard_cache_ m) (shard_cache_needs_cleanup_ m) (updated_at_ m)
    (min_backoff_ m) (max_backoff_ m) (backoff_ m) (closed_shard_ttl_ m)
    x.

(** ** The state-and-exception monad of the member functions *)

(** A member function either returns, or an exception leaves it with the
    object as it was at the throw, or the model's loop bound was too small
    (shown impossible below). *)
Inductive Outcome (A : Type) : Type :=
  | Ret (a : A) (m : ShardMap)
  | Raise (e : exn) (m : ShardMap)
  | Diverge.
Arguments Ret {A} a m.
Arguments Raise {A} e m.
Arguments Diverge {A}.

Definition M (A : Type) : Type := ShardMap -> Outcome A.

Definition ret {A} (a : A) : M A := fun m => Ret a m.

Definition bind {A B} (c : M A) (k : A -> M B) : M B :=
  fun m =>
    match c m with
    | Ret a m' => k a m'
    | Raise e m' => Raise e m'
    | Diverge => Diverge
    end.

Definition get : M ShardMap := fun m => Ret m m.

Definition modify (f : ShardMap -> ShardMap) : M unit := fun m => Ret tt (f m).

Definition lift {A} (r : result A) : M A :=
  fun m => match r with Ok a => Ret a m | Throw e => Raise e m end.

Declare Scope shardmap_scope.
Delimit Scope shardmap_scope with sm.
Notation "x ← c1 ; c2" := (bind c1 (fun x => c2))
  (at level 20, c1 at level 100, c2 at level 200, only parsing) : shardmap_scope.
Notation "c1 ;; c2" := (bind c1 (fun _ => c2))
  (at level 100, c2 at level 200, right associativity) : shardmap_scope.
Local Open Scope shardmap_scope.

(** ** The executor and the topology client *)

(** [executor_->schedule(task, delay)]: a new callback enters the table
    and its handle is returned. *)
Definition executor_schedule (delay : Z) : M nat :=
  m ← get;
  modify (set_executor_ (executor_ m ++ [Pending delay]));;
  ret (length (executor_ m)).

(** [scheduled_callback_->cancel()]. *)
Definition callback_cancel (h : nat) : M unit :=
  modify (fun m => set_executor_ (<[h := Done]> (executor_ m)) m).

(** [scheduled_callback_->reschedule(delay)]. *)
Definition callback_reschedule (h : nat) (delay : Z) : M unit :=
  modify (fun m => set_executor_ (<[h := Pending delay]> (executor_ m)) m).

(** [kinesis_client_->ListShardsAsync(req, handler, ctx)]. *)
Definition ListShardsAsync (req : ListShardsRequest) : M unit :=
  modify (fun m => set_kinesis_client_ (kinesis_client_ m ++ [req]) m).

Definition string_empty (s : string) : bool :=
  match s with EmptyString => true | _ => false end.

(** ** Member functions of [ShardMap] (shard_map.cc) *)

(** [std::lower_bound] with the lambda [pair.first < key]: the classic
    halving loop; the result is an index, [length] standing for [end()]. *)
Fixpoint lower_bound_loop (fuel : nat) (v : list (Z * N)) (first len : nat)
    (key : Z) : nat :=
  match fuel with
  | O => first
  | S fuel' =>
      if (0 <? len)%nat then
        let half := (len / 2)%nat in
        let middle := (first + half)%nat in
        match v !! middle with
        | Some entry =>
            if entry.1 <? key
            then lower_bound_loop fuel' v (middle + 1) (len - half - 1) key
            else lower_bound_loop fuel' v first half key
        | None => first
        end
      else first
  end.

Definition lower_bound (v : list (Z * N)) (key : Z) : nat :=
  lower_bound_loop (S (length v)) v 0 (length v) key.

(** [ShardMap::shard_id]; [try_lock] is the result of [lock.try_lock()]. *)
Definition shard_id (try_lock : bool) (hash_key : Z) (m : ShardMap) : option N :=
  if try_lock && State_eqb (state_ m) READY then
    match end_hash_key_to_shard_id_ m !! lower_bound (end_hash_key_to_shard_id_ m) hash_key with
    | Some it => Some it.2
    | None => None
    end
  else None.

(** [ShardMap::get_shard]. *)
Definition get_shard (id : N) (m : ShardMap) : option Shard :=
  shard_id_to_shard_cache_ m !! id.

(** [ShardMap::clear_all_stored_shards]. *)
Definition clear_all_stored_shards : M unit :=
  modify (set_end_hash_key_to_shard_id_ []);;
  modify (set_open_shards_ []);;
  modify (set_open_shard_ids_ ∅).

(** [ShardMap::list_shards]. *)
Definition list_shards (next_token : string) : M unit :=
  m ← get;
  let req :=
    if negb (string_empty next_token) then
      {| MaxResults := 1000; NextToken := Some next_token; StreamName := None;
         StreamARN := None; ShardFilter := None |}
    else
      {| MaxResults := 1000; NextToken := None; StreamName := Some (stream_ m);
         StreamARN := if negb (string_empty (stream_arn_ m))
                      then Some (stream_arn_ m) else None;
         ShardFilter := Some AT_LATEST |} in
  ListShardsAsync req.

(** [ShardMap::update]. *)
Definition update : M unit :=
  m ← get;
  if State_eqb (state_ m) UPDATING then ret tt
  else
    modify (set_state_ UPDATING);;
    clear_all_stored_shards;;
    match scheduled_callback_ m with
    | Some h => callback_cancel h
    | None => ret tt
    end;;
    list_shards EmptyString.

(** [ShardMap::invalidate]. *)
Definition invalidate (seen_at : Z) (predicted_shard : option N) : M unit :=
  m ← get;
  if (updated_at_ m <? seen_at) && State_eqb (state_ m) READY then
    if match predicted_shard with
       | None => true
       | Some p => bool_decide (p ∈ open_shard_ids_ m)
       end
    then update
    else ret tt
  else ret tt.

(** [ShardMap::update_fail].  The count of [backoff_] is a signed 64-bit
    integer in the source: [backoff_ * 3] is the exact product as long as
    it fits 64 bits, and what is stated about the new backoff is stated
    under that bound. *)
Definition update_fail (code msg : string) : M unit :=
  modify (set_state_ INVALID);;
  m ← get;
  match scheduled_callback_ m with
  | None =>
      h ← executor_schedule (backoff_ m);
      modify (set_scheduled_callback_ (Some h))
  | Some h => callback_reschedule h (backoff_ m)
  end;;
  modify (fun m => set_backoff_ (Z.min (Z.quot (backoff_ m * 3) 2) (max_backoff_ m)) m).

(** The first loop of [list_shards_callback]. *)
Fixpoint store_shards (shards : list Shard) : M unit :=
  match shards with
  | [] => ret tt
  | shard :: rest =>
      modify (fun m => set_open_shards_ (open_shards_ m ++ [shard]) m);;
      id ← lift (shard_id_from_str (GetShardId shard));
      modify (fun m => set_open_shard_ids_ ({[ id ]} ∪ open_shard_ids_ m) m);;
      store_shards rest
  end.

(** The loop that fills the heap in [build_minimal_disjoint_hashranges]. *)
Fixpoint fill_heap (shards : list Shard) (max_heap : list ShardRange)
    : result (list ShardRange) :=
  match shards with
  | [] => Ok max_heap
  | shard :: rest =>
      let range := GetHashKeyRange shard in
      result_bind (shard_id_from_str (GetShardId shard)) (fun id =>
        fill_heap rest
          (priority_queue.push MaxHeapComparator
             {| sr_shard_id := id;
                sr_start := to_uint128 (GetStartingHashKey range);
                sr_end := to_uint128 (GetEndingHashKey range) |} max_heap))
  end.

(** The [while (!max_heap.empty())] loop; [emitted] collects what is
    appended to [end_hash_key_to_shard_id_]. [None]: out of fuel. *)
Fixpoint drain_heap (fuel : nat) (max_heap : list ShardRange)
    (last_starting_hashkey : Z) (emitted : list (Z * N)) : option (list (Z * N)) :=
  match priority_queue.top max_heap with
  | None => Some emitted
  | Some shard =>
      match fuel with
      | O => None
      | S fuel' =>
          let max_heap := priority_queue.pop MaxHeapComparator max_heap in
          if sr_end shard <? last_starting_hashkey then
            drain_heap fuel' max_heap (sr_start shard)
              (emitted ++ [(sr_end shard, sr_shard_id shard)])
          else if sr_start shard <? last_starting_hashkey then
            let shard := {| sr_shard_id := sr_shard_id shard;
                            sr_start := sr_start shard;
                            sr_end := uint128_sub last_starting_hashkey 1 |} in
            drain_heap fuel' (priority_queue.push MaxHeapComparator shard max_heap)
              last_starting_hashkey emitted
          else drain_heap fuel' max_heap last_starting_hashkey emitted
      end
  end.

(** Iterations that suffice for a heap of [n] elements. *)
Definition drain_fuel (n : nat) : nat := n * (n + 2) + 1.

(** [unordered_map::insert]: an existing entry is kept. *)
Definition cache_insert (id : N) (shard : Shard) (cache : gmap N Shard) : gmap N Shard :=
  match cache !! id with
  | Some _ => cache
  | None => <[id := shard]> cache
  end.

(** The last loop of [build_minimal_disjoint_hashranges]. *)
Fixpoint cache_shards (shards : list Shard) : M unit :=
  match shards with
  | [] => ret tt
  | shard :: rest =>
      id ← lift (shard_id_from_str (GetShardId shard));
      modify (fun m => set_shard_id_to_shard_cache_
                         (cache_insert id shard (shard_id_to_shard_cache_ m)) m);;
      cache_shards rest
  end.

(** [ShardMap::build_minimal_disjoint_hashranges]. *)
Definition build_minimal_disjoint_hashranges : M unit :=
  m ← get;
  match open_shards_ m with
  | [] => ret tt
  | _ =>
      max_heap ← lift (fill_heap (open_shards_ m) []);
      match drain_heap (drain_fuel (length max_heap)) max_heap uint128_max
              (end_hash_key_to_shard_id_ m) with
      | None => fun _ => Diverge
      | Some index =>
          modify (set_end_hash_key_to_shard_id_ (rev index));;
          modify (set_shard_cache_needs_cleanup_ true);;
          cache_shards (open_shards_ m)
      end
  end.

(** [ShardMap::list_shards_callback]; [now] is what
    [std::chrono::steady_clock::now()] returns on the final page. *)
Definition list_shards_callback (now : Z) (outcome : ListShardsOutcome) : M unit :=
  match outcome with
  | Failure code msg => update_fail code msg
  | Success shards next_token =>
      store_shards shards;;
      modify (fun m => set_backoff_ (min_backoff_ m) m);;
      if negb (string_empty next_token) then list_shards next_token
      else
        build_minimal_disjoint_hashranges;;
        modify (set_state_ READY);;
        modify (set_updated_at_ now)
  end.

(** One turn of the loop of [ShardMap::cleanup], after the sleep; [now] is
    the clock reading. *)
Definition cleanup (now : Z) : M unit :=
  m ← get;
  if (updated_at_ m + closed_shard_ttl_ m <? now) && State_eqb (state_ m) READY then
    if shard_cache_needs_cleanup_ m then
      modify (fun m => set_shard_id_to_shard_cache_
                         (filter (fun kv => kv.1 ∈ open_shard_ids_ m)
                                 (shard_id_to_shard_cache_ m)) m);;
      modify (set_shard_cache_needs_cleanup_ false)
    else ret tt
  else ret tt.

(** The constructor: the member initialisers, then [update()].  The flag
    [shard_cache_needs_cleanup_] has no initialiser in the sources. *)
Definition construct (stream stream_arn : string)
    (min_backoff max_backoff closed_shard_ttl : Z) (flag : bool) : Outcome unit :=
  update
    {| executor_ := []; kinesis_client_ := [];
       stream_ := stream; stream_arn_ := stream_arn;
       state_ := INVALID;
       end_hash_key_to_shard_id_ := [];
       open_shards_ := [];
       open_shard_ids_ := ∅;
       shard_id_to_shard_cache_ := ∅;
       shard_cache_needs_cleanup_ := flag;
       updated_at_ := 0;
       min_backoff_ := min_backoff;
       max_backoff_ := max_backoff;
       backoff_ := min_backoff;
       closed_shard_ttl_ := closed_shard_ttl;
       scheduled_callback_ := None |}.

(** ** The environment: completions, timers, callers, the janitor *)

Inductive Event : Type :=
  | ListShardsCompleted (now : Z) (outcome : ListShardsOutcome)
  | TimerFired (h : nat)
  | InvalidateCalled (seen_at : Z) (predicted_shard : option N)
  | JanitorWoke (now : Z).

(** What an event runs.  A completion needs an outstanding request and
    consumes the oldest one; the executor fires a callback that is pending
    and runs its task, [update()]. [None]: the event cannot happen. *)
Definition handle (ev : Event) (m : ShardMap) : option (Outcome unit) :=
  match ev with
  | ListShardsCompleted now outcome =>
      match kinesis_client_ m with
      | [] => None
      | _ :: rest => Some (list_shards_callback now outcome (set_kinesis_client_ rest m))
      end
  | TimerFired h =>
      match executor_ m !! h with
      | Some (Pending _) => Some (update (set_executor_ (<[h := Done]> (executor_ m)) m))
      | _ => None
      end
  | InvalidateCalled seen_at predicted_shard => Some (invalidate seen_at predicted_shard m)
  | JanitorWoke now => Some (cleanup now m)
  end.

(** A run: the events one after the other, each returning normally. *)
Fixpoint run (evs : list Event) (m : ShardMap) : option ShardMap :=
  match evs with
  | [] => Some m
  | ev :: evs' =>
      match handle ev m with
      | Some (Ret _ m') => run evs' m'
      | _ => None
      end
  end.

(** The states a [ShardMap] built with the given backoff bounds can be in. *)
Definition reachable (min_backoff max_backoff : Z) (m : ShardMap) : Prop :=
  exists stream stream_arn closed_shard_ttl flag m0 evs,
    construct stream stream_arn min_backoff max_backoff closed_shard_ttl flag = Ret tt m0
    /\ run evs m0 = Some m.

Definition is_failure (ev : Event) : bool :=
  match ev with
  | ListShardsCompleted _ (Failure _ _) => true
  | _ => false
  end.

(** The clock readings an event carries. *)
Definition event_time (ev : Event) : option Z :=
  match ev with
  | ListShardsCompleted now _ | JanitorWoke now => Some now
  | _ => None
  end.

Definition times_within (lo hi : Z) (evs : list Event) : Prop :=
  Forall (fun ev => match event_time ev with
                    | Some t => lo <= t <= hi
                    | None => True
                    end) evs.

(** The request [list_shards] issues for a first page and for a token. *)
Definition first_page_request (m : ShardMap) : ListShardsRequest :=
  {| MaxResults := 1000; NextToken := None; StreamName := Some (stream_ m);
     StreamARN := if negb (string_empty (stream_arn_ m)) then Some (stream_arn_ m) else None;
     ShardFilter := Some AT_LATEST |}.

Definition next_page_request (token : string) : ListShardsRequest :=
  {| MaxResults := 1000; NextToken := Some token; StreamName := None;
     StreamARN := None; ShardFilter := None |}.

(** A refresh as the topology client drives it: the pages that carry a
    continuation token, then the final one. *)
Fixpoint deliver_pages (pages : list (list Shard * string)) : M unit :=
  match pages with
  | [] => ret tt
  | (shards, token) :: rest =>
      list_shards_callback 0 (Success shards token);;
      deliver_pages rest
  end.

Definition in_range (key : Z) (shard : Shard) : Prop :=
  GetStartingHashKey (GetHashKeyRange shard) <= key <= GetEndingHashKey (GetHashKeyRange shard).

Definition mkShard (id : string) (s e : Z) : Shard :=
  {| GetShardId := id;
     GetHashKeyRange := {| GetStartingHashKey := s; GetEndingHashKey := e |} |}.

(** The lineage drawn above [build_minimal_disjoint_hashranges]:
    parents 0 and 1, their children 3, 4, 5, 6, and 7 merged from 4 and 5. *)
Definition lineage_example : list Shard :=
  [ mkShard "shardId-000000000000" 0 5;
    mkShard "shardId-000000000001" 6 10;
    mkShard "shardId-000000000003" 0 2;
    mkShard "shardId-000000000004" 3 5;
    mkShard "shardId-000000000005" 6 8;
    mkShard "shardId-000000000006" 9 10;
    mkShard "shardId-000000000007" 3 8 ].

(** A stream of one shard that owns the whole hash-key space. *)
Definition whole_space_example : list Shard :=
  [ mkShard "shardId-000000000000" 0 uint128_max ].

(** The frame a non-final page would have if it left the backoff alone
    (the wording of the specification's state table). *)
Definition non_final_page_keeps_backoff : Prop :=
  forall now shards token m m',
    token <> EmptyString ->
    list_shards_callback now (Success shards token) m = Ret tt m' ->
    backoff_ m' = backoff_ m /\ state_ m' = state_ m
    /\ end_hash_key_to_shard_id_ m' = end_hash_key_to_shard_id_ m
    /\ updated_at_ m' = updated_at_ m.

(** Containment as the specification words it, for one refresh input. *)
Definition lookup_contained (shards : list Shard) (hash_key : Z) : Prop :=
  forall stream stream_arn ttl flag now m0 m,
    construct stream stream_arn kMinBackoff kMaxBackoff ttl flag = Ret tt m0 ->
    run [ListShardsCompleted now (Success shards EmptyString)] m0 = Some m ->
    exists id shard,
      shard_id true hash_key m = Some id
      /\ shard ∈ shards
      /\ shard_id_from_str (GetShardId shard) = Ok id
      /\ in_range hash_key shard.

(** ** Auxiliary notions for the statements *)

(** The ids of a page, when all of them parse. *)
Fixpoint shard_ids (shards : list Shard) : result (list N) :=
  match shards with
  | [] => Ok []
  | shard :: rest =>
      result_bind (shard_id_from_str (GetShardId shard)) (fun id =>
        result_bind (shard_ids rest) (fun ids => Ok (id :: ids)))
  end.

Definition uint128_ok (x : Z) : Prop := 0 <= x < uint128_modulus.

Definition range_ok (r : ShardRange) : Prop :=
  uint128_ok (sr_start r) /\ uint128_ok (sr_end r).

(** How many queued ranges still end at or above the watermark. *)
Definition count_ge (last : Z) (q : list ShardRange) : nat :=
  length (filter (fun r => last <= sr_end r) q).

(** What holds of the engine in every reachable state: one request is
    outstanding exactly while the state is UPDATING; the executor holds at
    most the one callback the handle points to; every cache entry sits
    under the id its descriptor parses to. *)
Definition engine_invariant (m : ShardMap) : Prop :=
  length (kinesis_client_ m) = (if State_eqb (state_ m) UPDATING then 1 else 0)%nat
  /\ match scheduled_callback_ m with
     | None => executor_ m = []
     | Some h => h = 0%nat /\ length (executor_ m) = 1%nat
     end
  /\ (forall k d, shard_id_to_shard_cache_ m !! k = Some d ->
        shard_id_from_str (GetShardId d) = Ok k).

Definition delay_within (lo hi : Z) (cb : ScheduledCallback) : Prop :=
  match cb with
  | Pending d => lo <= d <= hi
  | Done => True
  end.

(** The backoff and every armed delay stay within the configured bounds. *)
Definition backoff_invariant (min_backoff max_backoff : Z) (m : ShardMap) : Prop :=
  min_backoff_ m = min_backoff
  /\ max_backoff_ m = max_backoff
  /\ min_backoff <= backoff_ m <= max_backoff
  /\ Forall (delay_within min_backoff max_backoff) (executor_ m).

(** The object right after construction with the default configuration:
    the first page has been requested. *)
Definition started_example : ShardMap :=
  {| executor_ := [];
     kinesis_client_ :=
       [ {| MaxResults := 1000; NextToken := None; StreamName := Some "stream"%string;
            StreamARN := None; ShardFilter := Some AT_LATEST |} ];
     stream_ := "stream"; stream_arn_ := "";
     state_ := UPDATING;
     end_hash_key_to_shard_id_ := [];
     open_shards_ := [];
     open_shard_ids_ := ∅;
     shard_id_to_shard_cache_ := ∅;
     shard_cache_needs_cleanup_ := false;
     updated_at_ := 0;
     min_backoff_ := kMinBackoff;
     max_backoff_ := kMaxBackoff;
     backoff_ := kMinBackoff;
     closed_shard_ttl_ := kClosedShardTtl;
     scheduled_callback_ := None |}.

(** The three conditions under which [invalidate] refreshes. *)
Definition invalidation_condition (seen_at : Z) (predicted_shard : option N)
    (m : ShardMap) : Prop :=
  updated_at_ m < seen_at
  /\ state_ m = READY
  /\ (predicted_shard = None
      \/ exists p, predicted_shard = Some p /\ p ∈ open_shard_ids_ m).

(** The state a run ends in (the initial one if the run is not possible). *)
Definition after (evs : list Event) (m : ShardMap) : ShardMap :=
  default m (run evs m).

(** The default object after the lineage example arrived as a single page
    at time 100. *)
Definition ready_example : ShardMap :=
  after [ListShardsCompleted 100 (Success lineage_example EmptyString)] started_example.

(** The default object after one failed attempt, retrying: the backoff
    has grown to 1500 ms and the first page is requested again. *)
Definition retrying_example : ShardMap :=
  after [ListShardsCompleted 1 (Failure "InternalFailure" EmptyString); TimerFired 0]
    started_example.

(** ** The heap order of the priority queue *)

Definition parent (i : nat) : nat := (i - 1) / 2.

Section HeapOrderDefinitions.
Context {A : Type} (comp : A -> A -> bool).

(** The element at [i] is not above its parent. *)
Definition edge_ok (v : list A) (i : nat) : Prop :=
  forall c p, v !! i = Some c -> v !! parent i = Some p -> comp p c = false.

Definition heap_ordered (v : list A) : Prop :=
  forall i, (0 < i)%nat -> edge_ok v i.

(** Heap order with a hole: the edge into the hole is unconstrained, the
    children of the hole are not above its parent; while the hole moves down
    ([down = true]) the edges out of the hole are unconstrained too. *)
Definition heap_ordered_except (down : bool) (v : list A) (hole : nat) : Prop :=
  (forall i, (0 < i)%nat -> i <> hole -> (down = true -> parent i <> hole) -> edge_ok v i)
  /\ ((0 < hole)%nat -> forall j g c,
        (0 < j)%nat -> parent j = hole ->
        v !! parent hole = Some g -> v !! j = Some c -> comp g c = false).

End HeapOrderDefinitions.

(** ** Notions for the correctness of the reconciler *)

(** The first entry of the index whose end is not below the key. *)
Fixpoint find_entry (key : Z) (index : list (Z * N)) : option (Z * N) :=
  match index with
  | [] => None
  | entry :: rest => if entry.1 <? key then find_entry key rest else Some entry
  end.

Definition ascending (index : list (Z * N)) : Prop :=
  forall i j p q, (i <= j)%nat -> index !! i = Some p -> index !! j = Some q -> p.1 <= q.1.

Definition descending (emitted : list (Z * N)) : Prop :=
  forall i j p q, (i < j)%nat ->
    emitted !! i = Some p -> emitted !! j = Some q -> q.1 < p.1.

(** A shard with a proper 128-bit range. *)
Definition well_formed (shard : Shard) : Prop :=
  0 <= GetStartingHashKey (GetHashKeyRange shard)
  /\ GetStartingHashKey (GetHashKeyRange shard) <= GetEndingHashKey (GetHashKeyRange shard)
  /\ GetEndingHashKey (GetHashKeyRange shard) < uint128_modulus.

(** The range [fill_heap] queues for a shard. *)
Definition to_range (id : N) (shard : Shard) : ShardRange :=
  {| sr_shard_id := id;
     sr_start := to_uint128 (GetStartingHashKey (GetHashKeyRange shard));
     sr_end := to_uint128 (GetEndingHashKey (GetHashKeyRange shard)) |}.

(** A queued range stems from an input shard: same id and start, and an
    end that was only ever lowered. *)
Definition stems_from (shards : list Shard) (r : ShardRange) : Prop :=
  exists shard,
    shard ∈ shards
    /\ well_formed shard
    /\ shard_id_from_str (GetShardId shard) = Ok (sr_shard_id r)
    /\ sr_start r = GetStartingHashKey (GetHashKeyRange shard)
    /\ sr_start r <= sr_end r <= GetEndingHashKey (GetHashKeyRange shard).

(** The index serves a key: the lookup finds an entry that names an input
    shard whose range contains the key. *)
Definition serves (shards : list Shard) (index : list (Z * N)) (key : Z) : Prop :=
  exists entry shard,
    find_entry key index = Some entry
    /\ shard ∈ shards
    /\ shard_id_from_str (GetShardId shard) = Ok entry.2
    /\ in_range key shard.

(** The largest key the index can serve when the largest ending hash key is
    [max_end]: the watermark starts at [uint128_max] and only ends strictly
    below it are emitted. *)
Definition servable (max_end : Z) : Z := Z.min max_end (uint128_max - 1).

(** The queue still covers what lies below the watermark. *)
Definition covered_by_queue (max_end : Z) (q : list ShardRange) (last : Z) : Prop :=
  forall key, 0 <= key < last -> key <= max_end ->
    exists r, r ∈ q /\ sr_start r <= key <= sr_end r.

(** What holds at the head of the [while] loop. *)
Definition drain_invariant (shards : list Shard) (max_end : Z)
    (q : list ShardRange) (last : Z) (emitted : list (Z * N)) : Prop :=
  heap_ordered MaxHeapComparator q
  /\ Forall (stems_from shards) q
  /\ uint128_ok last
  /\ covered_by_queue max_end q last
  /\ Forall (fun p => last <= p.1 <= servable max_end) emitted
  /\ descending emitted
  /\ ((emitted = [] /\ last = uint128_max
       /\ (max_end < uint128_max -> exists r, r ∈ q /\ sr_end r = max_end))
      \/ (emitted <> []
          /\ forall key, last <= key <= servable max_end ->
               serves shards (rev emitted) key)).

(** Whether the reconciler, run on [shards] with an empty index, leaves the
    index [expected]. *)
Definition reconciles_to (expected : list (Z * N)) (shards : list Shard) : bool :=
  match fill_heap shards [] with
  | Ok q =>
      match drain_heap (drain_fuel (length q)) q uint128_max [] with
      | Some index => bool_decide (rev index = expected)
      | None => false
      end
  | Throw _ => false
  end.

(** ** Notions for the properties of the index, the cache and the timer *)

(** [shard] is, among the input shards whose range contains [key], one that
    starts highest, and [id] is what its id string parses to. *)
Definition narrowest (shards : list Shard) (key : Z) (id : N) (shard : Shard) : Prop :=
  shard ∈ shards
  /\ shard_id_from_str (GetShardId shard) = Ok id
  /\ in_range key shard
  /\ forall other, other ∈ shards -> in_range key other ->
       GetStartingHashKey (GetHashKeyRange other)
       <= GetStartingHashKey (GetHashKeyRange shard).

(** An index over [shards], lowest entry first: every entry names a
    narrowest input shard for its end key, and ends below the start of the
    shard of the entry after it.  The number is the start of the shard of
    the first entry, the watermark of the loop; it is [uint128_max] for
    the empty index. *)
Inductive tiling (shards : list Shard) : Z -> list (Z * N) -> Prop :=
  | tiling_nil : tiling shards uint128_max []
  | tiling_cons shard e id low rest :
      tiling shards low rest ->
      narrowest shards e id shard ->
      e < low ->
      tiling shards (GetStartingHashKey (GetHashKeyRange shard)) ((e, id) :: rest).

(** Every input shard that starts below the watermark is still queued,
    with an end that was lowered at most to just below the watermark. *)
Definition held_in_queue (shards : list Shard) (q : list ShardRange) (last : Z) : Prop :=
  forall shard, shard ∈ shards ->
    GetStartingHashKey (GetHashKeyRange shard) < last ->
    exists r, r ∈ q
      /\ sr_start r = GetStartingHashKey (GetHashKeyRange shard)
      /\ Z.min (GetEndingHashKey (GetHashKeyRange shard)) (last - 1) <= sr_end r.

(** What holds at the head of the [while] loop whether or not the shards
    cover the key space. *)
Definition tiling_invariant (shards : list Shard) (q : list ShardRange) (last : Z)
    (emitted : list (Z * N)) : Prop :=
  heap_ordered MaxHeapComparator q
  /\ Forall (stems_from shards) q
  /\ uint128_ok last
  /\ held_in_queue shards q last
  /\ tiling shards last (rev emitted).

(** The shards leave no gap in [[0, max_end]], and [max_end] is the largest
    ending hash key among them. *)
Definition covers (shards : list Shard) (max_end : Z) : Prop :=
  (exists shard, shard ∈ shards /\ GetEndingHashKey (GetHashKeyRange shard) = max_end)
  /\ (forall shard, shard ∈ shards -> GetEndingHashKey (GetHashKeyRange shard) <= max_end)
  /\ (forall key, 0 <= key <= max_end -> exists shard, shard ∈ shards /\ in_range key shard).

(** The object once [list_shards_callback] has stored a page whose ids are
    [ids] and reset the backoff. *)
Definition staged (shards : list Shard) (ids : list N) (m : ShardMap) : ShardMap :=
  set_backoff_ (min_backoff_ m)
    (set_open_shard_ids_ (list_to_set ids ∪ open_shard_ids_ m)
       (set_open_shards_ (open_shards_ m ++ shards) m)).

(** What holds of the index in every reachable state: the open set is the
    set of the ids of the staged shards; the index is empty unless the
    state is READY; in READY its ids are open, the open ids are cached, and
    when the staged shards have proper ranges it tiles them and serves the
    keys they cover. *)
Definition index_invariant (m : ShardMap) : Prop :=
  (exists ids, shard_ids (open_shards_ m) = Ok ids /\ open_shard_ids_ m = list_to_set ids)
  /\ (state_ m <> READY -> end_hash_key_to_shard_id_ m = [])
  /\ (state_ m = READY ->
        Forall (fun p => p.2 ∈ open_shard_ids_ m) (end_hash_key_to_shard_id_ m)
        /\ (forall id, id ∈ open_shard_ids_ m ->
              is_Some (shard_id_to_shard_cache_ m !! id))
        /\ (Forall well_formed (open_shards_ m) ->
              (exists low, tiling (open_shards_ m) low (end_hash_key_to_shard_id_ m))
              /\ forall max_end, covers (open_shards_ m) max_end ->
                   Forall (fun p => p.1 <= servable max_end) (end_hash_key_to_shard_id_ m)
                   /\ forall key, 0 <= key <= servable max_end ->
                        serves (open_shards_ m) (end_hash_key_to_shard_id_ m) key)).

(** The first shard of a listing whose id string parses to [id]. *)
Fixpoint first_with_id (id : N) (shards : list Shard) : option Shard :=
  match shards with
  | [] => None
  | shard :: rest =>
      match shard_id_from_str (GetShardId shard) with
      | Ok i => if N.eqb i id then Some shard else first_with_id id rest
      | Throw _ => first_with_id id rest
      end
  end.

(** A retry is armed exactly in state INVALID. *)
Definition timer_invariant (m : ShardMap) : Prop :=
  (state_ m = INVALID ->
     exists d, executor_ m = [Pending d] /\ scheduled_callback_ m = Some 0%nat)
  /\ (state_ m <> INVALID -> Forall (fun cb => cb = Done) (executor_ m)).

(** With a minimal backoff of at most one millisecond nothing ever grows. *)
Definition flat_backoff_invariant (min_backoff : Z) (m : ShardMap) : Prop :=
  backoff_ m = min_backoff
  /\ Forall (fun cb => cb = Done \/ cb = Pending min_backoff) (executor_ m).

(** The default object once the lineage example has arrived as a page with
    a continuation token. *)
Definition staged_example : ShardMap :=
  after [ListShardsCompleted 7 (Success lineage_example "token")] started_example.

(** The default object after one failed attempt, before the retry fires. *)
Definition failed_example : ShardMap :=
  after [ListShardsCompleted 1 (Failure "InternalFailure" EmptyString)] started_example.

(** An object built with a minimal backoff of one millisecond, right after
    construction and after two failed attempts. *)
Definition one_millisecond_started : ShardMap :=
  {| executor_ := [];
     kinesis_client_ :=
       [ {| MaxResults := 1000; NextToken := None; StreamName := Some "stream"%string;
            StreamARN := None; ShardFilter := Some AT_LATEST |} ];
     stream_ := "stream"; stream_arn_ := "";
     state_ := UPDATING;
     end_hash_key_to_shard_id_ := [];
     open_shards_ := [];
     open_shard_ids_ := ∅;
     shard_id_to_shard_cache_ := ∅;
     shard_cache_needs_cleanup_ := false;
     updated_at_ := 0;
     min_backoff_ := 1;
     max_backoff_ := kMaxBackoff;
     backoff_ := 1;
     closed_shard_ttl_ := kClosedShardTtl;
     scheduled_callback_ := None |}.

Definition one_millisecond_example : ShardMap :=
  after [ListShardsCompleted 1 (Failure "InternalFailure" EmptyString);
         TimerFired 0;
         ListShardsCompleted 2 (Failure "InternalFailure" EmptyString)]
    one_millisecond_started.

(** What a [ListShards] request of this object looks like: it either names
    the stream and asks for the open shards, or carries a continuation
    token and nothing else. *)
Definition request_ok (stream stream_arn : string) (req : ListShardsRequest) : Prop :=
  MaxResults req = 1000
  /\ ((NextToken req = None
       /\ StreamName req = Some stream
       /\ StreamARN req = (if string_empty stream_arn then None else Some stream_arn)
       /\ ShardFilter req = Some AT_LATEST)
      \/ (exists token, token <> EmptyString
            /\ NextToken req = Some token
            /\ StreamName req = None
            /\ StreamARN req = None
            /\ ShardFilter req = None)).

Definition requests_invariant (stream stream_arn : string) (m : ShardMap) : Prop :=
  stream_ m = stream
  /\ stream_arn_ m = stream_arn
  /\ Forall (request_ok stream stream_arn) (kinesis_client_ m).

(** Whether a string consists of decimal digits only. *)
Fixpoint all_digits (s : string) : bool :=
  match s with
  | EmptyString => true
  | String c s' => Str.is_digit c && all_digits s'
  end.

(** * Properties *)

(** ** The shard-id strings *)

Section ShardIdStrings.
Local Open Scope N_scope.

Lemma digit_char_is_digit d : d < 10 -> Str.is_digit (Str.digit_char d) = true.
Proof.
  intros Hd. unfold Str.is_digit, Str.digit_char.
  rewrite N_ascii_embedding by lia.
  apply andb_true_iff. split; apply N.leb_le; lia.
Qed.

Lemma digit_val_char d : d < 10 -> Str.digit_val (Str.digit_char d) = d.
Proof.
  intros Hd. unfold Str.digit_val, Str.digit_char.
  rewrite N_ascii_embedding by lia. lia.
Qed.

Lemma string_value_cons a d s :
  d < 10 -> string_value a (String (Str.digit_char d) s) = string_value (a * 10 + d) s.
Proof.
  intros Hd. unfold string_value. cbn [Str.take_digits].
  rewrite digit_char_is_digit by done. cbn. by rewrite digit_val_char.
Qed.

Lemma to_string_loop_value fuel : forall n acc,
  n < 10 ^ N.of_nat fuel ->
  string_value 0 (Str.to_string_loop fuel n acc) = string_value n acc.
Proof.
  induction fuel as [|fuel IH]; intros n acc Hn.
  - cbn in Hn. assert (n = 0) as -> by lia. done.
  - assert (Hmod : n mod 10 < 10) by (apply N.mod_lt; lia).
    pose proof (N.div_mod n 10 ltac:(lia)) as Hdm.
    cbn [Str.to_string_loop]. destruct (N.eqb_spec (n / 10) 0) as [Hz|Hz].
    + rewrite string_value_cons by done. f_equal. lia.
    + rewrite IH.
      * rewrite string_value_cons by done. f_equal. lia.
      * rewrite Nat2N.inj_succ, N.pow_succ_r' in Hn.
        apply N.Div0.div_lt_upper_bound. lia.
Qed.

Lemma to_string_loop_starts fuel : forall n acc,
  starts_with_digit acc \/ (0 < fuel)%nat ->
  starts_with_digit (Str.to_string_loop fuel n acc).
Proof.
  induction fuel as [|fuel IH]; intros n acc H.
  - destruct H as [H|H]; [done | lia].
  - cbn [Str.to_string_loop].
    assert (Hd : starts_with_digit (String (Str.digit_char (n mod 10)) acc)).
    { cbn. apply digit_char_is_digit, N.mod_lt. lia. }
    destruct (n / 10 =? 0); [done |]. apply IH. by left.
Qed.

Lemma to_string_loop_length_ge fuel : forall n acc,
  (String.length acc <= String.length (Str.to_string_loop fuel n acc))%nat.
Proof.
  induction fuel as [|fuel IH]; intros n acc; cbn [Str.to_string_loop]; [lia |].
  destruct (n / 10 =? 0); [cbn; lia |].
  etransitivity; [| apply IH]. cbn. lia.
Qed.

Lemma to_string_loop_length_upper fuel : forall n acc k,
  (1 <= k)%nat -> n < 10 ^ N.of_nat k ->
  (String.length (Str.to_string_loop fuel n acc) <= k + String.length acc)%nat.
Proof.
  induction fuel as [|fuel IH]; intros n acc k Hk Hn; cbn [Str.to_string_loop]; [lia |].
  destruct (N.eqb_spec (n / 10) 0) as [Hz|Hz]; [cbn; lia |].
  destruct k as [|[|k]]; [lia | |].
  - exfalso. apply Hz. apply N.div_small. cbn in Hn. lia.
  - etransitivity.
    + apply (IH _ _ (S k)); [lia |].
      rewrite Nat2N.inj_succ, N.pow_succ_r' in Hn.
      apply N.Div0.div_lt_upper_bound. lia.
    + cbn. lia.
Qed.

Lemma to_string_loop_length_lower fuel : forall n acc k,
  (k < fuel)%nat -> 10 ^ N.of_nat k <= n ->
  (k + 1 + String.length acc <= String.length (Str.to_string_loop fuel n acc))%nat.
Proof.
  induction fuel as [|fuel IH]; intros n acc k Hk Hn; [lia |].
  cbn [Str.to_string_loop].
  destruct (N.eqb_spec (n / 10) 0) as [Hz|Hz].
  - destruct k as [|k]; [cbn; lia |]. exfalso.
    apply N.div_small_iff in Hz; [| lia].
    rewrite Nat2N.inj_succ, N.pow_succ_r' in Hn.
    assert (1 <= 10 ^ N.of_nat k) by (apply N.lt_pred_le, N.neq_0_lt_0, N.pow_nonzero; lia).
    lia.
  - destruct k as [|k].
    + etransitivity; [| apply to_string_loop_length_ge]. cbn. lia.
    + etransitivity; [| apply (IH _ _ k)]; [cbn; lia | lia |].
      rewrite Nat2N.inj_succ, N.pow_succ_r' in Hn.
      apply N.div_le_lower_bound; lia.
Qed.

Lemma string_value_zeros k s :
  string_value 0 (Str.replicate_char k "0" ++ s) = string_value 0 s.
Proof. induction k as [|k IH]; [done |]. cbn. apply IH. Qed.

Lemma starts_with_digit_zeros k s :
  starts_with_digit s -> starts_with_digit (Str.replicate_char k "0" ++ s).
Proof. destruct k; [done |]. intros _. reflexivity. Qed.

Lemma replicate_char_length k c : String.length (Str.replicate_char k c) = k.
Proof. induction k; cbn; congruence. Qed.

Lemma stoull_digits s :
  starts_with_digit s -> string_value 0 s < uint64_modulus ->
  Str.stoull s = Ok (string_value 0 s).
Proof.
  destruct s as [|c s]; [done |]. intros Hc Hv. cbn in Hc.
  unfold Str.stoull.
  assert (Hsp : Str.skip_space (String c s) = String c s).
  { cbn. replace (Str.isspace c) with false; [done |].
    unfold Str.is_digit in Hc. unfold Str.isspace.
    apply andb_true_iff in Hc as [H1%N.leb_le H2%N.leb_le].
    symmetry. apply orb_false_iff. split; [apply N.eqb_neq; lia |].
    apply andb_false_iff. right. apply N.leb_gt. lia. }
  rewrite Hsp.
  assert (Hsign : (c <> "-" /\ c <> "+")%char).
  { split; intros ->; discriminate Hc. }
  destruct Hsign as [Hm Hp].
  assert (Hmatch : match String c s with
                   | String "-"%char s' => (true, s')
                   | String "+"%char s' => (false, s')
                   | _ => (false, String c s)
                   end = (false, String c s)).
  { destruct c as [[] [] [] [] [] [] [] []]; try reflexivity; congruence. }
  rewrite Hmatch. unfold string_value in *.
  cbn [Str.take_digits] in *. rewrite Hc in *.
  destruct (N.leb_spec uint64_modulus
              (Str.digits_value 0 (Str.digit_val c :: Str.take_digits s))); [lia | done].
Qed.

Lemma substring_all s : substring 0 (String.length s) s = s.
Proof. induction s as [|c s IH]; [done |]. cbn. by rewrite IH. Qed.

Lemma shard_id_from_str_prefixed rest :
  shard_id_from_str ("shardId-" ++ rest) = Str.stoull rest.
Proof.
  unfold shard_id_from_str, split_on_first.
  cbv beta iota delta [String.append].
  destruct rest as [|c rest]; cbn; by rewrite ?substring_all.
Qed.

Lemma to_string_length_bounds id :
  id < uint64_modulus ->
  (1 <= String.length (Str.to_string id) <= 20)%nat.
Proof.
  intros Hid. unfold Str.to_string. split.
  - pose proof (to_string_loop_starts 20 id EmptyString ltac:(right; lia)) as H.
    destruct (Str.to_string_loop 20 id EmptyString); [done | cbn; lia].
  - pose proof (to_string_loop_length_upper 20 id EmptyString 20 ltac:(lia)) as H.
    cbn in H. apply H. unfold uint64_modulus in Hid. cbn in Hid. lia.
Qed.

End ShardIdStrings.

Section ShardIdTheorems.
Local Open Scope N_scope.

Lemma string_app_cons c (a b : string) : (String c a ++ b = String c (a ++ b))%string.
Proof. reflexivity. Qed.

Lemma string_length_app (a b : string) :
  String.length (a ++ b) = (String.length a + String.length b)%nat.
Proof.
  induction a as [|c a IH]; [done |].
  rewrite string_app_cons. cbn. by rewrite IH.
Qed.

Lemma to_string_value id : id < uint64_modulus -> string_value 0 (Str.to_string id) = id.
Proof.
  intros Hid. unfold Str.to_string. rewrite to_string_loop_value; [done |].
  unfold uint64_modulus in Hid. cbn in *. lia.
Qed.

Lemma to_string_length_small id :
  id < 10 ^ 12 -> (String.length (Str.to_string id) <= 12)%nat.
Proof.
  intros Hid.
  pose proof (to_string_loop_length_upper 20 id EmptyString 12 ltac:(lia) Hid) as H.
  cbn in H. exact H.
Qed.

Lemma to_string_length_large id :
  10 ^ 12 <= id -> (13 <= String.length (Str.to_string id))%nat.
Proof.
  intros Hid.
  pose proof (to_string_loop_length_lower 20 id EmptyString 12 ltac:(lia) Hid) as H.
  cbn in H. exact H.
Qed.

Lemma shard_id_to_str_small id :
  id < 10 ^ 12 ->
  shard_id_to_str id =
    Ok ("shardId-" ++
        Str.replicate_char (12 - String.length (Str.to_string id)) "0" ++
        Str.to_string id)%string.
Proof.
  intros Hid. pose proof (to_string_length_small id Hid) as Hlen.
  unfold shard_id_to_str, size_t_sub, Str.fill, uint64_modulus, Str.max_size.
  set (len := String.length (Str.to_string id)) in *.
  assert (Hsub : (12 + 2 ^ 64 - N.of_nat len mod 2 ^ 64) mod 2 ^ 64 = N.of_nat (12 - len)).
  { rewrite (N.mod_small (N.of_nat len)) by lia.
    replace (12 + 2 ^ 64 - N.of_nat len) with (N.of_nat (12 - len) + 1 * 2 ^ 64) by lia.
    rewrite N.Div0.mod_add. apply N.mod_small. lia. }
  rewrite Hsub.
  destruct (N.ltb_spec (2 ^ 63 - 1) (N.of_nat (12 - len))); [lia |].
  cbn [result_bind]. by rewrite Nat2N.id.
Qed.

(** C10: [shard_id_to_str] is well defined exactly below 10^12.  For such an
    id the decimal rendering has at most 12 characters, the pad count
    [12 - length] does not wrap, and the result is "shardId-" followed by
    exactly 12 characters, zeros and then the digits of the id.  From 10^12
    on the rendering is longer than 12, the unsigned subtraction wraps to
    a count beyond [max_size], and the construction of the padding raises
    [length_error]. *)
Theorem shard_id_to_str_precondition (id : N) :
  id < uint64_modulus ->
  let i := Str.to_string id in
  let len := N.of_nat (String.length i) in
  (id < 10 ^ 12 ->
     len <= 12
     /\ size_t_sub 12 len = 12 - len
     /\ shard_id_to_str id =
          Ok ("shardId-" ++ Str.replicate_char (N.to_nat (12 - len)) "0" ++ i)%string
     /\ String.length (Str.replicate_char (N.to_nat (12 - len)) "0" ++ i)%string = 12%nat
     /\ string_value 0 (Str.replicate_char (N.to_nat (12 - len)) "0" ++ i) = id)
  /\ (10 ^ 12 <= id ->
     12 < len
     /\ size_t_sub 12 len = uint64_modulus + 12 - len
     /\ Str.max_size < size_t_sub 12 len
     /\ shard_id_to_str id = Throw length_error).
Proof.
  intros Hid i len. pose proof (to_string_length_bounds id Hid) as Hb.
  fold i in Hb. split; intros Hrange.
  - pose proof (to_string_length_small id Hrange) as Hlen. fold i in Hlen.
    assert (Hpad : N.to_nat (12 - len) = (12 - String.length i)%nat) by (unfold len; lia).
    rewrite Hpad. repeat split.
    + unfold len. lia.
    + unfold size_t_sub, uint64_modulus, len.
      rewrite (N.mod_small (N.of_nat _)) by lia.
      replace (12 + 2 ^ 64 - N.of_nat (String.length i))
        with (12 - N.of_nat (String.length i) + 1 * 2 ^ 64) by lia.
      rewrite N.Div0.mod_add. apply N.mod_small. lia.
    + by apply shard_id_to_str_small.
    + rewrite string_length_app, replicate_char_length. lia.
    + rewrite string_value_zeros. by apply to_string_value.
  - pose proof (to_string_length_large id Hrange) as Hlen. fold i in Hlen.
    assert (Hsub : size_t_sub 12 len = uint64_modulus + 12 - len).
    { unfold size_t_sub, uint64_modulus, len.
      rewrite (N.mod_small (N.of_nat _)) by lia.
      apply N.mod_small. lia. }
    assert (Hmax : Str.max_size < size_t_sub 12 len).
    { rewrite Hsub. unfold Str.max_size, uint64_modulus, len. lia. }
    repeat split; [unfold len; lia | done | done |].
    unfold shard_id_to_str, Str.fill. fold i. fold len.
    apply N.ltb_lt in Hmax. by rewrite Hmax.
Qed.

Lemma shard_id_to_str_precondition_witness :
  shard_id_to_str 7 = Ok "shardId-000000000007"%string
  /\ shard_id_to_str (10 ^ 12) = Throw length_error.
Proof.
  assert (H7 : 7 < uint64_modulus) by reflexivity.
  assert (Hbig : 10 ^ 12 < uint64_modulus) by reflexivity.
  split.
  - destruct (shard_id_to_str_precondition 7 H7) as [H _].
    destruct (H ltac:(reflexivity)) as (_ & _ & -> & _). reflexivity.
  - destruct (shard_id_to_str_precondition (10 ^ 12) Hbig) as [_ H].
    destruct (H ltac:(discriminate)) as (_ & _ & _ & ->). reflexivity.
Defined.

(** C9: for every id in [0, 10^12), parsing what [shard_id_to_str] emits
    gives the id back: the emitted string is "shardId-" and the value padded
    to 12 digits, [shard_id_from_str] splits it on the first '-' and
    [stoull] reads the padded decimal suffix exactly. *)
Theorem shard_id_round_trip (id : N) :
  id < 10 ^ 12 ->
  exists s, shard_id_to_str id = Ok s
    /\ String.length s = 20%nat
    /\ split_on_first s "-" = ["shardId"%string; substring 8 12 s]
    /\ shard_id_from_str s = Ok id.
Proof.
  intros Hid.
  assert (Hid64 : id < uint64_modulus) by (unfold uint64_modulus; cbn in *; lia).
  pose proof (to_string_length_small id Hid) as Hlen.
  eexists. split; [by apply shard_id_to_str_small |].
  set (p := Str.replicate_char _ _).
  assert (Hl : String.length (p ++ Str.to_string id)%string = 12%nat).
  { rewrite string_length_app. unfold p. rewrite replicate_char_length. lia. }
  repeat split.
  - rewrite string_length_app, Hl. reflexivity.
  - unfold split_on_first. generalize dependent (p ++ Str.to_string id)%string.
    intros rest Hrest. cbv beta iota delta [String.append].
    destruct rest as [|c rest]; [discriminate |].
    cbn -[substring]. f_equal. f_equal.
    change (substring 0 (S (String.length rest)) (String c rest)
            = substring 0 12 (String c rest)).
    by rewrite <- Hrest.
  - rewrite shard_id_from_str_prefixed.
    assert (Hv : string_value 0 (p ++ Str.to_string id) = id).
    { unfold p. rewrite string_value_zeros. by apply to_string_value. }
    rewrite stoull_digits; [by rewrite Hv | | by rewrite Hv].
    unfold p. apply starts_with_digit_zeros.
    apply to_string_loop_starts. right. lia.
Qed.

Lemma shard_id_round_trip_witness :
  exists s, shard_id_to_str 123456789012 = Ok s
    /\ String.length s = 20%nat
    /\ split_on_first s "-" = ["shardId"%string; substring 8 12 s]
    /\ shard_id_from_str s = Ok 123456789012.
Proof. apply (shard_id_round_trip 123456789012). reflexivity. Defined.

End ShardIdTheorems.

(** ** The priority queue keeps its elements *)

Section PriorityQueueFacts.
Context {A : Type} (comp : A -> A -> bool).
Import priority_queue.

Lemma insert_Permutation (v : list A) j a y :
  v !! j = Some y -> a :: v ≡ₚ y :: <[j := a]> v.
Proof.
  revert j. induction v as [|b v IH]; intros [|j] Hj; try done.
  - cbn in Hj. injection Hj as ->. cbn. apply Permutation_swap.
  - cbn in Hj. cbn. rewrite (Permutation_swap b a v).
    rewrite (IH _ Hj). apply Permutation_swap.
Qed.

Lemma swap_Permutation (v : list A) i j : swap v i j ≡ₚ v.
Proof.
  unfold swap. destruct (v !! i) as [x|] eqn:Hi; [| done].
  destruct (v !! j) as [y|] eqn:Hj; [| done].
  assert (Hx : <[j := x]> v !! i = Some x).
  { destruct (decide (i = j)) as [->|Hne].
    - apply list_lookup_insert_eq. by eapply lookup_lt_Some.
    - by rewrite list_lookup_insert_ne. }
  apply (Permutation_cons_inv (a := x)).
  rewrite <- (insert_Permutation _ i y x Hx).
  by rewrite (insert_Permutation v j x y Hj).
Qed.

Lemma swap_length (v : list A) i j : length (swap v i j) = length v.
Proof. apply Permutation_length, swap_Permutation. Qed.

Lemma push_heap_loop_Permutation fuel : forall (v : list A) hole,
  push_heap_loop comp fuel v hole ≡ₚ v.
Proof.
  induction fuel as [|fuel IH]; intros v hole; cbn [push_heap_loop]; [done |].
  repeat case_match; try done. rewrite IH. apply swap_Permutation.
Qed.

Lemma adjust_heap_loop_Permutation fuel : forall (v : list A) hole,
  (adjust_heap_loop comp fuel v hole).1 ≡ₚ v.
Proof.
  induction fuel as [|fuel IH]; intros v hole; cbn [adjust_heap_loop]; [done |].
  repeat case_match; cbn [fst]; try done;
    rewrite ?IH; apply swap_Permutation.
Qed.

Lemma adjust_heap_Permutation (v : list A) : adjust_heap comp v ≡ₚ v.
Proof.
  unfold adjust_heap.
  pose proof (adjust_heap_loop_Permutation (length v) v 0) as H.
  destruct (adjust_heap_loop comp (length v) v 0) as [v' hole].
  rewrite push_heap_loop_Permutation. exact H.
Qed.

Lemma push_Permutation x (q : list A) : push comp x q ≡ₚ x :: q.
Proof.
  unfold push, push_heap. rewrite push_heap_loop_Permutation.
  by rewrite Permutation_app_comm.
Qed.

Lemma pop_top (q : list A) x :
  top q = Some x -> pop comp q ++ [x] ≡ₚ q.
Proof.
  destruct q as [|y q]; [done |]. intros [= ->].
  destruct q as [|z q]; [done |].
  unfold pop, pop_heap.
  change (1 <? length (x :: z :: q))%nat with true. cbv iota.
  change (length (x :: z :: q) - 1)%nat with (S (length q)).
  set (v1 := swap (x :: z :: q) 0 (S (length q))).
  assert (Hv1 : length v1 = S (S (length q))) by apply swap_length.
  assert (Hl : v1 !! S (length q) = Some x).
  { unfold v1, swap.
    destruct (lookup_lt_is_Some_2 (x :: z :: q) (S (length q))) as [y Hy].
    { cbn [length]. lia. }
    rewrite Hy. change ((x :: z :: q) !! 0%nat) with (Some x). cbv iota.
    rewrite list_lookup_insert_ne by lia.
    apply list_lookup_insert_eq. cbn [length]. lia. }
  assert (Hlast : drop (S (length q)) v1 = [x]).
  { apply list_eq. intros [|k].
    - rewrite lookup_drop, Nat.add_0_r. exact Hl.
    - rewrite lookup_drop. apply lookup_ge_None. lia. }
  rewrite Hlast.
  assert (Hal : length (adjust_heap comp (take (S (length q)) v1)) = S (length q)).
  { rewrite (Permutation_length (adjust_heap_Permutation _)).
    rewrite length_take. lia. }
  rewrite length_app, Hal. cbn [length]. rewrite Nat.add_sub.
  rewrite take_app_length' by done.
  rewrite adjust_heap_Permutation.
  rewrite <- Hlast, take_drop. apply swap_Permutation.
Qed.

Lemma pop_length (q : list A) x :
  top q = Some x -> S (length (pop comp q)) = length q.
Proof.
  intros H. rewrite <- (Permutation_length (pop_top q x H)).
  rewrite length_app. cbn. lia.
Qed.

End PriorityQueueFacts.

(** ** The reconciler's loop terminates *)

Lemma count_ge_Permutation last (q q' : list ShardRange) :
  q ≡ₚ q' -> count_ge last q = count_ge last q'.
Proof. intros H. unfold count_ge. by rewrite H. Qed.

Lemma count_ge_le last (q : list ShardRange) : (count_ge last q <= length q)%nat.
Proof. apply length_filter. Qed.

Lemma count_ge_snoc last (q : list ShardRange) r :
  count_ge last (q ++ [r]) =
  (count_ge last q + if decide (last <= sr_end r)%Z then 1 else 0)%nat.
Proof.
  unfold count_ge. rewrite filter_app, length_app. f_equal.
  rewrite filter_cons, filter_nil. by destruct (decide _).
Qed.

Lemma uint128_sub_pred last :
  uint128_ok last -> 0 < last ->
  uint128_sub last 1 = last - 1.
Proof.
  unfold uint128_ok, uint128_sub. intros H1 H2. apply Z.mod_small. lia.
Qed.

Lemma drain_heap_total fuel : forall q last emitted,
  Forall range_ok q -> uint128_ok last ->
  (length q * (length q + 1) + count_ge last q + 1 <= fuel)%nat ->
  is_Some (drain_heap fuel q last emitted).
Proof.
  induction fuel as [|fuel IH]; intros q last emitted Hq Hlast Hfuel; [lia |].
  cbn [drain_heap].
  destruct (priority_queue.top q) as [shard|] eqn:Htop; [| by eexists].
  pose proof (pop_top MaxHeapComparator q shard Htop) as Hperm.
  pose proof (pop_length MaxHeapComparator q shard Htop) as Hlen.
  set (q' := priority_queue.pop MaxHeapComparator q) in *.
  assert (Hall : Forall range_ok (q' ++ [shard])) by (by rewrite Hperm).
  apply Forall_app in Hall as [Hq' Hshard].
  apply Forall_inv in Hshard. destruct Hshard as [Hs He].
  pose proof (count_ge_le last q') as Hc1.
  assert (Hcount : count_ge last q =
            (count_ge last q' + if decide (last <= sr_end shard)%Z then 1 else 0)%nat).
  { rewrite <- (count_ge_Permutation last _ _ Hperm). apply count_ge_snoc. }
  destruct (Z.ltb_spec (sr_end shard) last) as [Hlt|Hge].
  - apply IH; [done | done |].
    pose proof (count_ge_le (sr_start shard) q'). nia.
  - destruct (Z.ltb_spec (sr_start shard) last) as [Hslt|Hsge].
    + assert (Hpos : 0 < last) by (unfold uint128_ok in Hs; lia).
      rewrite uint128_sub_pred by done.
      set (trimmed := {| sr_shard_id := sr_shard_id shard;
                         sr_start := sr_start shard; sr_end := last - 1 |}).
      pose proof (push_Permutation MaxHeapComparator trimmed q') as Hpush.
      apply IH; [| done |].
      * rewrite Hpush. constructor; [| done].
        split; [done |]. cbn. unfold uint128_ok in *. lia.
      * rewrite (Permutation_length Hpush), (count_ge_Permutation _ _ _ Hpush).
        change (trimmed :: q') with ([trimmed] ++ q').
        rewrite (count_ge_Permutation last _ _ (Permutation_app_comm [trimmed] q')).
        rewrite count_ge_snoc. unfold trimmed. cbn [length sr_end].
        destruct (decide (last <= last - 1)); [lia |].
        destruct (decide (last <= sr_end shard)); [| lia].
        rewrite <- Hlen in Hfuel. cbn [app length]. lia.
    + apply IH; [done | done |]. nia.
Qed.

Lemma fill_heap_range_ok shards : forall q q',
  Forall range_ok q -> fill_heap shards q = Ok q' ->
  Forall range_ok q' /\ length q' = (length q + length shards)%nat.
Proof.
  induction shards as [|shard shards IH]; intros q q' Hq Hfill; cbn in Hfill.
  - injection Hfill as <-. split; [done | cbn; lia].
  - destruct (shard_id_from_str (GetShardId shard)) as [id|e]; [| done].
    cbn in Hfill. apply IH in Hfill as [H1 H2].
    + split; [done |]. rewrite H2.
      rewrite (Permutation_length (push_Permutation _ _ _)). cbn. lia.
    + rewrite push_Permutation. constructor; [| done].
      split; cbn; apply Z.mod_pos_bound; reflexivity.
Qed.

Lemma drain_heap_enough_fuel (q : list ShardRange) emitted :
  Forall range_ok q ->
  is_Some (drain_heap (drain_fuel (length q)) q uint128_max emitted).
Proof.
  intros Hq. apply drain_heap_total; [done | |].
  - unfold uint128_ok, uint128_max, uint128_modulus. lia.
  - pose proof (count_ge_le uint128_max q). unfold drain_fuel. nia.
Qed.

(** ** What the member functions do to the object *)

Arguments shard_id_from_str : simpl never.
Arguments priority_queue.push : simpl never.
Arguments priority_queue.pop : simpl never.
Arguments drain_heap : simpl never.
Arguments drain_fuel : simpl never.
Arguments Z.quot : simpl never.
Arguments Z.min : simpl never.
Arguments Z.ltb : simpl never.
Arguments Z.add : simpl never.

Ltac unfold_monad :=
  unfold bind, ret, get, modify, lift, ListShardsAsync, executor_schedule,
    callback_cancel, callback_reschedule in *.

Ltac unfold_setters :=
  unfold set_executor_, set_kinesis_client_, set_state_,
    set_end_hash_key_to_shard_id_, set_open_shards_, set_open_shard_ids_,
    set_shard_id_to_shard_cache_, set_shard_cache_needs_cleanup_,
    set_updated_at_, set_backoff_, set_scheduled_callback_ in *.

(** Reduction of the projections of [ShardMap] only: the maps and sets
    inside stay folded. *)
Ltac proj_simpl :=
  cbn [executor_ kinesis_client_ stream_ stream_arn_ state_
       end_hash_key_to_shard_id_ open_shards_ open_shard_ids_
       shard_id_to_shard_cache_ shard_cache_needs_cleanup_ updated_at_
       min_backoff_ max_backoff_ backoff_ closed_shard_ttl_
       scheduled_callback_
       set_executor_ set_kinesis_client_ set_state_
       set_end_hash_key_to_shard_id_ set_open_shards_ set_open_shard_ids_
       set_shard_id_to_shard_cache_ set_shard_cache_needs_cleanup_
       set_updated_at_ set_backoff_ set_scheduled_callback_
       State_eqb length app andb negb string_empty] in *.

(** Equality of two objects built from the same one, field by field. *)
Ltac record_eq m := destruct m; unfold_setters; proj_simpl; try reflexivity.

Lemma set_shard_id_to_shard_cache_twice c1 c2 m :
  set_shard_id_to_shard_cache_ c2 (set_shard_id_to_shard_cache_ c1 m)
  = set_shard_id_to_shard_cache_ c2 m.
Proof. by destruct m. Qed.

Lemma set_shard_id_to_shard_cache_same m :
  set_shard_id_to_shard_cache_ (shard_id_to_shard_cache_ m) m = m.
Proof. by destruct m. Qed.

Lemma shard_ids_cons_inv shard rest ids :
  shard_ids (shard :: rest) = Ok ids ->
  exists id ids', ids = id :: ids'
    /\ shard_id_from_str (GetShardId shard) = Ok id /\ shard_ids rest = Ok ids'.
Proof.
  cbn. destruct (shard_id_from_str _) as [id|]; [| done]. cbn.
  destruct (shard_ids rest) as [ids'|]; [| done]. cbn.
  intros [= <-]. by exists id, ids'.
Qed.

Lemma shard_ids_parse shards ids shard :
  shard_ids shards = Ok ids -> shard ∈ shards ->
  exists id, shard_id_from_str (GetShardId shard) = Ok id.
Proof.
  intros Hids Hin. revert ids Hids.
  induction Hin as [shard rest | shard s0 rest Hin IH]; intros ids Hids;
    apply shard_ids_cons_inv in Hids as (id & ids' & -> & Hid & Hrest).
  - by exists id.
  - by eapply IH.
Qed.

Lemma store_shards_ok shards : forall ids m,
  shard_ids shards = Ok ids ->
  store_shards shards m =
    Ret tt (set_open_shard_ids_ (list_to_set ids ∪ open_shard_ids_ m)
              (set_open_shards_ (open_shards_ m ++ shards) m)).
Proof.
  induction shards as [|shard rest IH]; intros ids m Hids.
  - injection Hids as <-. cbn. unfold ret. record_eq m. do 2 f_equal.
    + by rewrite app_nil_r.
    + set_solver.
  - apply shard_ids_cons_inv in Hids as (id & ids' & -> & Hid & Hrest).
    cbn [store_shards]. unfold_monad. rewrite Hid.
    rewrite (IH ids' _ Hrest). record_eq m. do 2 f_equal.
    + by rewrite <- app_assoc.
    + set_solver.
Qed.

Lemma store_shards_inv shards : forall m m',
  store_shards shards m = Ret tt m' -> exists ids, shard_ids shards = Ok ids.
Proof.
  induction shards as [|shard rest IH]; intros m m' H; [by exists [] |].
  cbn [store_shards] in H. unfold_monad. cbn.
  destruct (shard_id_from_str (GetShardId shard)) as [id|]; [| done].
  match type of H with
  | context [store_shards rest ?m1] =>
      destruct (store_shards rest m1) as [[] m2| |] eqn:Hrest; [| done | done]
  end.
  apply IH in Hrest as [ids' ->]. by eexists.
Qed.

Lemma cache_insert_extends id shard (cache : gmap N Shard) k d :
  cache !! k = Some d -> cache_insert id shard cache !! k = Some d.
Proof.
  intros Hk. unfold cache_insert. destruct (cache !! id) eqn:Hid; [done |].
  rewrite lookup_insert_ne; [done | congruence].
Qed.

Lemma cache_insert_present id shard (cache : gmap N Shard) :
  is_Some (cache_insert id shard cache !! id).
Proof.
  unfold cache_insert. destruct (cache !! id) eqn:Hid; [by rewrite Hid |].
  rewrite lookup_insert_eq. by eexists.
Qed.

Lemma cache_insert_origin id shard (cache : gmap N Shard) k d :
  cache_insert id shard cache !! k = Some d ->
  cache !! k = Some d \/ (k = id /\ d = shard).
Proof.
  unfold cache_insert. destruct (cache !! id) eqn:Hid; [by left |].
  destruct (decide (id = k)) as [->|Hne].
  - rewrite lookup_insert_eq. intros [= <-]. by right.
  - rewrite lookup_insert_ne by done. by left.
Qed.

Lemma cache_shards_inv shards : forall m m',
  cache_shards shards m = Ret tt m' ->
  exists cache,
    m' = set_shard_id_to_shard_cache_ cache m
    /\ (forall k d, shard_id_to_shard_cache_ m !! k = Some d -> cache !! k = Some d)
    /\ (forall shard id, shard ∈ shards ->
          shard_id_from_str (GetShardId shard) = Ok id -> is_Some (cache !! id))
    /\ (forall k d, cache !! k = Some d ->
          shard_id_to_shard_cache_ m !! k = Some d
          \/ (d ∈ shards /\ shard_id_from_str (GetShardId d) = Ok k)).
Proof.
  induction shards as [|shard rest IH]; intros m m' H.
  - injection H as <-. exists (shard_id_to_shard_cache_ m).
    split; [by rewrite set_shard_id_to_shard_cache_same |].
    split; [done |]. split; [intros ? ? []%elem_of_nil | by left].
  - cbn [cache_shards] in H. unfold_monad.
    destruct (shard_id_from_str (GetShardId shard)) as [id|] eqn:Hid; [| done].
    apply IH in H as (cache & -> & Hext & Hall & Horigin).
    exists cache. split; [apply set_shard_id_to_shard_cache_twice |].
    destruct m; cbn in *. split; [| split].
    + intros k d Hk. by apply Hext, cache_insert_extends.
    + intros shard' id' [->|Hin]%elem_of_cons Hparse.
      * assert (id' = id) as -> by congruence.
        destruct (cache_insert_present id shard shard_id_to_shard_cache_0) as [d Hd].
        exists d. by apply Hext.
      * by eapply Hall.
    + intros k d Hk. apply Horigin in Hk as [Hk|[Hin Hparse]].
      * apply cache_insert_origin in Hk as [Hk|[-> ->]]; [by left |].
        right. split; [apply elem_of_cons; by left | done].
      * right. split; [apply elem_of_cons; by right | done].
Qed.

Lemma cache_shards_ok shards : forall ids m,
  shard_ids shards = Ok ids -> exists m', cache_shards shards m = Ret tt m'.
Proof.
  induction shards as [|shard rest IH]; intros ids m Hids; [by eexists |].
  apply shard_ids_cons_inv in Hids as (id & ids' & -> & Hid & Hrest).
  cbn [cache_shards]. unfold_monad. rewrite Hid. by eapply IH.
Qed.

Lemma fill_heap_ok shards : forall ids q,
  shard_ids shards = Ok ids -> exists q', fill_heap shards q = Ok q'.
Proof.
  induction shards as [|shard rest IH]; intros ids q Hids; [by eexists |].
  apply shard_ids_cons_inv in Hids as (id & ids' & -> & Hid & Hrest).
  cbn [fill_heap]. rewrite Hid. cbn. by eapply IH.
Qed.

Lemma fill_heap_inv shards : forall q q',
  fill_heap shards q = Ok q' -> exists ids, shard_ids shards = Ok ids.
Proof.
  induction shards as [|shard rest IH]; intros q q' H; [by exists [] |].
  cbn in *. destruct (shard_id_from_str (GetShardId shard)) as [id|]; [| done].
  cbn in *. apply IH in H as [ids' ->]. by eexists.
Qed.

(** [build_minimal_disjoint_hashranges] returns whenever the ids parse; it
    touches the index, the cache and the cleanup flag only. *)
Lemma build_minimal_disjoint_hashranges_inv m m' :
  build_minimal_disjoint_hashranges m = Ret tt m' ->
  exists index cache flag,
    m' = set_shard_id_to_shard_cache_ cache
           (set_shard_cache_needs_cleanup_ flag
              (set_end_hash_key_to_shard_id_ index m))
    /\ (forall k d, shard_id_to_shard_cache_ m !! k = Some d -> cache !! k = Some d)
    /\ (forall shard id, shard ∈ open_shards_ m ->
          shard_id_from_str (GetShardId shard) = Ok id -> is_Some (cache !! id))
    /\ (forall k d, cache !! k = Some d ->
          shard_id_to_shard_cache_ m !! k = Some d
          \/ (d ∈ open_shards_ m /\ shard_id_from_str (GetShardId d) = Ok k)).
Proof.
  unfold build_minimal_disjoint_hashranges. unfold_monad.
  destruct (open_shards_ m) as [|s0 rest] eqn:Hopen.
  - intros [= <-].
    exists (end_hash_key_to_shard_id_ m), (shard_id_to_shard_cache_ m),
      (shard_cache_needs_cleanup_ m).
    split; [by destruct m |]. split; [done |].
    split; [intros ? ? []%elem_of_nil | by left].
  - destruct (fill_heap (s0 :: rest) []) as [q|]; [| done].
    destruct (drain_heap _ _ _ _) as [index|]; [| done].
    intros H. apply cache_shards_inv in H as (cache & -> & Hext & Hall & Horigin).
    exists (rev index), cache, true. split; [by destruct m |].
    split; [| split; [done |]].
    + intros k d Hk. apply Hext. by destruct m.
    + intros k d Hk. apply Horigin in Hk as [Hk|Hk]; [left | by right].
      by destruct m.
Qed.

Lemma build_minimal_disjoint_hashranges_returns m ids :
  shard_ids (open_shards_ m) = Ok ids ->
  exists m', build_minimal_disjoint_hashranges m = Ret tt m'.
Proof.
  intros Hids. unfold build_minimal_disjoint_hashranges. unfold_monad.
  destruct (open_shards_ m) as [|s0 rest] eqn:Hopen; [by eexists |].
  destruct (fill_heap_ok _ ids [] Hids) as [q Hq]. rewrite Hq.
  pose proof (fill_heap_range_ok _ _ _ (Forall_nil_2 _) Hq) as [Hok _].
  destruct (drain_heap_enough_fuel q (end_hash_key_to_shard_id_ m) Hok) as [index ->].
  eapply cache_shards_ok. exact Hids.
Qed.

Lemma update_eq m :
  update m =
    if State_eqb (state_ m) UPDATING then Ret tt m
    else Ret tt
      (set_kinesis_client_ (kinesis_client_ m ++ [first_page_request m])
         (set_executor_ (match scheduled_callback_ m with
                         | Some h => <[h := Done]> (executor_ m)
                         | None => executor_ m
                         end)
            (set_open_shard_ids_ ∅
               (set_open_shards_ []
                  (set_end_hash_key_to_shard_id_ [] (set_state_ UPDATING m)))))).
Proof.
  unfold update, clear_all_stored_shards, list_shards, first_page_request.
  unfold_monad. destruct (State_eqb (state_ m) UPDATING); [done |].
  destruct m as [? ? ? ? ? ? ? ? ? ? ? ? ? ? ? [h|]]; reflexivity.
Qed.

Lemma update_fail_eq code msg m :
  update_fail code msg m =
    Ret tt
      (set_backoff_ (Z.min (Z.quot (backoff_ m * 3) 2) (max_backoff_ m))
         (match scheduled_callback_ m with
          | None =>
              set_scheduled_callback_ (Some (length (executor_ m)))
                (set_executor_ (executor_ m ++ [Pending (backoff_ m)])
                   (set_state_ INVALID m))
          | Some h =>
              set_executor_ (<[h := Pending (backoff_ m)]> (executor_ m))
                (set_state_ INVALID m)
          end)).
Proof.
  unfold update_fail. unfold_monad.
  destruct m as [? ? ? ? ? ? ? ? ? ? ? ? ? ? ? [h|]]; reflexivity.
Qed.

Lemma string_empty_false token : token <> EmptyString -> string_empty token = false.
Proof. by destruct token. Qed.

(** A page with a continuation token. *)
Lemma list_shards_callback_next_page now shards token ids m :
  token <> EmptyString ->
  shard_ids shards = Ok ids ->
  list_shards_callback now (Success shards token) m =
    Ret tt
      (set_kinesis_client_ (kinesis_client_ m ++ [next_page_request token])
         (set_backoff_ (min_backoff_ m)
            (set_open_shard_ids_ (list_to_set ids ∪ open_shard_ids_ m)
               (set_open_shards_ (open_shards_ m ++ shards) m)))).
Proof.
  intros Htoken Hids. unfold list_shards_callback, bind at 1.
  rewrite (store_shards_ok _ _ _ Hids).
  unfold list_shards, next_page_request. unfold_monad.
  rewrite (string_empty_false _ Htoken). cbn. by destruct m.
Qed.

Lemma list_shards_callback_success_inv now shards token m m' :
  list_shards_callback now (Success shards token) m = Ret tt m' ->
  exists ids, shard_ids shards = Ok ids.
Proof.
  unfold list_shards_callback, bind at 1.
  destruct (store_shards shards m) as [[] m1| |] eqn:Hstore; [| done | done].
  intros _. by eapply store_shards_inv.
Qed.

(** The final page. *)
Lemma list_shards_callback_final_inv now shards m m' :
  list_shards_callback now (Success shards EmptyString) m = Ret tt m' ->
  exists ids index cache flag,
    shard_ids shards = Ok ids
    /\ m' = set_updated_at_ now
              (set_state_ READY
                 (set_shard_id_to_shard_cache_ cache
                    (set_shard_cache_needs_cleanup_ flag
                       (set_end_hash_key_to_shard_id_ index
                          (set_backoff_ (min_backoff_ m)
                             (set_open_shard_ids_ (list_to_set ids ∪ open_shard_ids_ m)
                                (set_open_shards_ (open_shards_ m ++ shards) m)))))))
    /\ (forall k d, shard_id_to_shard_cache_ m !! k = Some d -> cache !! k = Some d)
    /\ (forall shard id, shard ∈ open_shards_ m ++ shards ->
          shard_id_from_str (GetShardId shard) = Ok id -> is_Some (cache !! id))
    /\ (forall k d, cache !! k = Some d ->
          shard_id_to_shard_cache_ m !! k = Some d
          \/ shard_id_from_str (GetShardId d) = Ok k).
Proof.
  intros H.
  destruct (list_shards_callback_success_inv _ _ _ _ _ H) as [ids Hids].
  revert H. unfold list_shards_callback, bind at 1.
  rewrite (store_shards_ok _ _ _ Hids). unfold_monad. cbn [string_empty negb].
  match goal with
  | |- context [build_minimal_disjoint_hashranges ?m2] =>
      destruct (build_minimal_disjoint_hashranges m2) as [[] m3| |] eqn:Hbuild;
        [| done | done]
  end.
  intros [= <-].
  apply build_minimal_disjoint_hashranges_inv in Hbuild
    as (index & cache & flag & -> & Hext & Hall & Horigin).
  exists ids, index, cache, flag. split; [done |].
  split; [done |]. split; [| split].
  - intros k d Hk. apply Hext. by destruct m.
  - intros shard id Hin. apply Hall. by destruct m.
  - intros k d Hk. apply Horigin in Hk as [Hk|[_ Hk]]; [left | by right].
    by destruct m.
Qed.

(** The final page, as a call of the reconciler on the staged object. *)
Lemma list_shards_callback_final_build now shards m m' :
  list_shards_callback now (Success shards EmptyString) m = Ret tt m' ->
  exists ids m3,
    shard_ids shards = Ok ids
    /\ build_minimal_disjoint_hashranges (staged shards ids m) = Ret tt m3
    /\ m' = set_updated_at_ now (set_state_ READY m3).
Proof.
  intros H.
  destruct (list_shards_callback_success_inv _ _ _ _ _ H) as [ids Hids].
  exists ids. revert H. unfold list_shards_callback, bind at 1.
  rewrite (store_shards_ok _ _ _ Hids). unfold_monad. cbn [string_empty negb].
  match goal with
  | |- context [build_minimal_disjoint_hashranges ?m2] =>
      replace m2 with (staged shards ids m) by (by destruct m)
  end.
  destruct (build_minimal_disjoint_hashranges (staged shards ids m)) as [[] m3| |];
    [| done | done].
  intros [= <-]. by exists m3.
Qed.

Lemma shard_ids_app l1 l2 ids1 ids2 :
  shard_ids l1 = Ok ids1 -> shard_ids l2 = Ok ids2 ->
  shard_ids (l1 ++ l2) = Ok (ids1 ++ ids2).
Proof.
  revert ids1. induction l1 as [|s l1 IH]; intros ids1 H1 H2.
  - by injection H1 as <-.
  - apply shard_ids_cons_inv in H1 as (id & ids' & -> & Hid & Hrest).
    cbn. rewrite Hid. cbn. by rewrite (IH _ Hrest H2).
Qed.

Lemma list_shards_callback_final_returns now shards m ids0 ids :
  shard_ids (open_shards_ m) = Ok ids0 ->
  shard_ids shards = Ok ids ->
  exists m', list_shards_callback now (Success shards EmptyString) m = Ret tt m'.
Proof.
  intros H0 Hids. unfold list_shards_callback, bind at 1.
  rewrite (store_shards_ok _ _ _ Hids). unfold_monad. cbn [string_empty negb].
  match goal with
  | |- context [build_minimal_disjoint_hashranges ?m2] =>
      destruct (build_minimal_disjoint_hashranges_returns m2 (ids0 ++ ids)) as [m3 ->]
  end; [| by eexists].
  destruct m; cbn in *. by apply shard_ids_app.
Qed.

Lemma invalidate_eq seen_at predicted_shard m :
  invalidate seen_at predicted_shard m =
    if (updated_at_ m <? seen_at) && State_eqb (state_ m) READY
       && match predicted_shard with
          | None => true
          | Some p => bool_decide (p ∈ open_shard_ids_ m)
          end
    then update m else Ret tt m.
Proof.
  unfold invalidate. unfold_monad.
  destruct (_ && _); [| done]. cbn. by destruct predicted_shard as [p|]; [destruct (bool_decide _) |].
Qed.

Lemma cleanup_eq now m :
  cleanup now m =
    if (updated_at_ m + closed_shard_ttl_ m <? now) && State_eqb (state_ m) READY
       && shard_cache_needs_cleanup_ m
    then Ret tt
      (set_shard_cache_needs_cleanup_ false
         (set_shard_id_to_shard_cache_
            (filter (fun kv => kv.1 ∈ open_shard_ids_ m) (shard_id_to_shard_cache_ m)) m))
    else Ret tt m.
Proof.
  unfold cleanup. unfold_monad.
  destruct (_ && _); [| done]. cbn. by destruct (shard_cache_needs_cleanup_ m).
Qed.

(** ** The invariants of the refresh engine *)

(** Presents a hypothesis about an unfolded completion as one about
    [list_shards_callback]. *)
Ltac fold_callback H now shards token :=
  lazymatch type of H with
  | _ ?m0 = Ret tt ?m' =>
      change (list_shards_callback now (Success shards token) m0 = Ret tt m') in H
  end.

Lemma construct_eq stream stream_arn minb maxb ttl flag :
  construct stream stream_arn minb maxb ttl flag =
    Ret tt
      {| executor_ := [];
         kinesis_client_ :=
           [ {| MaxResults := 1000; NextToken := None; StreamName := Some stream;
                StreamARN := if negb (string_empty stream_arn)
                             then Some stream_arn else None;
                ShardFilter := Some AT_LATEST |} ];
         stream_ := stream; stream_arn_ := stream_arn;
         state_ := UPDATING;
         end_hash_key_to_shard_id_ := [];
         open_shards_ := [];
         open_shard_ids_ := ∅;
         shard_id_to_shard_cache_ := ∅;
         shard_cache_needs_cleanup_ := flag;
         updated_at_ := 0;
         min_backoff_ := minb;
         max_backoff_ := maxb;
         backoff_ := minb;
         closed_shard_ttl_ := ttl;
         scheduled_callback_ := None |}.
Proof. unfold construct. by rewrite update_eq. Qed.

Lemma construct_engine_invariant stream stream_arn minb maxb ttl flag m0 :
  construct stream stream_arn minb maxb ttl flag = Ret tt m0 ->
  engine_invariant m0.
Proof.
  rewrite construct_eq. intros [= <-].
  unfold engine_invariant. cbn. repeat split. intros k d Hk.
  by rewrite lookup_empty in Hk.
Qed.

Lemma outstanding_request st (r : ListShardsRequest) rest :
  length (r :: rest) = (if State_eqb st UPDATING then 1 else 0)%nat ->
  st = UPDATING /\ rest = [].
Proof.
  intros Hk. destruct st; cbn in Hk; try lia.
  split; [done |]. destruct rest; [done | cbn in Hk; lia].
Qed.

Lemma handle_engine_invariant ev m m' :
  engine_invariant m ->
  handle ev m = Some (Ret tt m') ->
  engine_invariant m'.
Proof.
  intros (Hk & Hs & Hc) H.
  destruct ev as [now [code msg|shards token] | h | seen pred | now]; cbn [handle] in H.
  - destruct (kinesis_client_ m) as [|r rest] eqn:Hkin; [done |].
    destruct (outstanding_request _ _ _ Hk) as [Hst ->].
    injection H as H. unfold list_shards_callback in H.
    rewrite update_fail_eq in H. injection H as <-.
    destruct m as [ex kin ? ? st ? ? ? ? ? ? mn mx bo ? [h|]];
      unfold engine_invariant; proj_simpl; subst.
    + destruct Hs as [-> Hlen]. by rewrite length_insert.
    + done.
  - destruct (kinesis_client_ m) as [|r rest] eqn:Hkin; [done |].
    destruct (outstanding_request _ _ _ Hk) as [Hst ->].
    injection H as H.
    fold_callback H now shards token.
    destruct token as [|c token].
    +       apply list_shards_callback_final_inv in H
        as (ids & index & cache & flag & _ & -> & _ & _ & Horigin).
      destruct m; unfold engine_invariant; proj_simpl; subst.
      repeat split; try done.
      intros k d Hk'. apply Horigin in Hk' as [Hk'|Hk']; [by eapply Hc | done].
    + destruct (list_shards_callback_success_inv _ _ _ _ _ H) as [ids Hids].
      rewrite (list_shards_callback_next_page _ _ _ ids) in H;
        [| done | done].
      injection H as <-.
      destruct m; unfold engine_invariant; proj_simpl; subst. done.
  - destruct (executor_ m !! h) as [[d|]|] eqn:Hh; try done.
    injection H as H. rewrite update_eq in H.
    destruct m as [ex kin ? ? st ? ? ? ? ? ? mn mx bo ? [h'|]];
      unfold engine_invariant; proj_simpl; subst.
    + destruct Hs as [-> Hlen].
      destruct st; cbn in *; injection H as <-; cbn;
        rewrite ?length_app, ?length_insert, ?Hk; cbn; done.
    + subst. done.
  - injection H as H. rewrite invalidate_eq in H.
    destruct (_ && _ && _) eqn:Hcond.
    + apply andb_true_iff in Hcond as [[_ Hready]%andb_true_iff _].
      rewrite update_eq in H.
      destruct m as [ex kin ? ? st ? ? ? ? ? ? mn mx bo ? [h'|]];
        unfold engine_invariant; proj_simpl; subst;
        destruct st; try done; cbn in *; injection H as <-; cbn.
      * destruct Hs as [-> Hlen].
        rewrite ?length_app, ?length_insert, ?Hk; cbn; done.
      * rewrite ?length_app, ?Hk. cbn. done.
    + injection H as <-. done.
  - injection H as H. rewrite cleanup_eq in H.
    destruct (_ && _ && _); injection H as <-; [| done].
    destruct m; unfold engine_invariant; proj_simpl; subst.
    repeat split; try done.
    intros k d [Hk' _]%map_lookup_filter_Some. by eapply Hc.
Qed.

Lemma run_engine_invariant evs : forall m m',
  engine_invariant m -> run evs m = Some m' -> engine_invariant m'.
Proof.
  induction evs as [|ev evs IH]; intros m m' Hinv H; cbn in H.
  - by injection H as <-.
  - destruct (handle ev m) as [[[] m1| |]|] eqn:Hev; try done.
    eapply IH; [| done]. by eapply handle_engine_invariant.
Qed.

Lemma reachable_engine_invariant minb maxb m :
  reachable minb maxb m -> engine_invariant m.
Proof.
  intros (stream & arn & ttl & flag & m0 & evs & Hc & Hrun).
  eapply run_engine_invariant; [| done]. by eapply construct_engine_invariant.
Qed.

Lemma backoff_growth_within lo hi b :
  0 <= lo <= hi -> lo <= b <= hi ->
  lo <= Z.min (Z.quot (b * 3) 2) hi <= hi.
Proof.
  intros Hb Hin. assert (b <= Z.quot (b * 3) 2).
  { apply Z.quot_le_lower_bound; lia. }
  lia.
Qed.

Lemma handle_backoff_invariant minb maxb ev m m' :
  0 <= minb <= maxb ->
  backoff_invariant minb maxb m ->
  handle ev m = Some (Ret tt m') ->
  backoff_invariant minb maxb m'.
Proof.
  intros Hb (Hmin & Hmax & Hbo & Hex) H.
  destruct ev as [now [code msg|shards token] | h | seen pred | now]; cbn [handle] in H.
  - destruct (kinesis_client_ m) as [|r rest] eqn:Hkin; [done |].
    injection H as H. unfold list_shards_callback in H.
    rewrite update_fail_eq in H. injection H as <-.
    pose proof (backoff_growth_within _ _ _ Hb Hbo) as Hgrow.
    destruct m as [ex kin ? ? st ? ? ? ? ? ? mn mx bo ? [h|]];
      unfold backoff_invariant; proj_simpl; subst;
      repeat split; try done; try lia.
    + apply Forall_insert; [done | cbn; lia].
    + apply Forall_app. split; [done |]. constructor; [cbn; lia | done].
  - destruct (kinesis_client_ m) as [|r rest] eqn:Hkin; [done |].
    injection H as H.
    fold_callback H now shards token.
    destruct token as [|c token].
    +       apply list_shards_callback_final_inv in H
        as (ids & index & cache & flag & _ & -> & _).
      destruct m; unfold backoff_invariant; proj_simpl; subst.
      repeat split; try done; lia.
    + destruct (list_shards_callback_success_inv _ _ _ _ _ H) as [ids Hids].
      rewrite (list_shards_callback_next_page _ _ _ ids) in H;
        [| done | done].
      injection H as <-.
      destruct m; unfold backoff_invariant; proj_simpl; subst.
      repeat split; try done; lia.
  - destruct (executor_ m !! h) as [[d|]|] eqn:Hh; try done.
    injection H as H. rewrite update_eq in H.
    destruct m as [ex kin ? ? st ? ? ? ? ? ? mn mx bo ? [h'|]];
      unfold backoff_invariant; proj_simpl; subst;
      destruct st; cbn in *; injection H as <-; cbn;
      repeat split; try done; try lia;
      repeat (apply Forall_insert; [| done]); done.
  - injection H as H. rewrite invalidate_eq in H.
    destruct (_ && _ && _) eqn:Hcond; [| by injection H as <-].
    rewrite update_eq in H.
    destruct m as [ex kin ? ? st ? ? ? ? ? ? mn mx bo ? [h'|]];
      unfold backoff_invariant; proj_simpl; subst;
      destruct st; cbn in *; injection H as <-; cbn;
      repeat split; try done; try lia;
      repeat (apply Forall_insert; [| done]); done.
  - injection H as H. rewrite cleanup_eq in H.
    destruct (_ && _ && _); injection H as <-; [| done].
    destruct m; unfold backoff_invariant; proj_simpl; subst. done.
Qed.

Lemma run_backoff_invariant minb maxb evs : forall m m',
  0 <= minb <= maxb ->
  backoff_invariant minb maxb m ->
  run evs m = Some m' ->
  backoff_invariant minb maxb m'.
Proof.
  induction evs as [|ev evs IH]; intros m m' Hb Hinv H; cbn in H.
  - by injection H as <-.
  - destruct (handle ev m) as [[[] m1| |]|] eqn:Hev; try done.
    eapply IH; [done | | done]. by eapply handle_backoff_invariant.
Qed.

Lemma reachable_backoff_invariant minb maxb m :
  0 <= minb <= maxb -> reachable minb maxb m -> backoff_invariant minb maxb m.
Proof.
  intros Hb (stream & arn & ttl & flag & m0 & evs & Hc & Hrun).
  eapply run_backoff_invariant; [done | | done].
  rewrite construct_eq in Hc. injection Hc as <-.
  unfold backoff_invariant. cbn. repeat split; (lia || done).
Qed.

Lemma started_example_reachable evs m :
  run evs started_example = Some m -> reachable kMinBackoff kMaxBackoff m.
Proof.
  intros H. exists "stream"%string, ""%string, kClosedShardTtl, false, started_example, evs.
  split; [reflexivity | exact H].
Qed.

(** ** No re-entrant refresh *)

(** C5: while the state is UPDATING a call of [update()] returns at once and
    leaves the object as it is: the staging buffer is not cleared, the
    scheduled callback is not cancelled, no topology request is issued.
    In every reachable state exactly one request is outstanding while the
    state is UPDATING and none otherwise, so at most one pagination chain
    is in flight. *)
Theorem update_is_noop_while_updating :
  (forall m, state_ m = UPDATING -> update m = Ret tt m)
  /\ (forall minb maxb m, reachable minb maxb m ->
        length (kinesis_client_ m) = (if State_eqb (state_ m) UPDATING then 1 else 0)%nat
        /\ (length (kinesis_client_ m) <= 1)%nat).
Proof.
  split.
  - intros m Hst. rewrite update_eq, Hst. reflexivity.
  - intros minb maxb m Hreach.
    destruct (reachable_engine_invariant _ _ _ Hreach) as (Hk & _).
    split; [done |]. rewrite Hk. by destruct (State_eqb _ _); lia.
Qed.

Lemma update_is_noop_while_updating_witness :
  update started_example = Ret tt started_example
  /\ (length (kinesis_client_ started_example) <= 1)%nat.
Proof.
  destruct update_is_noop_while_updating as [Hnoop Hchain]. split.
  - apply Hnoop. reflexivity.
  - apply (Hchain kMinBackoff kMaxBackoff).
    apply (started_example_reachable []). reflexivity.
Defined.

(** ** Failed pages *)

Lemma reachable_failure_effect minb maxb m now code msg m' :
  reachable minb maxb m ->
  run [ListShardsCompleted now (Failure code msg)] m = Some m' ->
  state_ m' = INVALID
  /\ executor_ m' = [Pending (backoff_ m)]
  /\ scheduled_callback_ m' = Some 0%nat
  /\ kinesis_client_ m' = [].
Proof.
  intros Hreach Hrun.
  destruct (reachable_engine_invariant _ _ _ Hreach) as (Hk & Hs & _).
  cbn [run handle list_shards_callback] in Hrun.
  destruct (kinesis_client_ m) as [|r rest] eqn:Hkin; [done |].
  destruct (outstanding_request _ _ _ Hk) as [Hst ->].
  rewrite update_fail_eq in Hrun. injection Hrun as <-.
  destruct m as [ex kin ? ? st ? ? ? ? ? ? mn mx bo ? [h|]];
    proj_simpl; subst.
  - destruct Hs as [-> Hlen].
    destruct ex as [|cb [|? ?]]; try done.
  - done.
Qed.

Lemma run_app evs1 : forall evs2 m m1 m2,
  run evs1 m = Some m1 -> run evs2 m1 = Some m2 -> run (evs1 ++ evs2) m = Some m2.
Proof.
  induction evs1 as [|e evs1 IH]; intros evs2 m m1 m2 H1 H2.
  - by injection H1 as ->.
  - cbn in H1 |- *. destruct (handle e m) as [[[] mm| |]|]; try done.
    by eapply IH.
Qed.

Lemma reachable_run minb maxb evs m m' :
  reachable minb maxb m -> run evs m = Some m' -> reachable minb maxb m'.
Proof.
  intros (stream & arn & ttl & flag & m0 & evs0 & Hc & Hrun) H.
  exists stream, arn, ttl, flag, m0, (evs0 ++ evs).
  split; [done |]. by eapply run_app.
Qed.

(** C7: when a page request fails, [list_shards_callback] returns normally
    (nothing is thrown), the state becomes INVALID and no request is
    issued; a retry is armed on the executor at the current backoff: a new
    callback when the handle is empty, otherwise the existing callback is
    rescheduled.  In every reachable state the executor holds at most one
    callback, and after a failure it holds exactly the one armed at the
    backoff the failure found. *)
Theorem page_failure_schedules_one_retry :
  (forall now code msg m,
     exists m',
       list_shards_callback now (Failure code msg) m = Ret tt m'
       /\ state_ m' = INVALID
       /\ kinesis_client_ m' = kinesis_client_ m
       /\ match scheduled_callback_ m with
          | None =>
              executor_ m' = executor_ m ++ [Pending (backoff_ m)]
              /\ scheduled_callback_ m' = Some (length (executor_ m))
          | Some h =>
              executor_ m' = <[h := Pending (backoff_ m)]> (executor_ m)
              /\ scheduled_callback_ m' = Some h
          end)
  /\ (forall minb maxb m, reachable minb maxb m ->
        (length (executor_ m) <= 1)%nat
        /\ forall now code msg m',
             run [ListShardsCompleted now (Failure code msg)] m = Some m' ->
             state_ m' = INVALID
             /\ executor_ m' = [Pending (backoff_ m)]
             /\ scheduled_callback_ m' = Some 0%nat
             /\ kinesis_client_ m' = []).
Proof.
  split.
  - intros now code msg m. eexists. unfold list_shards_callback.
    rewrite update_fail_eq. split; [reflexivity |].
    destruct m as [? ? ? ? ? ? ? ? ? ? ? ? ? ? ? [h|]]; by cbn.
  - intros minb maxb m Hreach.
    destruct (reachable_engine_invariant _ _ _ Hreach) as (Hk & Hs & _).
    split.
    + destruct (scheduled_callback_ m) as [h|]; [destruct Hs as [_ ->]; lia |].
      rewrite Hs. cbn. lia.
    + intros now code msg m' Hrun. by eapply reachable_failure_effect.
Qed.

Lemma page_failure_schedules_one_retry_witness :
  exists m',
    run [ListShardsCompleted 5 (Failure "LimitExceededException" "slow down")]
      started_example = Some m'
    /\ state_ m' = INVALID
    /\ executor_ m' = [Pending 1000]
    /\ scheduled_callback_ m' = Some 0%nat
    /\ kinesis_client_ m' = [].
Proof.
  destruct page_failure_schedules_one_retry as [_ H].
  destruct (H kMinBackoff kMaxBackoff started_example
              (started_example_reachable [] _ eq_refl)) as [_ Hfail].
  eexists. split; [reflexivity |].
  apply (Hfail 5 "LimitExceededException"%string "slow down"%string). reflexivity.
Defined.

(** ** Backoff *)

Lemma handle_keeps_minimal_backoff ev m m' :
  is_failure ev = false ->
  backoff_ m = min_backoff_ m ->
  handle ev m = Some (Ret tt m') ->
  backoff_ m' = min_backoff_ m' /\ min_backoff_ m' = min_backoff_ m.
Proof.
  intros Hev Hb H.
  destruct ev as [now [code msg|shards token] | h | seen pred | now];
    try done; cbn [handle] in H.
  - destruct (kinesis_client_ m) as [|r rest] eqn:Hkin; [done |].
    injection H as H.
    fold_callback H now shards token.
    destruct token as [|c token].
    +       apply list_shards_callback_final_inv in H
        as (ids & index & cache & flag & _ & -> & _).
      by destruct m.
    + destruct (list_shards_callback_success_inv _ _ _ _ _ H) as [ids Hids].
      rewrite (list_shards_callback_next_page _ _ _ ids) in H;
        [| done | done].
      injection H as <-. by destruct m.
  - destruct (executor_ m !! h) as [[d|]|] eqn:Hh; try done.
    injection H as H. rewrite update_eq in H.
    destruct m as [? ? ? ? st ? ? ? ? ? ? ? ? ? ? ?]; proj_simpl.
    by destruct st; injection H as <-.
  - injection H as H. rewrite invalidate_eq in H.
    destruct (_ && _ && _); [| by injection H as <-].
    rewrite update_eq in H.
    destruct m as [? ? ? ? st ? ? ? ? ? ? ? ? ? ? ?]; proj_simpl.
    by destruct st; injection H as <-.
  - injection H as H. rewrite cleanup_eq in H.
    destruct (_ && _ && _); injection H as <-; [| done]. by destruct m.
Qed.

Lemma run_single ev m m' : run [ev] m = Some m' -> handle ev m = Some (Ret tt m').
Proof.
  cbn [run]. destruct (handle ev m) as [[[] m1| |]|]; try done.
  by intros [= ->].
Qed.

Lemma success_sets_minimal_backoff now shards token m m1 :
  handle (ListShardsCompleted now (Success shards token)) m = Some (Ret tt m1) ->
  backoff_ m1 = min_backoff_ m1 /\ min_backoff_ m1 = min_backoff_ m.
Proof.
  intros H. cbn [handle] in H.
  destruct (kinesis_client_ m) as [|r rest]; [done |]. injection H as H.
  fold_callback H now shards token.
  destruct token as [|c token].
  - apply list_shards_callback_final_inv in H
      as (ids & index & cache & flag & _ & -> & _).
    by destruct m.
  - destruct (list_shards_callback_success_inv _ _ _ _ _ H) as [ids Hids].
    rewrite (list_shards_callback_next_page _ _ _ ids) in H; [| done | done].
    injection H as <-. by destruct m.
Qed.

Lemma run_keeps_minimal_backoff evs : forall m m',
  forallb (fun ev => negb (is_failure ev)) evs = true ->
  backoff_ m = min_backoff_ m ->
  run evs m = Some m' ->
  backoff_ m' = min_backoff_ m' /\ min_backoff_ m' = min_backoff_ m.
Proof.
  induction evs as [|ev evs IH]; intros m m' Hevs Hb H; cbn in H.
  - by injection H as <-.
  - cbn in Hevs. apply andb_true_iff in Hevs as [Hev Hevs].
    apply negb_true_iff in Hev.
    destruct (handle ev m) as [[[] m1| |]|] eqn:Hh; try done.
    destruct (handle_keeps_minimal_backoff _ _ _ Hev Hb Hh) as [Hb1 Hm1].
    destruct (IH _ _ Hevs Hb1 H) as [Hb2 Hm2]. split; congruence.
Qed.

(** C4: with the default configuration three failed refresh attempts in a
    row arm the retry at 1000 ms, 1500 ms and 2250 ms; a failure replaces
    the backoff by min(backoff * 3 / 2, max_backoff) whenever the product
    fits 64 bits; in every reachable state of the default configuration
    the backoff and every armed delay lie in [min_backoff, max_backoff]
    and the product does fit; and once a page has been received
    successfully, the next failure (whatever happens in between) arms the
    retry at 1000 ms again. *)
Theorem backoff_escalation_and_reset :
  (forall stream stream_arn ttl flag now1 c1 g1 now2 c2 g2 now3 c3 g3,
     exists m0 m1 m2 m3,
       construct stream stream_arn kMinBackoff kMaxBackoff ttl flag = Ret tt m0
       /\ run [ListShardsCompleted now1 (Failure c1 g1)] m0 = Some m1
       /\ executor_ m1 = [Pending 1000]
       /\ run [TimerFired 0; ListShardsCompleted now2 (Failure c2 g2)] m1 = Some m2
       /\ executor_ m2 = [Pending 1500]
       /\ run [TimerFired 0; ListShardsCompleted now3 (Failure c3 g3)] m2 = Some m3
       /\ executor_ m3 = [Pending 2250])
  /\ (forall now code msg m m',
        - 2 ^ 63 <= backoff_ m * 3 < 2 ^ 63 ->
        list_shards_callback now (Failure code msg) m = Ret tt m' ->
        backoff_ m' = Z.min (Z.quot (backoff_ m * 3) 2) (max_backoff_ m))
  /\ (forall m, reachable kMinBackoff kMaxBackoff m ->
        kMinBackoff <= backoff_ m <= kMaxBackoff
        /\ - 2 ^ 63 <= backoff_ m * 3 < 2 ^ 63
        /\ Forall (delay_within kMinBackoff kMaxBackoff) (executor_ m))
  /\ (forall m now shards token m1 evs m2 now' code msg m3,
        reachable kMinBackoff kMaxBackoff m ->
        run [ListShardsCompleted now (Success shards token)] m = Some m1 ->
        forallb (fun ev => negb (is_failure ev)) evs = true ->
        run evs m1 = Some m2 ->
        run [ListShardsCompleted now' (Failure code msg)] m2 = Some m3 ->
        executor_ m3 = [Pending 1000]).
Proof.
  split; [| split; [| split]].
  - intros. rewrite construct_eq. do 4 eexists. split; [reflexivity |].
    split; [lazy; reflexivity |]. split; [reflexivity |].
    split; [lazy; reflexivity |]. split; [reflexivity |].
    split; [lazy; reflexivity |]. reflexivity.
  - intros now code msg m m' _. unfold list_shards_callback.
    rewrite update_fail_eq. intros [= <-].
    by destruct m as [? ? ? ? ? ? ? ? ? ? ? ? ? ? ? [h|]].
  - intros m Hreach.
    destruct (reachable_backoff_invariant kMinBackoff kMaxBackoff m
                ltac:(unfold kMinBackoff, kMaxBackoff; lia) Hreach)
      as (_ & _ & Hb & Hex).
    split; [done |]. split; [| done].
    unfold kMinBackoff, kMaxBackoff in Hb. lia.
  - intros m now shards token m1 evs m2 now' code msg m3 Hreach H1 Hevs H2 H3.
    assert (Hr2 : reachable kMinBackoff kMaxBackoff m2).
    { eapply reachable_run; [| exact H2]. by eapply reachable_run. }
    destruct (reachable_backoff_invariant kMinBackoff kMaxBackoff m
                ltac:(unfold kMinBackoff, kMaxBackoff; lia) Hreach)
      as (Hmin & _).
    pose proof (success_sets_minimal_backoff _ _ _ _ _ (run_single _ _ _ H1)) as Hb1.
    destruct Hb1 as [Hb1 Hm1].
    destruct (run_keeps_minimal_backoff _ _ _ Hevs Hb1 H2) as [Hb2 Hm2].
    destruct (reachable_failure_effect _ _ _ _ _ _ _ Hr2 H3) as (_ & -> & _).
    rewrite Hb2, Hm2, Hm1, Hmin. reflexivity.
Qed.

Lemma backoff_escalation_and_reset_witness :
  backoff_ retrying_example = 1500
  /\ - 2 ^ 63 <= backoff_ retrying_example * 3 < 2 ^ 63
  /\ backoff_ (after [ListShardsCompleted 2 (Failure "InternalFailure" "")]
                 retrying_example) = 2250
  /\ executor_
       (after [ListShardsCompleted 2 (Success [] "");
               InvalidateCalled 3 None;
               ListShardsCompleted 4 (Failure "InternalFailure" "")]
          retrying_example) = [Pending 1000].
Proof.
  destruct backoff_escalation_and_reset as (_ & Hgrow & Hbounds & Hreset).
  assert (Hreach : reachable kMinBackoff kMaxBackoff retrying_example).
  { apply (started_example_reachable
             [ListShardsCompleted 1 (Failure "InternalFailure" ""); TimerFired 0]).
    by vm_compute. }
  destruct (Hbounds retrying_example Hreach) as (_ & Hfits & _).
  split; [by vm_compute |]. split; [exact Hfits |]. split.
  { rewrite (Hgrow 2 "InternalFailure"%string ""%string
               (set_kinesis_client_ [] retrying_example)
               (after [ListShardsCompleted 2 (Failure "InternalFailure" "")]
                  retrying_example)
               Hfits); by vm_compute. }
  apply (Hreset retrying_example 2 [] ""%string
           (after [ListShardsCompleted 2 (Success [] "")] retrying_example)
           [InvalidateCalled 3 None]
           (after [ListShardsCompleted 2 (Success [] ""); InvalidateCalled 3 None]
              retrying_example)
           4 "InternalFailure"%string ""%string).
  - apply (started_example_reachable
             [ListShardsCompleted 1 (Failure "InternalFailure" ""); TimerFired 0]).
    by vm_compute.
  - by vm_compute.
  - reflexivity.
  - by vm_compute.
  - by vm_compute.
Defined.

(** ** Invalidation *)

Lemma bind_ret_inv {A B} (c : M A) (k : A -> M B) m b m' :
  bind c k m = Ret b m' -> exists a m1, c m = Ret a m1 /\ k a m1 = Ret b m'.
Proof.
  unfold bind. destruct (c m) as [a m1| |]; [| done | done].
  intros H. by exists a, m1.
Qed.

Lemma shard_ids_elem shards : forall ids id,
  shard_ids shards = Ok ids ->
  id ∈ ids <-> exists shard, shard ∈ shards /\ shard_id_from_str (GetShardId shard) = Ok id.
Proof.
  induction shards as [|s rest IH]; intros ids id Hids.
  - injection Hids as <-. split; [intros []%elem_of_nil |].
    intros (shard & []%elem_of_nil & _).
  - apply shard_ids_cons_inv in Hids as (i0 & ids' & -> & Hid & Hrest).
    rewrite elem_of_cons, (IH _ id Hrest). split.
    + intros [->|(shard & Hin & Hp)].
      * exists s. split; [apply elem_of_cons; by left | done].
      * exists shard. split; [apply elem_of_cons; by right | done].
    + intros (shard & [->|Hin]%elem_of_cons & Hp).
      * left. congruence.
      * right. by exists shard.
Qed.

Lemma shard_ids_app_inv l1 : forall l2 ids,
  shard_ids (l1 ++ l2) = Ok ids ->
  exists ids1 ids2, shard_ids l1 = Ok ids1 /\ shard_ids l2 = Ok ids2 /\ ids = ids1 ++ ids2.
Proof.
  induction l1 as [|s l1 IH]; intros l2 ids H.
  - by exists [], ids.
  - cbn in H. apply shard_ids_cons_inv in H as (i0 & ids' & -> & Hid & Hrest).
    apply IH in Hrest as (ids1 & ids2 & H1 & H2 & ->).
    exists (i0 :: ids1), ids2. cbn. by rewrite Hid, H1.
Qed.

Lemma deliver_pages_inv pages : forall m m',
  Forall (fun page => page.2 <> EmptyString) pages ->
  deliver_pages pages m = Ret tt m' ->
  exists ids,
    shard_ids (concat pages.*1) = Ok ids
    /\ open_shard_ids_ m' = list_to_set ids ∪ open_shard_ids_ m
    /\ open_shards_ m' = open_shards_ m ++ concat pages.*1
    /\ state_ m' = state_ m.
Proof.
  induction pages as [|[shards token] pages IH]; intros m m' Htok H.
  - injection H as <-. exists []. cbn. rewrite app_nil_r.
    repeat split; try done. set_solver.
  - apply Forall_cons in Htok as [Ht Htok]. cbn in Ht.
    cbn [deliver_pages] in H.
    apply bind_ret_inv in H as ([] & m1 & H1 & H2).
    destruct (list_shards_callback_success_inv _ _ _ _ _ H1) as [ids1 Hids1].
    rewrite (list_shards_callback_next_page _ _ _ ids1 _ Ht Hids1) in H1.
    injection H1 as <-.
    apply IH in H2 as (ids2 & Hids2 & Hset & Hopen & Hst); [| done].
    exists (ids1 ++ ids2). cbn [fmap list_fmap concat fst].
    split; [by apply shard_ids_app |].
    rewrite Hset, Hopen, Hst. destruct m; cbn.
    repeat split; [set_solver | by rewrite app_assoc].
Qed.

(** C3: [invalidate(seen_at, predicted_shard)] refreshes exactly when
    [seen_at > updated_at_], the state is READY and the predicted shard is
    absent or in the open set: then it is [update()], which moves to
    UPDATING and issues the first-page request; otherwise the object is
    left as it is (state, index and backoff included).  In READY the open
    set consists of the ids of the shards the pages of the last successful
    refresh delivered.  After a successful refresh at time T,
    [invalidate(T - 1, Some x)] changes nothing. *)
Theorem invalidate_refreshes_iff :
  (forall seen_at predicted_shard m,
     (invalidation_condition seen_at predicted_shard m ->
        invalidate seen_at predicted_shard m = update m
        /\ exists m', update m = Ret tt m'
             /\ state_ m' = UPDATING
             /\ kinesis_client_ m' = kinesis_client_ m ++ [first_page_request m])
     /\ (~ invalidation_condition seen_at predicted_shard m ->
        invalidate seen_at predicted_shard m = Ret tt m))
  /\ (forall m pages final now m',
        state_ m <> UPDATING ->
        Forall (fun page => page.2 <> EmptyString) pages ->
        (update;; deliver_pages pages;;
         list_shards_callback now (Success final EmptyString)) m = Ret tt m' ->
        state_ m' = READY
        /\ updated_at_ m' = now
        /\ forall id, id ∈ open_shard_ids_ m' <->
             exists shard, shard ∈ concat pages.*1 ++ final
                           /\ shard_id_from_str (GetShardId shard) = Ok id)
  /\ (forall T shards m m1 x,
        list_shards_callback T (Success shards EmptyString) m = Ret tt m1 ->
        invalidate (T - 1) (Some x) m1 = Ret tt m1).
Proof.
  split; [| split].
  - intros seen_at predicted_shard m. rewrite invalidate_eq. split.
    + intros (Hseen & Hready & Hpred).
      apply Z.ltb_lt in Hseen. rewrite Hseen, Hready. cbn [State_eqb andb].
      assert (Hp : match predicted_shard with
                   | Some p => bool_decide (p ∈ open_shard_ids_ m)
                   | None => true
                   end = true).
      { destruct Hpred as [->|(p & -> & Hin)]; [done | by apply bool_decide_eq_true]. }
      rewrite Hp. split; [done |].
      rewrite update_eq, Hready. cbn [State_eqb]. eexists. split; [done |].
      by destruct m.
    + intros Hcond.
      destruct (Z.ltb_spec (updated_at_ m) seen_at) as [Hseen|]; [| done].
      destruct (state_ m) eqn:Hst; try done. cbn [State_eqb andb].
      destruct predicted_shard as [p|].
      * destruct (bool_decide (p ∈ open_shard_ids_ m)) eqn:Hp; [| done].
        apply bool_decide_eq_true in Hp. exfalso. apply Hcond.
        split; [done |]. split; [done |]. right. by exists p.
      * exfalso. apply Hcond. split; [done |]. split; [done |]. by left.
  - intros m pages final now m' Hst Htok H.
    apply bind_ret_inv in H as ([] & m1 & Hupd & H).
    apply bind_ret_inv in H as ([] & m2 & Hpages & Hfinal).
    rewrite update_eq in Hupd.
    assert (Hm1 : open_shard_ids_ m1 = ∅ /\ open_shards_ m1 = []).
    { destruct m as [? ? ? ? st ? ? ? ? ? ? ? ? ? ? ?]; cbn in *.
      destruct st; try done; by injection Hupd as <-. }
    destruct Hm1 as [Hset1 Hopen1].
    apply deliver_pages_inv in Hpages as (ids & Hids & Hset2 & Hopen2 & _); [| done].
    apply list_shards_callback_final_inv in Hfinal
      as (idsf & index & cache & flag & Hidsf & -> & _).
    split; [done |]. split; [done |].
    intros id.
    proj_simpl. rewrite Hset2, Hset1.
    pose proof (shard_ids_app _ _ _ _ Hids Hidsf) as Hall.
    rewrite <- (shard_ids_elem _ _ id Hall). set_solver.
  - intros T shards m m1 x H.
    apply list_shards_callback_final_inv in H
      as (ids & index & cache & flag & _ & -> & _).
    rewrite invalidate_eq.
    replace (updated_at_ _ <? T - 1) with false; [done |].
    symmetry. apply Z.ltb_ge. destruct m; cbn. lia.
Qed.

Lemma invalidate_refreshes_iff_witness :
  (exists m', invalidate 101 (Some 3%N) ready_example = Ret tt m'
              /\ state_ m' = UPDATING)
  /\ invalidate 101 (Some 2%N) ready_example = Ret tt ready_example
  /\ invalidate 99 (Some 3%N) ready_example = Ret tt ready_example.
Proof.
  destruct invalidate_refreshes_iff as (Hiff & _ & Hstale).
  split; [| split].
  - destruct (Hiff 101 (Some 3%N) ready_example) as [Hyes _].
    destruct Hyes as [-> (m' & -> & Hst & _)].
    + split; [by vm_compute |]. split; [reflexivity |].
      right. exists 3%N. split; [reflexivity |].
      apply (bool_decide_unpack _). by vm_compute.
    + by exists m'.
  - destruct (Hiff 101 (Some 2%N) ready_example) as [_ Hno]. apply Hno.
    intros (_ & _ & [Hnone|(p & [= <-] & Hin)]); [done |].
    revert Hin. apply (bool_decide_unpack _). by vm_compute.
  - apply (Hstale 100 lineage_example
             (set_kinesis_client_ [] started_example) ready_example 3%N).
    by vm_compute.
Defined.

(** ** Pages with a continuation token *)

(** C6, refuted as stated: a page with a continuation token resets the
    backoff.  The object that is retrying after one failure has a backoff
    of 1500 ms; an empty page with a token puts it back to 1000 ms. *)
Lemma non_final_page_resets_backoff : ~ non_final_page_keeps_backoff.
Proof.
  intros H.
  destruct (list_shards_callback 7 (Success [] "token") retrying_example)
    as [[] m'| |] eqn:E.
  - destruct (H 7 [] "token"%string retrying_example m' ltac:(done) E) as [Hb _].
    vm_compute in E. injection E as <-.
    vm_compute in Hb. discriminate Hb.
  - vm_compute in E. discriminate E.
  - vm_compute in E. discriminate E.
Qed.

(** C6, amended: a page with a continuation token whose shard ids parse
    appends its shards to the staging buffer and their ids to the open
    set, resets the backoff to [min_backoff_] and issues the request for
    the next page; nothing else changes: the state, the lookup index,
    [updated_at_], the cache, the cleanup flag and the executor are as
    before.  The callback returns normally only if the ids parse. *)
Theorem non_final_page_frame :
  (forall now shards token ids m,
     token <> EmptyString ->
     shard_ids shards = Ok ids ->
     exists m',
       list_shards_callback now (Success shards token) m = Ret tt m'
       /\ m' = set_kinesis_client_ (kinesis_client_ m ++ [next_page_request token])
                 (set_backoff_ (min_backoff_ m)
                    (set_open_shard_ids_ (list_to_set ids ∪ open_shard_ids_ m)
                       (set_open_shards_ (open_shards_ m ++ shards) m)))
       /\ backoff_ m' = min_backoff_ m
       /\ state_ m' = state_ m
       /\ end_hash_key_to_shard_id_ m' = end_hash_key_to_shard_id_ m
       /\ updated_at_ m' = updated_at_ m
       /\ shard_id_to_shard_cache_ m' = shard_id_to_shard_cache_ m
       /\ shard_cache_needs_cleanup_ m' = shard_cache_needs_cleanup_ m
       /\ executor_ m' = executor_ m
       /\ scheduled_callback_ m' = scheduled_callback_ m)
  /\ (forall now shards token m m',
        list_shards_callback now (Success shards token) m = Ret tt m' ->
        exists ids, shard_ids shards = Ok ids).
Proof.
  split.
  - intros now shards token ids m Htoken Hids. eexists.
    split; [by apply list_shards_callback_next_page |].
    split; [reflexivity |]. by destruct m.
  - apply list_shards_callback_success_inv.
Qed.

Lemma non_final_page_frame_witness :
  exists m',
    list_shards_callback 7 (Success lineage_example "token") retrying_example = Ret tt m'
    /\ length (open_shards_ m') = 7%nat
    /\ backoff_ m' = 1000
    /\ state_ m' = UPDATING
    /\ end_hash_key_to_shard_id_ m' = [].
Proof.
  destruct non_final_page_frame as [Hframe _].
  destruct (Hframe 7 lineage_example "token"%string [0; 1; 3; 4; 5; 6; 7]%N
              retrying_example)
    as (m' & Hcall & Heq & Hb & Hst & Hidx & _).
  - discriminate.
  - by vm_compute.
  - exists m'. split; [exact Hcall |]. rewrite Hb, Hst, Hidx, Heq.
    repeat split.
Defined.

(** ** The janitor *)

Lemma handle_retention T ttl s d ev m m' :
  match event_time ev with
  | Some t => T <= t <= T + ttl
  | None => True
  end ->
  get_shard s m = Some d /\ T <= updated_at_ m /\ closed_shard_ttl_ m = ttl ->
  handle ev m = Some (Ret tt m') ->
  get_shard s m' = Some d /\ T <= updated_at_ m' /\ closed_shard_ttl_ m' = ttl.
Proof.
  unfold get_shard. intros Htime (Hd & Hup & Httl) H.
  destruct ev as [now [code msg|shards token] | h | seen pred | now]; cbn [handle] in H.
  - destruct (kinesis_client_ m) as [|r rest]; [done |]. injection H as H.
    unfold list_shards_callback in H. rewrite update_fail_eq in H. injection H as <-.
    by destruct m as [? ? ? ? ? ? ? ? ? ? ? ? ? ? ? [h|]].
  - destruct (kinesis_client_ m) as [|r rest]; [done |]. injection H as H.
    fold_callback H now shards token.
    destruct token as [|c token].
    + apply list_shards_callback_final_inv in H
        as (ids & index & cache & flag & _ & -> & Hext & _).
      cbn [event_time] in Htime. proj_simpl.
      split; [by apply Hext |]. split; [lia | done].
    + destruct (list_shards_callback_success_inv _ _ _ _ _ H) as [ids Hids].
      rewrite (list_shards_callback_next_page _ _ _ ids) in H; [| done | done].
      injection H as <-. done.
  - destruct (executor_ m !! h) as [[delay|]|]; try done.
    injection H as H. rewrite update_eq in H. proj_simpl.
    destruct (state_ m); injection H as <-; done.
  - injection H as H. rewrite invalidate_eq in H.
    destruct (_ && _ && _); [| by injection H as <-].
    rewrite update_eq in H.
    destruct (state_ m); injection H as <-; done.
  - injection H as H. rewrite cleanup_eq in H. cbn [event_time] in Htime.
    destruct (Z.ltb_spec (updated_at_ m + closed_shard_ttl_ m) now) as [Hlt|Hge];
      [lia |].
    by injection H as <-.
Qed.

Lemma run_retention T ttl s d evs : forall m m',
  times_within T (T + ttl) evs ->
  get_shard s m = Some d /\ T <= updated_at_ m /\ closed_shard_ttl_ m = ttl ->
  run evs m = Some m' ->
  get_shard s m' = Some d.
Proof.
  induction evs as [|ev evs IH]; intros m m' Htimes HK H; cbn [run] in H.
  - injection H as <-. by destruct HK.
  - apply Forall_cons in Htimes as [Ht Htimes].
    destruct (handle ev m) as [[[] m1| |]|] eqn:Hh; try done.
    eapply IH; [done | | done]. by eapply handle_retention.
Qed.

(** C8: a janitor pass always returns; an entry it removes was in the cache
    of an object in state READY with [updated_at_ + closed_shard_ttl_ < now],
    the cleanup flag set and the id outside the open set; every other entry
    is kept as it is.  Hence a shard that a successful refresh at time T
    delivered, on whichever of its pages, is returned by [get_shard], with
    the same descriptor, one that carries this shard id, after every run
    whose clock readings stay within [T, T + closed_shard_ttl_]; the
    shards of the refresh are those of the staging buffer, the earlier
    pages followed by the final one. *)
Theorem janitor_retention :
  (forall now m,
     exists m',
       cleanup now m = Ret tt m'
       /\ forall id d, get_shard id m = Some d ->
            get_shard id m' = Some d
            \/ (get_shard id m' = None
                /\ state_ m = READY
                /\ updated_at_ m + closed_shard_ttl_ m < now
                /\ shard_cache_needs_cleanup_ m = true
                /\ id ∉ open_shard_ids_ m))
  /\ (forall minb maxb m T shards m1 shard s evs m2,
        reachable minb maxb m ->
        run [ListShardsCompleted T (Success shards EmptyString)] m = Some m1 ->
        shard ∈ open_shards_ m1 ->
        shard_id_from_str (GetShardId shard) = Ok s ->
        times_within T (T + closed_shard_ttl_ m1) evs ->
        run evs m1 = Some m2 ->
        open_shards_ m1 = open_shards_ m ++ shards
        /\ exists d,
             get_shard s m1 = Some d
             /\ get_shard s m2 = Some d
             /\ shard_id_from_str (GetShardId d) = Ok s).
Proof.
  split.
  - intros now m. rewrite cleanup_eq.
    destruct (Z.ltb_spec (updated_at_ m + closed_shard_ttl_ m) now) as [Hlt|Hge];
      [| eexists; split; [done | by left]].
    destruct (state_ m) eqn:Hst; try (eexists; split; [done | by left]).
    destruct (shard_cache_needs_cleanup_ m) eqn:Hflag;
      [| eexists; split; [done | by left]].
    cbn [State_eqb andb]. eexists. split; [done |].
    intros id d Hd. unfold get_shard in *. proj_simpl.
    destruct (decide (id ∈ open_shard_ids_ m)) as [Hin|Hout].
    + left. by apply map_lookup_filter_Some.
    + right. split; [| done].
      apply map_lookup_filter_None. right. intros d' _ Hin'. by apply Hout.
  - intros minb maxb m T shards m1 shard s evs m2 Hreach H1 Hin Hs Htimes H2.
    pose proof (reachable_engine_invariant _ _ _ (reachable_run _ _ _ _ _ Hreach H1))
      as (_ & _ & Hkeyed).
    apply run_single in H1. cbn [handle] in H1.
    destruct (kinesis_client_ m) as [|r rest]; [done |]. injection H1 as H1.
    fold_callback H1 T shards EmptyString.
    apply list_shards_callback_final_inv in H1
      as (ids & index & cache & flag & _ & Hm1 & _ & Hall & _).
    assert (Hopen : open_shards_ m1 = open_shards_ m ++ shards).
    { rewrite Hm1. by destruct m. }
    split; [exact Hopen |].
    destruct (Hall shard s) as [d Hd]; [| done |].
    { rewrite Hopen in Hin. by destruct m. }
    assert (Hget : get_shard s m1 = Some d) by (by rewrite Hm1).
    exists d. split; [done |]. split; [| by apply Hkeyed].
    eapply (run_retention T (closed_shard_ttl_ m1)); [done | | done].
    split; [done |]. split; [| done]. rewrite Hm1. proj_simpl. lia.
Qed.

Lemma janitor_retention_witness :
  exists d,
    get_shard 7%N
      (after [ListShardsCompleted 100 (Success [mkShard "shardId-000000000008" 11 20] "")]
         staged_example) = Some d
    /\ get_shard 7%N
         (after [ListShardsCompleted 100 (Success [mkShard "shardId-000000000008" 11 20] "");
                 InvalidateCalled 101 None;
                 ListShardsCompleted 150 (Success [mkShard "shardId-000000000004" 3 5] "");
                 JanitorWoke 60100]
            staged_example) = Some d
    /\ shard_id_from_str (GetShardId d) = Ok 7%N.
Proof.
  destruct janitor_retention as [_ Hkeep].
  apply (Hkeep kMinBackoff kMaxBackoff staged_example 100
           [mkShard "shardId-000000000008" 11 20]
           (after [ListShardsCompleted 100
                     (Success [mkShard "shardId-000000000008" 11 20] "")]
              staged_example)
           (mkShard "shardId-000000000007" 3 8) 7%N
           [InvalidateCalled 101 None;
            ListShardsCompleted 150 (Success [mkShard "shardId-000000000004" 3 5] "");
            JanitorWoke 60100]).
  - apply (started_example_reachable
             [ListShardsCompleted 7 (Success lineage_example "token")]).
    by vm_compute.
  - by vm_compute.
  - apply list_elem_of_In. vm_compute. tauto.
  - by vm_compute.
  - repeat constructor; by vm_compute.
  - by vm_compute.
Defined.

(** ** The priority queue is a heap *)

Section HeapOrder.
Context {A : Type} (comp : A -> A -> bool).
Import priority_queue.

Local Abbreviation edge_ok := (edge_ok comp).
Local Abbreviation heap_ordered := (heap_ordered comp).
Local Abbreviation heap_ordered_except := (heap_ordered_except comp).

Hypothesis comp_asym : forall a b, comp a b = true -> comp b a = false.
Hypothesis comp_trans : forall a b c,
  comp a b = false -> comp b c = false -> comp a c = false.

Lemma swap_lookup (v : list A) i j x y k :
  v !! i = Some x -> v !! j = Some y ->
  swap v i j !! k =
    if decide (k = i) then Some y else if decide (k = j) then Some x else v !! k.
Proof.
  intros Hi Hj. unfold swap. rewrite Hi, Hj.
  pose proof (lookup_lt_Some _ _ _ Hi). pose proof (lookup_lt_Some _ _ _ Hj).
  destruct (decide (k = i)) as [->|Hki].
  - apply list_lookup_insert_eq. by rewrite length_insert.
  - rewrite list_lookup_insert_ne by done.
    destruct (decide (k = j)) as [->|Hkj].
    + by apply list_lookup_insert_eq.
    + by rewrite list_lookup_insert_ne.
Qed.

Lemma parent_spec i : (i - 1 = 2 * parent i \/ i - 1 = 2 * parent i + 1)%nat.
Proof.
  unfold parent. pose proof (Nat.div_mod_eq (i - 1) 2).
  pose proof (Nat.mod_upper_bound (i - 1) 2). lia.
Qed.

Lemma parent_lt i : (0 < i)%nat -> (parent i < i)%nat.
Proof. pose proof (parent_spec i). lia. Qed.

Lemma parent_children j h :
  (0 < j)%nat -> parent j = h <-> (j = 2 * h + 1 \/ j = 2 * h + 2)%nat.
Proof. pose proof (parent_spec j). lia. Qed.

Lemma push_heap_loop_ordered fuel : forall (v : list A) hole,
  (hole < fuel)%nat ->
  heap_ordered_except false v hole ->
  heap_ordered (push_heap_loop comp fuel v hole).
Proof.
  induction fuel as [|fuel IH]; intros v hole Hfuel [Hedges Hgrand]; [lia |].
  cbn [push_heap_loop]. fold (parent hole).
  destruct (v !! parent hole) as [p|] eqn:Hp; cycle 1.
  { intros i Hi c q Hc Hq. destruct (decide (i = hole)) as [->|Hne].
    - congruence.
    - by eapply Hedges. }
  destruct (v !! hole) as [x|] eqn:Hx; cycle 1.
  { intros i Hi c q Hc Hq. destruct (decide (i = hole)) as [->|Hne].
    - congruence.
    - by eapply Hedges. }
  destruct (Nat.ltb_spec 0 hole) as [Hpos|Hzero]; cbn [andb]; cycle 1.
  { intros i Hi c q Hc Hq. apply (Hedges i); try done. lia. }
  destruct (comp p x) eqn:Hpx; cycle 1.
  { intros i Hi c q Hc Hq. destruct (decide (i = hole)) as [->|Hne].
    - congruence.
    - by eapply Hedges. }
  pose proof (parent_lt hole Hpos) as Hlt.
  assert (Hxp : comp x p = false) by (by apply comp_asym).
  apply IH; [lia |]. split.
  - intros i Hi Hne _ c q.
    rewrite !(swap_lookup v hole (parent hole) x p) by done.
    destruct (decide (i = hole)) as [->|Hih].
    + (* the old hole now holds the parent's value, under [x] *)
      intros [= <-]. destruct (decide (parent hole = hole)); [lia |].
      rewrite decide_True by done. by intros [= <-].
    + destruct (decide (i = parent hole)); [done |]. intros Hc.
      destruct (decide (parent i = hole)) as [Hpi|Hpi].
      * (* a child of the old hole, now under the parent's value *)
        intros [= <-]. eapply (Hgrand Hpos i); done.
      * destruct (decide (parent i = parent hole)) as [Hpp|Hpp].
        -- (* the sibling of the old hole, now under [x] *)
           intros [= <-]. eapply comp_trans; [exact Hxp |].
           eapply (Hedges i); try done. by rewrite Hpp.
        -- intros Hq. by eapply (Hedges i).
  - intros Hppos j g c Hj Hpj.
    rewrite !(swap_lookup v hole (parent hole) x p) by done.
    pose proof (parent_lt _ Hppos) as Hlt2.
    destruct (decide (parent (parent hole) = hole)); [lia |].
    destruct (decide (parent (parent hole) = parent hole)); [lia |].
    intros Hg.
    assert (Hgp : comp g p = false).
    { eapply (Hedges (parent hole)); try done. lia. }
    destruct (decide (j = hole)) as [->|Hjh].
    + by intros [= <-].
    + pose proof (parent_lt j Hj).
      destruct (decide (j = parent hole)); [lia |]. intros Hc.
      eapply comp_trans; [exact Hgp |].
      eapply (Hedges j); try done. by rewrite Hpj.
Qed.

Lemma adjust_heap_loop_ordered fuel : forall (v : list A) hole,
  (hole < length v)%nat ->
  (length v <= hole + fuel)%nat ->
  heap_ordered_except true v hole ->
  let r := adjust_heap_loop comp fuel v hole in
  heap_ordered_except false r.1 r.2 /\ (r.2 < length v)%nat
  /\ length r.1 = length v.
Proof.
  induction fuel as [|fuel IH]; intros v hole Hhole Hfuel [Hedges Hgrand]; [lia |].
  - cbn [adjust_heap_loop].
    pose proof (Nat.div_mod_eq (length v - 1) 2) as Hd1.
    pose proof (Nat.mod_upper_bound (length v - 1) 2 ltac:(lia)) as Hm1.
    pose proof (Nat.div_mod_eq (length v - 2) 2) as Hd2.
    pose proof (Nat.mod_upper_bound (length v - 2) 2 ltac:(lia)) as Hm2.
    pose proof (Nat.div_mod_eq (length v) 2) as Hd0.
    pose proof (Nat.mod_upper_bound (length v) 2 ltac:(lia)) as Hm0.
    destruct (Nat.ltb_spec hole ((length v - 1) / 2)) as [Hboth|Hnot].
    + (* both children exist *)
      destruct (lookup_lt_is_Some_2 v (2 * (hole + 1))) as [r Hr]; [lia |].
      destruct (lookup_lt_is_Some_2 v (2 * (hole + 1) - 1)) as [l Hl]; [lia |].
      destruct (lookup_lt_is_Some_2 v hole) as [x Hx]; [lia |].
      rewrite Hr, Hl.
      set (child := if comp r l then (2 * (hole + 1) - 1)%nat else (2 * (hole + 1))%nat).
      set (other := if comp r l then (2 * (hole + 1))%nat else (2 * (hole + 1) - 1)%nat).
      assert (Hchild : exists y z, v !! child = Some y /\ v !! other = Some z
                /\ comp y z = false
                /\ (child = 2 * hole + 1 \/ child = 2 * hole + 2)%nat
                /\ (other = 2 * hole + 1 \/ other = 2 * hole + 2)%nat
                /\ child <> other).
      { unfold child, other. destruct (comp r l) eqn:Hrl.
        - exists l, r. repeat split; try done; try lia. by apply comp_asym.
        - exists r, l. repeat split; try done; lia. }
      destruct Hchild as (y & z & Hy & Hz & Hyz & Hc1 & Hc2 & Hco).
      clearbody child other.
      pose proof (IH (swap v hole child) child) as IH'.
      rewrite swap_length in IH'. apply IH'; [lia | lia |]. split.
      * intros i Hi Hne Hdown c q.
        rewrite !(swap_lookup v hole child x y) by done.
        destruct (decide (i = hole)) as [->|Hih].
        -- (* the promoted child, under the old grandparent *)
           intros [= <-]. pose proof (parent_lt hole Hi) as Hplt.
           destruct (decide (parent hole = hole)); [lia |].
           destruct (decide (parent hole = child)); [lia |].
           intros Hq. eapply (Hgrand Hi child); try done; [lia |].
           apply parent_children; lia.
        -- destruct (decide (i = child)); [done |]. intros Hc.
           destruct (decide (parent i = hole)) as [Hpi|Hpi].
           ++ (* the other child, under the promoted one *)
              intros [= <-]. apply parent_children in Hpi; [| done].
              assert (i = other) as -> by lia. congruence.
           ++ destruct (decide (parent i = child)) as [Hpc|Hpc].
              ** exfalso. by apply Hdown.
              ** intros Hq. eapply (Hedges i); done.
      * intros Hcpos j g c Hj Hpj.
        rewrite !(swap_lookup v hole child x y) by done.
        assert (Hpc : parent child = hole) by (apply parent_children; lia).
        rewrite Hpc, decide_True by done. intros [= <-].
        destruct (decide (j = hole)) as [->|Hjh]; [pose proof (parent_spec hole); lia |].
        destruct (decide (j = child)) as [->|Hjc]; [pose proof (parent_spec hole); lia |].
        intros Hc. eapply (Hedges j); try done; [| by rewrite Hpj].
        intros _. rewrite Hpj. lia.
    + destruct (Nat.eqb_spec (length v mod 2) 0) as [Heven|Hodd]; cbn [andb].
      * destruct (Nat.eqb_spec hole ((length v - 2) / 2)) as [Hlast|Hleaf].
        -- (* a single left child *)
           destruct (lookup_lt_is_Some_2 v (2 * (hole + 1) - 1)) as [l Hl]; [lia |].
           destruct (lookup_lt_is_Some_2 v hole) as [x Hx]; [lia |].
           cbn [fst snd]. rewrite swap_length. split; [| lia]. split.
           ++ intros i Hi Hne _ c q.
              rewrite !(swap_lookup v hole (2 * (hole + 1) - 1) x l) by done.
              destruct (decide (i = hole)) as [->|Hih].
              ** intros [= <-]. pose proof (parent_lt hole Hi) as Hplt.
                 destruct (decide (parent hole = hole)); [lia |].
                 destruct (decide (parent hole = _)); [lia |].
                 intros Hq. eapply (Hgrand Hi (2 * (hole + 1) - 1)%nat); try done; [lia |].
                 apply parent_children; lia.
              ** destruct (decide (i = _)); [done |]. intros Hc.
                 destruct (decide (parent i = hole)) as [Hpi|Hpi].
                 { apply lookup_lt_Some in Hc. apply parent_children in Hpi; lia. }
                 destruct (decide (parent i = _)) as [Hpc|Hpc].
                 { apply lookup_lt_Some in Hc. apply parent_children in Hpc; lia. }
                 intros Hq. eapply (Hedges i); done.
           ++ intros Hcpos j g c Hj Hpj.
              rewrite !(swap_lookup v hole (2 * (hole + 1) - 1) x l) by done.
              intros _ Hc. pose proof (parent_lt j Hj) as Hjlt.
              destruct (decide (j = hole)); [lia |].
              destruct (decide (j = _)); [lia |].
              apply lookup_lt_Some in Hc. apply parent_children in Hpj; lia.
        -- cbn [fst snd]. split; [| lia]. split; [| done].
           intros i Hi Hne _ c q Hc Hq. apply (Hedges i Hi Hne); [| done | done].
           intros _ Hpi. apply lookup_lt_Some in Hc. apply parent_children in Hpi; lia.
      * cbn [fst snd]. split; [| lia]. split; [| done].
        intros i Hi Hne _ c q Hc Hq. apply (Hedges i Hi Hne); [| done | done].
        intros _ Hpi. apply lookup_lt_Some in Hc. apply parent_children in Hpi; lia.
Qed.

Lemma heap_ordered_nil : heap_ordered [].
Proof. intros i _ c p Hc. by destruct i. Qed.

Lemma push_ordered x (q : list A) : heap_ordered q -> heap_ordered (push comp x q).
Proof.
  intros Hq. unfold push, push_heap. rewrite length_app. cbn [length].
  replace (length q + 1 - 1)%nat with (length q) by lia.
  apply push_heap_loop_ordered; [lia |]. split.
  - intros i Hi Hne _ c p Hc Hp.
    pose proof (parent_lt i Hi) as Hlt.
    assert (Hil : (i < length q)%nat).
    { apply lookup_lt_Some in Hc. rewrite length_app in Hc. cbn in Hc. lia. }
    rewrite lookup_app_l in Hc, Hp by lia. by eapply (Hq i).
  - intros Hpos j g c Hj Hpj _ Hc.
    apply lookup_lt_Some in Hc. rewrite length_app in Hc. cbn in Hc.
    apply parent_children in Hpj; lia.
Qed.

Lemma pop_ordered (q : list A) : heap_ordered q -> heap_ordered (pop comp q).
Proof.
  intros Hq. destruct q as [|x [|z q]]; [done | apply heap_ordered_nil |].
  unfold pop, pop_heap.
  change (1 <? length (x :: z :: q))%nat with true. cbv iota.
  change (length (x :: z :: q) - 1)%nat with (S (length q)).
  set (v1 := swap (x :: z :: q) 0 (S (length q))).
  assert (Hv1 : length v1 = S (S (length q))).
  { unfold v1. by rewrite swap_length. }
  set (front := take (S (length q)) v1).
  assert (Hfl : length front = S (length q)).
  { unfold front. rewrite length_take. lia. }
  assert (Hfront : forall i, (0 < i < S (length q))%nat -> front !! i = (x :: z :: q) !! i).
  { intros i Hi. unfold front. rewrite lookup_take_lt by lia.
    destruct (lookup_lt_is_Some_2 (x :: z :: q) (S (length q))) as [y Hy].
    { cbn [length]. lia. }
    unfold v1. rewrite (swap_lookup _ 0 (S (length q)) x y) by done.
    rewrite !decide_False by lia. done. }
  assert (Hexc : heap_ordered_except true front 0).
  { split; [| lia]. intros i Hi _ Hdown c p Hc Hp.
    specialize (Hdown eq_refl). pose proof (parent_lt i Hi) as Hlt.
    assert (Hil : (i < S (length q))%nat).
    { apply lookup_lt_Some in Hc. lia. }
    rewrite Hfront in Hc, Hp by lia. by eapply (Hq i). }
  unfold adjust_heap.
  pose proof (adjust_heap_loop_ordered (length front) front 0
                ltac:(lia) ltac:(lia) Hexc) as (Hdone & Hhole & Hlen).
  destruct (adjust_heap_loop comp (length front) front 0) as [v' hole].
  cbn [fst snd] in *.
  assert (Hsorted : heap_ordered (push_heap_loop comp (length v') v' hole)).
  { apply push_heap_loop_ordered; [lia | done]. }
  assert (HD : length (drop (S (length q)) v1) = 1%nat).
  { rewrite length_drop. lia. }
  rewrite length_app, HD, Nat.add_sub, take_app_length. exact Hsorted.
Qed.

Lemma comp_irrefl a : comp a a = false.
Proof.
  destruct (comp a a) eqn:H; [| done].
  pose proof (comp_asym _ _ H). congruence.
Qed.

Lemma top_maximal (q : list A) t :
  heap_ordered q -> top q = Some t -> forall y, y ∈ q -> comp t y = false.
Proof.
  intros Hq Htop y [i Hi]%list_elem_of_lookup. revert y Hi.
  induction (lt_wf i) as [i _ IH]. intros y Hi.
  destruct (decide (i = 0)%nat) as [->|Hpos].
  - destruct q; [done |]. cbn in Htop, Hi. assert (y = t) as -> by congruence.
    apply comp_irrefl.
  - pose proof (parent_lt i ltac:(lia)) as Hlt.
    destruct (lookup_lt_is_Some_2 q (parent i)) as [p Hp].
    { apply lookup_lt_Some in Hi. lia. }
    eapply comp_trans; [by apply (IH (parent i)) |].
    eapply (Hq i); [lia | done | done].
Qed.

End HeapOrder.

(** ** The reconciler is correct below the sentinel *)

Lemma MaxHeapComparator_asym a b :
  MaxHeapComparator a b = true -> MaxHeapComparator b a = false.
Proof.
  unfold MaxHeapComparator.
  destruct (Z.ltb_spec (sr_end a) (sr_end b)), (Z.ltb_spec (sr_end b) (sr_end a)),
    (Z.eqb_spec (sr_end a) (sr_end b)), (Z.eqb_spec (sr_end b) (sr_end a)),
    (Z.ltb_spec (sr_start a) (sr_start b)), (Z.ltb_spec (sr_start b) (sr_start a));
    cbn; intros; (done || lia).
Qed.

Lemma MaxHeapComparator_trans a b c :
  MaxHeapComparator a b = false -> MaxHeapComparator b c = false ->
  MaxHeapComparator a c = false.
Proof.
  unfold MaxHeapComparator.
  destruct (Z.ltb_spec (sr_end a) (sr_end b)), (Z.ltb_spec (sr_end b) (sr_end c)),
    (Z.ltb_spec (sr_end a) (sr_end c)),
    (Z.eqb_spec (sr_end a) (sr_end b)), (Z.eqb_spec (sr_end b) (sr_end c)),
    (Z.eqb_spec (sr_end a) (sr_end c)),
    (Z.ltb_spec (sr_start a) (sr_start b)), (Z.ltb_spec (sr_start b) (sr_start c)),
    (Z.ltb_spec (sr_start a) (sr_start c));
    cbn; intros; (done || lia).
Qed.

Lemma MaxHeapComparator_false a b :
  MaxHeapComparator a b = false -> sr_end b <= sr_end a.
Proof.
  unfold MaxHeapComparator.
  destruct (Z.ltb_spec (sr_end a) (sr_end b)); cbn; [done | lia].
Qed.

(** *** Binary search *)

Lemma lower_bound_loop_spec fuel : forall v first len key,
  ascending v ->
  (len < fuel)%nat -> (first + len <= length v)%nat ->
  (forall i p, (i < first)%nat -> v !! i = Some p -> p.1 < key) ->
  (forall i p, (first + len <= i)%nat -> v !! i = Some p -> key <= p.1) ->
  let r := lower_bound_loop fuel v first len key in
  (r <= length v)%nat
  /\ (forall i p, (i < r)%nat -> v !! i = Some p -> p.1 < key)
  /\ (forall i p, (r <= i)%nat -> v !! i = Some p -> key <= p.1).
Proof.
  induction fuel as [|fuel IH]; intros v first len key Hasc Hfuel Hlen Hlow Hhigh; [lia |].
  cbn [lower_bound_loop].
  destruct (Nat.ltb_spec 0 len) as [Hpos|Hzero]; cycle 1.
  { cbn. split; [lia |]. split; [done |]. intros i p Hi. apply Hhigh. lia. }
  pose proof (Nat.div_mod_eq len 2) as Hd.
  pose proof (Nat.mod_upper_bound len 2 ltac:(lia)) as Hm.
  destruct (lookup_lt_is_Some_2 v (first + len / 2)) as [entry He]; [lia |].
  rewrite He. destruct (Z.ltb_spec entry.1 key) as [Hlt|Hge].
  - apply IH; try done; try lia.
    + intros i p Hi Hp.
      pose proof (Hasc i (first + len / 2)%nat p entry ltac:(lia) Hp He). lia.
    + intros i p Hi. apply Hhigh. lia.
  - apply IH; try done; try lia.
    intros i p Hi Hp.
    pose proof (Hasc (first + len / 2)%nat i entry p ltac:(lia) He Hp). lia.
Qed.

Lemma find_entry_lookup v : forall r key,
  (forall i p, (i < r)%nat -> v !! i = Some p -> p.1 < key) ->
  (forall p, v !! r = Some p -> key <= p.1) ->
  (r <= length v)%nat ->
  find_entry key v = v !! r.
Proof.
  induction v as [|entry v IH]; intros r key Hlow Hhigh Hr.
  - by destruct r.
  - cbn [find_entry]. destruct r as [|r].
    + specialize (Hhigh entry eq_refl).
      destruct (Z.ltb_spec entry.1 key); [lia | done].
    + pose proof (Hlow 0%nat entry ltac:(lia) eq_refl) as H0.
      destruct (Z.ltb_spec entry.1 key); [| lia].
      cbn. apply IH; [| done | cbn in Hr; lia].
      intros i p Hi Hp. apply (Hlow (S i)); [lia | done].
Qed.

Lemma lower_bound_find_entry v key :
  ascending v -> v !! lower_bound v key = find_entry key v.
Proof.
  intros Hasc. unfold lower_bound.
  assert (Hlow0 : forall i p, (i < 0)%nat -> v !! i = Some p -> p.1 < key) by lia.
  assert (Hhigh0 : forall i p, (0 + length v <= i)%nat -> v !! i = Some p -> key <= p.1).
  { intros i p Hi Hp. apply lookup_lt_Some in Hp. lia. }
  destruct (lower_bound_loop_spec (S (length v)) v 0 (length v) key Hasc
              ltac:(lia) ltac:(lia) Hlow0 Hhigh0) as (Hr & Hlow & Hhigh).
  symmetry. apply find_entry_lookup; [done | | done].
  intros p Hp. eapply Hhigh; [| exact Hp]. lia.
Qed.

(** In READY, over an ascending index, the lookup is [find_entry]. *)
Lemma shard_id_find_entry m key :
  state_ m = READY ->
  ascending (end_hash_key_to_shard_id_ m) ->
  shard_id true key m = snd <$> find_entry key (end_hash_key_to_shard_id_ m).
Proof.
  intros Hst Hasc. unfold shard_id. rewrite Hst. cbn [andb State_eqb].
  rewrite lower_bound_find_entry by done.
  by destruct (find_entry key _).
Qed.

(** *** The loop of the reconciler *)

Section Reconciler.
Variable shards : list Shard.
Variable max_end : Z.
Hypothesis max_end_bound :
  forall shard, shard ∈ shards -> GetEndingHashKey (GetHashKeyRange shard) <= max_end.
Hypothesis max_end_nonneg : 0 <= max_end.
Hypothesis shards_cover :
  forall key, 0 <= key <= max_end -> exists shard, shard ∈ shards /\ in_range key shard.

Lemma stems_from_bounds r :
  stems_from shards r -> 0 <= sr_start r <= sr_end r /\ sr_end r <= max_end.
Proof.
  intros (shard & Hin & (H0 & Hse & Hlt) & _ & Hs & Hle).
  pose proof (max_end_bound _ Hin). lia.
Qed.

Lemma descending_snoc emitted last e id :
  descending emitted ->
  Forall (fun p => last <= p.1 <= servable max_end) emitted ->
  e < last ->
  descending (emitted ++ [(e, id)]).
Proof.
  intros Hdesc Hall He i j p q Hij Hp Hq.
  assert (Hj : (j <= length emitted)%nat).
  { apply lookup_lt_Some in Hq. rewrite length_app in Hq. cbn in Hq. lia. }
  rewrite lookup_app_l in Hp by lia.
  destruct (decide (j = length emitted)) as [->|Hne].
  - rewrite list_lookup_middle in Hq by done. injection Hq as <-.
    rewrite Forall_lookup in Hall. specialize (Hall _ _ Hp). cbn in *. lia.
  - rewrite lookup_app_l in Hq by lia. by eapply Hdesc.
Qed.

Lemma find_entry_head key e id rest :
  key <= e -> find_entry key ((e, id) :: rest) = Some (e, id).
Proof. intros H. cbn. destruct (Z.ltb_spec e key); [lia | done]. Qed.

Lemma find_entry_skip key e id rest :
  e < key -> find_entry key ((e, id) :: rest) = find_entry key rest.
Proof. intros H. cbn. destruct (Z.ltb_spec e key); [done | lia]. Qed.

Lemma drain_heap_unfold fuel q last emitted :
  drain_heap fuel q last emitted =
    match priority_queue.top q with
    | None => Some emitted
    | Some shard =>
        match fuel with
        | O => None
        | S fuel' =>
            let q' := priority_queue.pop MaxHeapComparator q in
            if sr_end shard <? last then
              drain_heap fuel' q' (sr_start shard)
                (emitted ++ [(sr_end shard, sr_shard_id shard)])
            else if sr_start shard <? last then
              drain_heap fuel'
                (priority_queue.push MaxHeapComparator
                   {| sr_shard_id := sr_shard_id shard;
                      sr_start := sr_start shard;
                      sr_end := uint128_sub last 1 |} q')
                last emitted
            else drain_heap fuel' q' last emitted
        end
    end.
Proof. by destruct fuel. Qed.

(** When the queue is empty everything up to [servable] is served. *)
Lemma drain_invariant_done last emitted :
  drain_invariant shards max_end [] last emitted ->
  descending emitted
  /\ Forall (fun p => p.1 <= servable max_end) emitted
  /\ forall key, 0 <= key <= servable max_end -> serves shards (rev emitted) key.
Proof.
  intros (_ & _ & Hlast & Hcov & Hends & Hdesc & Hserved). split; [done |].
  split; [eapply Forall_impl; [exact Hends |]; cbn; intros p Hp; lia |].
  destruct Hserved as [(_ & -> & _) | [Hne Hserved]].
  - destruct (Hcov 0) as (r & []%elem_of_nil & _); [| done].
    unfold uint128_max, uint128_modulus. lia.
  - intros key Hkey. apply Hserved. split; [| lia].
    destruct (Z.le_gt_cases last key) as [|Hlt]; [done |].
    destruct (Hcov key) as (r & []%elem_of_nil & _); [lia |].
    unfold servable in Hkey. lia.
Qed.

Lemma drain_heap_serves fuel : forall q last emitted index,
  drain_invariant shards max_end q last emitted ->
  drain_heap fuel q last emitted = Some index ->
  descending index
  /\ Forall (fun p => p.1 <= servable max_end) index
  /\ forall key, 0 <= key <= servable max_end -> serves shards (rev index) key.
Proof.
  induction fuel as [|fuel IH]; intros q last emitted index Hinv Hrun;
    rewrite drain_heap_unfold in Hrun; cbv zeta in Hrun;
    (destruct (priority_queue.top q) as [shard|] eqn:Htop;
     [| injection Hrun as <-; destruct q; [by apply (drain_invariant_done last) | done]]);
    [done |].
  destruct Hinv as (Hheap & Hstems & Hlast & Hcov & Hends & Hdesc & Hserved).
  pose proof (pop_top MaxHeapComparator q shard Htop) as Hperm.
  pose proof (pop_ordered MaxHeapComparator MaxHeapComparator_asym
                MaxHeapComparator_trans q Hheap) as Hheap'.
  pose proof (top_maximal MaxHeapComparator MaxHeapComparator_asym
                MaxHeapComparator_trans q shard Hheap Htop) as Hmax.
  set (q' := priority_queue.pop MaxHeapComparator q) in *.
  assert (Hin : forall r, r ∈ q <-> r ∈ q' \/ r = shard).
  { intros r. rewrite <- Hperm, elem_of_app, list_elem_of_singleton. done. }
  assert (Hstems' : Forall (stems_from shards) q' /\ stems_from shards shard).
  { rewrite <- Hperm in Hstems. apply Forall_app in Hstems as [H1 H2].
    split; [done |]. by apply Forall_inv in H2. }
  destruct Hstems' as [Hstems' Hshard].
  pose proof (stems_from_bounds _ Hshard) as (Hs0 & Hsend).
  assert (Hlast_le : emitted <> [] -> last <= servable max_end).
  { intros Hne. destruct emitted as [|p ?]; [done |]. apply Forall_inv in Hends. lia. }
  destruct (Z.ltb_spec (sr_end shard) last) as [Hlt|Hge].
  - (* emit *)
    eapply IH; [| exact Hrun].
    assert (Hend_le : sr_end shard <= servable max_end).
    { unfold servable, uint128_ok, uint128_max in *. lia. }
    assert (Hend : sr_end shard = servable max_end \/ (emitted <> [] /\ sr_end shard = last - 1)).
    { destruct Hserved as [(-> & -> & Hr) | [Hne _]].
      - left. destruct (Z.lt_ge_cases max_end uint128_max) as [Hbelow|Hat].
        + destruct (Hr Hbelow) as (r & Hrin & Hrend).
          pose proof (MaxHeapComparator_false _ _ (Hmax r Hrin)).
          unfold servable. lia.
        + destruct (Hcov (uint128_max - 1)) as (r & Hrin & Hrange).
          { unfold uint128_max, uint128_modulus. lia. }
          { lia. }
          pose proof (MaxHeapComparator_false _ _ (Hmax r Hrin)).
          unfold servable in *. lia.
      - right. split; [done |]. specialize (Hlast_le Hne).
        destruct (Hcov (last - 1)) as (r & Hr & Hrange);
          [lia | unfold servable in *; lia |].
        pose proof (MaxHeapComparator_false _ _ (Hmax r Hr)). lia. }
    split; [done |]. split; [done |].
    split; [unfold uint128_ok in *; lia |].
    split.
    { intros key Hk1 Hk2. destruct (Hcov key ltac:(lia) Hk2) as (r & Hr & Hrange).
      apply Hin in Hr as [Hr| ->]; [by exists r | lia]. }
    split.
    { apply Forall_app. split.
      - eapply Forall_impl; [exact Hends |]. cbn. intros p Hp. lia.
      - constructor; [cbn; lia | done]. }
    split; [by eapply descending_snoc |].
    right. split; [by destruct emitted |].
    intros key Hkey. rewrite rev_unit.
    destruct Hshard as (s & Hsin & Hwf & Hid & Hstart & Hrange).
    destruct (Z.le_gt_cases key (sr_end shard)) as [Hlow|Hhigh].
    + exists (sr_end shard, sr_shard_id shard), s.
      split; [by apply find_entry_head |].
      split; [done |]. split; [done |]. unfold in_range. lia.
    + destruct Hend as [Hend | [Hne Hend]]; [lia |].
      destruct Hserved as [(-> & _) | [_ Hserved]]; [done |].
      destruct (Hserved key ltac:(lia)) as (entry & s' & Hfind & Hrest).
      exists entry, s'. split; [| done].
      by rewrite find_entry_skip.
  - assert (Hbelow : max_end < uint128_max -> emitted <> []).
    { intros Hb. destruct Hserved as [(_ & -> & _) | [Hne _]]; [lia | done]. }
    assert (Hserved' :
      (emitted = [] /\ last = uint128_max
       /\ (max_end < uint128_max -> exists r, r ∈ q' /\ sr_end r = max_end))
      \/ (emitted <> []
          /\ forall key, last <= key <= servable max_end -> serves shards (rev emitted) key)).
    { destruct Hserved as [(He & Hl & _) | Hs]; [left | by right].
      split; [done |]. split; [done |]. intros Hb. by destruct (Hbelow Hb). }
    destruct (Z.ltb_spec (sr_start shard) last) as [Hslt|Hsge].
    + (* trim and push back *)
      rewrite uint128_sub_pred in Hrun by (done || lia).
      set (trimmed := {| sr_shard_id := sr_shard_id shard;
                         sr_start := sr_start shard; sr_end := last - 1 |}) in *.
      pose proof (push_Permutation MaxHeapComparator trimmed q') as Hpush.
      eapply IH; [| exact Hrun].
      split.
      { by apply (push_ordered _ MaxHeapComparator_asym MaxHeapComparator_trans). }
      split.
      { rewrite Hpush. constructor; [| done].
        destruct Hshard as (s & Hsin & Hwf & Hid & Hstart & Hrange).
        exists s. split; [done |]. split; [done |]. split; [done |].
        split; [done |]. cbn. lia. }
      split; [done |]. split.
      { intros key Hk1 Hk2. destruct (Hcov key Hk1 Hk2) as (r & Hr & Hrange).
        apply Hin in Hr as [Hr| ->].
        - exists r. split; [| done]. rewrite Hpush. apply elem_of_cons. by right.
        - exists trimmed. split; [| cbn; lia].
          rewrite Hpush. apply elem_of_cons. by left. }
      split; [done |]. split; [done |].
      destruct Hserved' as [(He & Hl & Hr) | Hs]; [left | by right].
      split; [done |]. split; [done |]. intros Hb. by destruct (Hbelow Hb).
    + (* fully shadowed *)
      eapply IH; [| exact Hrun].
      split; [done |]. split; [done |]. split; [done |]. split.
      { intros key Hk1 Hk2. destruct (Hcov key Hk1 Hk2) as (r & Hr & Hrange).
        apply Hin in Hr as [Hr| ->]; [by exists r | lia]. }
      split; [done |]. split; [done |]. done.
Qed.

End Reconciler.

Lemma fill_heap_spec shards : forall q q',
  fill_heap shards q = Ok q' ->
  (heap_ordered MaxHeapComparator q -> heap_ordered MaxHeapComparator q')
  /\ forall r, r ∈ q' <->
       r ∈ q \/ exists shard id,
                 shard ∈ shards /\ shard_id_from_str (GetShardId shard) = Ok id
                 /\ r = to_range id shard.
Proof.
  induction shards as [|shard shards IH]; intros q q' H; cbn [fill_heap] in H.
  - injection H as <-. split; [done |]. intros r. split; [by left |].
    intros [Hr | (s & id & []%elem_of_nil & _)]. done.
  - destruct (shard_id_from_str (GetShardId shard)) as [id|] eqn:Hid; [| done].
    cbn [result_bind] in H. apply IH in H as [Hheap Hmem]. split.
    + intros Hq. apply Hheap.
      by apply (push_ordered _ MaxHeapComparator_asym MaxHeapComparator_trans).
    + intros r. rewrite Hmem, push_Permutation, elem_of_cons. split.
      * intros [[-> | Hr] | (s & i & Hs & Hi & ->)].
        -- right. exists shard, id. split; [apply elem_of_cons; by left | done].
        -- by left.
        -- right. exists s, i. split; [apply elem_of_cons; by right | done].
      * intros [Hr | (s & i & [-> | Hs]%elem_of_cons & Hi & ->)].
        -- left. by right.
        -- left. left. assert (i = id) as -> by congruence. reflexivity.
        -- right. by exists s, i.
Qed.

Lemma to_range_well_formed id shard :
  well_formed shard ->
  sr_start (to_range id shard) = GetStartingHashKey (GetHashKeyRange shard)
  /\ sr_end (to_range id shard) = GetEndingHashKey (GetHashKeyRange shard).
Proof.
  intros (H0 & Hse & Hlt). unfold to_range, to_uint128. cbn.
  rewrite !Z.mod_small by lia. done.
Qed.

Lemma descending_rev_ascending index : descending index -> ascending (rev index).
Proof.
  intros Hdesc i j p q Hij Hp Hq.
  rewrite rev_alt in Hp, Hq. change (rev_append index []) with (reverse index) in *.
  apply reverse_lookup_Some in Hp as [Hp Hi]. apply reverse_lookup_Some in Hq as [Hq Hj].
  destruct (decide (i = j)) as [->|Hne]; [assert (p = q) by congruence; subst; lia |].
  pose proof (Hdesc (length index - S j)%nat (length index - S i)%nat q p
                ltac:(lia) Hq Hp). lia.
Qed.

Lemma build_minimal_disjoint_hashranges_index m m' :
  open_shards_ m <> [] ->
  build_minimal_disjoint_hashranges m = Ret tt m' ->
  exists q index,
    fill_heap (open_shards_ m) [] = Ok q
    /\ drain_heap (drain_fuel (length q)) q uint128_max (end_hash_key_to_shard_id_ m)
       = Some index
    /\ end_hash_key_to_shard_id_ m' = rev index.
Proof.
  intros Hne. unfold build_minimal_disjoint_hashranges. unfold_monad.
  destruct (open_shards_ m) as [|s0 rest] eqn:Hopen; [done |].
  destruct (fill_heap (s0 :: rest) []) as [q|] eqn:Hfill; [| done].
  destruct (drain_heap _ _ _ _) as [index|] eqn:Hdrain; [| done].
  intros H. apply cache_shards_inv in H as (cache & -> & _).
  by exists q, index.
Qed.

Lemma find_entry_none key index :
  Forall (fun p => p.1 < key) index -> find_entry key index = None.
Proof.
  induction 1 as [|p index Hp _ IH]; [done |].
  cbn. destruct (Z.ltb_spec p.1 key); [done | lia].
Qed.

(** What the reconciler achieves on shards that cover [[0, max_end]]: the
    index is ascending, ends at most at [servable max_end], and serves
    every key up to there. *)
Lemma build_minimal_disjoint_hashranges_serves m m' max_end :
  Forall well_formed (open_shards_ m) ->
  covers (open_shards_ m) max_end ->
  end_hash_key_to_shard_id_ m = [] ->
  build_minimal_disjoint_hashranges m = Ret tt m' ->
  ascending (end_hash_key_to_shard_id_ m')
  /\ Forall (fun p => p.1 <= servable max_end) (end_hash_key_to_shard_id_ m')
  /\ forall key, 0 <= key <= servable max_end ->
       serves (open_shards_ m) (end_hash_key_to_shard_id_ m') key.
Proof.
  intros Hwf ((top_shard & Htop_in & Htop_end) & Hbound & Hcover) Hindex Hbuild.
  set (shards := open_shards_ m) in *.
  apply build_minimal_disjoint_hashranges_index in Hbuild as (q & index & Hfill & Hdrain & Hm3);
    [| fold shards; by destruct Htop_in].
  fold shards in Hfill. rewrite Hindex in Hdrain.
  destruct (fill_heap_spec _ _ _ Hfill) as [Hheap Hmem].
  destruct (fill_heap_inv _ _ _ Hfill) as [ids Hids].
  rewrite Forall_forall in Hwf.
  assert (Hnonneg : 0 <= max_end).
  { destruct (Hwf _ Htop_in) as (? & ? & ?). lia. }
  assert (Hqueued : forall shard, shard ∈ shards ->
            exists r, r ∈ q
              /\ sr_start r = GetStartingHashKey (GetHashKeyRange shard)
              /\ sr_end r = GetEndingHashKey (GetHashKeyRange shard)).
  { intros shard Hin. destruct (shard_ids_parse _ _ _ Hids Hin) as [id Hid].
    destruct (to_range_well_formed id shard (Hwf shard Hin)) as [Hstart Hend].
    exists (to_range id shard). split; [| done].
    apply Hmem. right. by exists shard, id. }
  assert (Hinv : drain_invariant shards max_end q uint128_max []).
  { split; [apply Hheap, heap_ordered_nil |]. split.
    { apply Forall_forall. intros r [[]%elem_of_nil | (s & id & Hs & Hid & ->)]%Hmem.
      pose proof (Hwf s Hs) as Hs_wf.
      destruct (to_range_well_formed id s Hs_wf) as [Hstart Hend].
      exists s. rewrite Hstart, Hend. destruct Hs_wf as (? & ? & ?).
      split; [done |]. split; [done |]. split; [done |]. split; [done |]. lia. }
    split; [unfold uint128_ok, uint128_max, uint128_modulus; lia |]. split.
    { intros k Hk1 Hk2. destruct (Hcover k ltac:(lia)) as (s & Hs & Hrange).
      destruct (Hqueued s Hs) as (r & Hr & Hstart & Hend).
      exists r. split; [done |]. rewrite Hstart, Hend. exact Hrange. }
    split; [done |]. split; [by intros i j p q' _ Hp |].
    left. split; [done |]. split; [done |]. intros _.
    destruct (Hqueued top_shard Htop_in) as (r & Hr & _ & Hend).
    exists r. split; [done | congruence]. }
  destruct (drain_heap_serves shards max_end Hbound Hnonneg _ _ _ _ _ Hinv Hdrain)
    as (Hdesc & Hle & Hserves).
  rewrite Hm3. split; [by apply descending_rev_ascending |]. split; [| done].
  rewrite Forall_forall in Hle. apply Forall_forall.
  intros p Hp%list_elem_of_In%in_rev%list_elem_of_In. by apply Hle.
Qed.

(** Containment except at the sentinel: if the shards of a refresh are
    well formed and cover [0, max_end], where [max_end] is the largest
    ending hash key, then after the refresh every hash key up to [max_end]
    other than the largest 128-bit value is mapped to an input shard whose
    range contains it, and the largest 128-bit value is mapped to
    nothing. *)
Theorem lookup_contained_except_sentinel shards max_end now m m' :
  Forall well_formed shards ->
  (exists shard, shard ∈ shards /\ GetEndingHashKey (GetHashKeyRange shard) = max_end) ->
  (forall shard, shard ∈ shards -> GetEndingHashKey (GetHashKeyRange shard) <= max_end) ->
  (forall key, 0 <= key <= max_end -> exists shard, shard ∈ shards /\ in_range key shard) ->
  open_shards_ m = [] ->
  end_hash_key_to_shard_id_ m = [] ->
  list_shards_callback now (Success shards EmptyString) m = Ret tt m' ->
  (forall key, 0 <= key <= max_end -> key < uint128_max ->
     exists id shard,
       shard_id true key m' = Some id
       /\ shard ∈ shards
       /\ shard_id_from_str (GetShardId shard) = Ok id
       /\ in_range key shard)
  /\ shard_id true uint128_max m' = None.
Proof.
  intros Hwf Htop Hbound Hcover Hopen Hindex H.
  apply list_shards_callback_final_build in H as (ids & m3 & Hids & Hbuild & ->).
  assert (Hopen2 : open_shards_ (staged shards ids m) = shards).
  { replace (open_shards_ (staged shards ids m)) with (open_shards_ m ++ shards)
      by (by destruct m). by rewrite Hopen. }
  assert (Hindex2 : end_hash_key_to_shard_id_ (staged shards ids m) = []).
  { rewrite <- Hindex. by destruct m. }
  destruct (build_minimal_disjoint_hashranges_serves _ _ max_end
              ltac:(by rewrite Hopen2) ltac:(by rewrite Hopen2) Hindex2 Hbuild)
    as (Hasc & Hle & Hserves).
  rewrite Hopen2 in Hserves.
  assert (Hlookup : forall key,
            shard_id true key (set_updated_at_ now (set_state_ READY m3))
            = snd <$> find_entry key (end_hash_key_to_shard_id_ m3)).
  { intros key. rewrite shard_id_find_entry; by destruct m3. }
  split.
  - intros key Hkey Hsentinel.
    destruct (Hserves key) as (entry & shard & Hfind & Hin & Hid & Hrange).
    { unfold servable. lia. }
    exists entry.2, shard. split; [| done]. by rewrite Hlookup, Hfind.
  - rewrite Hlookup, find_entry_none; [done |].
    eapply Forall_impl; [exact Hle |]. cbn. intros p Hp.
    unfold servable in Hp. lia.
Qed.


(** ** The reconciler on the examples *)

Lemma lineage_example_any_order :
  forallb (reconciles_to [(2, 3%N); (5, 4%N); (8, 5%N); (10, 6%N)])
    (permutations lineage_example) = true.
Proof. by vm_compute. Qed.

(** C1: for the seven shards of the lineage example (parents 0:0-5 and
    1:6-10, children 3:0-2, 4:3-5, 5:6-8, 6:9-10, grandchild 7:3-8), in
    whatever order the pages delivered them to the staging buffer, and with
    the index cleared by [update()], [build_minimal_disjoint_hashranges]
    returns and leaves the index [(2, 3); (5, 4); (8, 5); (10, 6)],
    ascending by end hash key: the four children, not the grandchild 7. *)
Theorem lineage_example_index (m : ShardMap) :
  open_shards_ m ≡ₚ lineage_example ->
  end_hash_key_to_shard_id_ m = [] ->
  exists m',
    build_minimal_disjoint_hashranges m = Ret tt m'
    /\ end_hash_key_to_shard_id_ m' = [(2, 3%N); (5, 4%N); (8, 5%N); (10, 6%N)]
    /\ 7%N ∉ (end_hash_key_to_shard_id_ m').*2.
Proof.
  intros Hperm Hindex.
  assert (Hcheck : reconciles_to [(2, 3%N); (5, 4%N); (8, 5%N); (10, 6%N)]
                     (open_shards_ m) = true).
  { pose proof lineage_example_any_order as Hall.
    rewrite forallb_forall in Hall. apply Hall.
    apply list_elem_of_In, permutations_Permutation. by symmetry. }
  unfold reconciles_to in Hcheck.
  destruct (fill_heap (open_shards_ m) []) as [q|] eqn:Hfill; [| done].
  destruct (drain_heap (drain_fuel (length q)) q uint128_max []) as [index|] eqn:Hdrain;
    [| done].
  apply bool_decide_eq_true in Hcheck.
  destruct (fill_heap_inv _ _ _ Hfill) as [ids Hids].
  unfold build_minimal_disjoint_hashranges. unfold_monad. rewrite Hindex.
  destruct (open_shards_ m) as [|s0 rest] eqn:Hopen.
  { by apply Permutation_nil in Hperm. }
  rewrite Hfill, Hdrain.
  match goal with
  | |- context [cache_shards (s0 :: rest) ?m1] =>
      destruct (cache_shards_ok (s0 :: rest) _ m1 Hids) as [m' Hm'];
      exists m'; split; [exact Hm' |];
      apply cache_shards_inv in Hm' as (cache & -> & _)
  end.
  proj_simpl. rewrite Hcheck. split; [reflexivity |].
  cbn. rewrite !not_elem_of_cons. repeat split; try discriminate.
  apply not_elem_of_nil.
Qed.

Lemma lineage_example_index_witness :
  exists m',
    build_minimal_disjoint_hashranges
      (after [ListShardsCompleted 7 (Success lineage_example "token")] started_example)
    = Ret tt m'
    /\ end_hash_key_to_shard_id_ m' = [(2, 3%N); (5, 4%N); (8, 5%N); (10, 6%N)]
    /\ 7%N ∉ (end_hash_key_to_shard_id_ m').*2.
Proof.
  apply lineage_example_index; [| by vm_compute].
  replace (open_shards_ _) with lineage_example by (by vm_compute). done.
Defined.

(** The general theorem at the lineage example: every hash key from 0 to 10
    is served by a shard that contains it. *)
Lemma lineage_example_contained key :
  0 <= key <= 10 ->
  exists id shard,
    shard_id true key ready_example = Some id
    /\ shard ∈ lineage_example
    /\ shard_id_from_str (GetShardId shard) = Ok id
    /\ in_range key shard.
Proof.
  intros Hkey.
  refine (proj1 (lookup_contained_except_sentinel lineage_example 10 100
                   (set_kinesis_client_ [] started_example) ready_example
                   _ _ _ _ _ _ _) key Hkey _).
  - repeat constructor; by vm_compute.
  - exists (mkShard "shardId-000000000001" 6 10).
    split; [apply list_elem_of_In; cbn; tauto | done].
  - intros shard Hin%list_elem_of_In. cbn in Hin.
    repeat (destruct Hin as [<- | Hin]; [by vm_compute |]). done.
  - intros k Hk. destruct (Z.le_gt_cases k 5).
    + exists (mkShard "shardId-000000000000" 0 5).
      split; [apply list_elem_of_In; cbn; tauto | unfold in_range; cbn; lia].
    + exists (mkShard "shardId-000000000001" 6 10).
      split; [apply list_elem_of_In; cbn; tauto | unfold in_range; cbn; lia].
  - reflexivity.
  - reflexivity.
  - by vm_compute.
  - unfold uint128_max, uint128_modulus. lia.
Qed.

(** The general theorem at a stream of one shard over the whole space:
    every hash key but the largest is served by that shard, the largest by
    none. *)
Lemma whole_space_example_lookups now m' :
  list_shards_callback now (Success whole_space_example EmptyString)
    (set_kinesis_client_ [] started_example) = Ret tt m' ->
  (forall key, 0 <= key < uint128_max -> shard_id true key m' = Some 0%N)
  /\ shard_id true uint128_max m' = None.
Proof.
  intros H.
  destruct (lookup_contained_except_sentinel whole_space_example uint128_max now
              (set_kinesis_client_ [] started_example) m') as [Hin Hout]; try done.
  - repeat constructor; by vm_compute.
  - exists (mkShard "shardId-000000000000" 0 uint128_max).
    split; [apply list_elem_of_singleton; reflexivity | done].
  - by intros shard ->%list_elem_of_singleton.
  - intros k Hk. exists (mkShard "shardId-000000000000" 0 uint128_max).
    split; [apply list_elem_of_singleton; reflexivity | done].
  - split; [| done]. intros key Hkey.
    destruct (Hin key) as (id & shard & -> & ->%list_elem_of_singleton & Hid & _);
      [lia | lia |].
    f_equal. vm_compute in Hid. by injection Hid as <-.
Qed.

(** C2, at a failing input: a stream whose single shard owns the whole
    hash-key space [0, 2^128 - 1].  The refresh succeeds, but the
    watermark starts at the largest 128-bit value, so the shard is first
    trimmed to end at 2^128 - 2; the lookup of the hash key 2^128 - 1,
    which the shard's range contains, finds no entry. *)
Theorem lookup_misses_largest_hash_key :
  exists m,
    run [ListShardsCompleted 100 (Success whole_space_example EmptyString)]
      started_example = Some m
    /\ state_ m = READY
    /\ end_hash_key_to_shard_id_ m = [(uint128_max - 1, 0%N)]
    /\ (forall shard, shard ∈ whole_space_example ->
          0 <= GetStartingHashKey (GetHashKeyRange shard)
               <= GetEndingHashKey (GetHashKeyRange shard)
          /\ in_range uint128_max shard)
    /\ shard_id true uint128_max m = None
    /\ shard_id true (uint128_max - 1) m = Some 0%N
    /\ ~ lookup_contained whole_space_example uint128_max.
Proof.
  eexists. split; [by vm_compute |].
  split; [by vm_compute |]. split; [by vm_compute |]. split.
  { intros shard ->%list_elem_of_singleton. by vm_compute. }
  split; [by vm_compute |]. split; [by vm_compute |].
  intros H.
  destruct (H "stream"%string ""%string kClosedShardTtl false 100 started_example
              (after [ListShardsCompleted 100 (Success whole_space_example "")]
                 started_example))
    as (id & shard & Hlookup & _); [reflexivity | by vm_compute |].
  vm_compute in Hlookup. discriminate Hlookup.
Qed.

(** * Further properties of the code *)

(** ** Lookup by binary search *)

(** X1: in state READY, with the lock obtained and an index whose end keys
    are in ascending order, [shard_id] returns the id of the first entry
    whose end key is not below the hash key: that entry exists in the index
    and every entry before it ends below the key.  It returns nothing
    exactly when every entry ends below the key. *)
Theorem shard_id_returns_first_covering_entry m hash_key :
  ascending (end_hash_key_to_shard_id_ m) ->
  state_ m = READY ->
  match shard_id true hash_key m with
  | Some id =>
      exists i e,
        end_hash_key_to_shard_id_ m !! i = Some (e, id)
        /\ hash_key <= e
        /\ forall j p, (j < i)%nat -> end_hash_key_to_shard_id_ m !! j = Some p ->
             p.1 < hash_key
  | None => forall p, p ∈ end_hash_key_to_shard_id_ m -> p.1 < hash_key
  end.
Proof.
  intros Hasc Hst. unfold shard_id. rewrite Hst. cbn [andb State_eqb].
  destruct (lower_bound_loop_spec (S (length (end_hash_key_to_shard_id_ m)))
              (end_hash_key_to_shard_id_ m) 0 (length (end_hash_key_to_shard_id_ m))
              hash_key Hasc) as (Hlen & Hlow & Hhigh).
  - lia.
  - cbn. lia.
  - intros i p Hi. lia.
  - intros i p Hi Hp. apply lookup_lt_Some in Hp. cbn in Hi. lia.
  - fold (lower_bound (end_hash_key_to_shard_id_ m) hash_key) in *.
    destruct (end_hash_key_to_shard_id_ m !! lower_bound _ hash_key) as [[e id]|] eqn:E.
    + exists (lower_bound (end_hash_key_to_shard_id_ m) hash_key), e.
      split; [done |]. split.
      * apply (Hhigh _ (e, id) (le_n _) E).
      * intros j p Hj Hp. by apply (Hlow j).
    + intros p [i Hi]%list_elem_of_lookup.
      apply (Hlow i); [| done].
      apply lookup_ge_None in E. apply lookup_lt_Some in Hi. lia.
Qed.

(** The examples that the statements below are tried on. *)
Lemma lineage_example_well_formed : Forall well_formed lineage_example.
Proof. repeat constructor; by vm_compute. Qed.

Lemma lineage_example_covers : covers lineage_example 10.
Proof.
  split; [| split].
  - exists (mkShard "shardId-000000000001" 6 10).
    split; [apply list_elem_of_In; cbn; tauto | done].
  - intros shard Hin%list_elem_of_In. cbn in Hin.
    repeat (destruct Hin as [<- | Hin]; [by vm_compute |]). done.
  - intros k Hk. destruct (Z.le_gt_cases k 5).
    + exists (mkShard "shardId-000000000000" 0 5).
      split; [apply list_elem_of_In; cbn; tauto | unfold in_range; cbn; lia].
    + exists (mkShard "shardId-000000000001" 6 10).
      split; [apply list_elem_of_In; cbn; tauto | unfold in_range; cbn; lia].
Qed.

Lemma ready_example_reachable : reachable kMinBackoff kMaxBackoff ready_example.
Proof.
  apply (started_example_reachable
           [ListShardsCompleted 100 (Success lineage_example EmptyString)]).
  by vm_compute.
Qed.

Lemma shard_id_returns_first_covering_entry_witness :
  exists i e,
    end_hash_key_to_shard_id_ ready_example !! i = Some (e, 4%N)
    /\ 4 <= e
    /\ forall j p, (j < i)%nat ->
         end_hash_key_to_shard_id_ ready_example !! j = Some p -> p.1 < 4.
Proof.
  apply (shard_id_returns_first_covering_entry ready_example 4); [| by vm_compute].
  replace (end_hash_key_to_shard_id_ ready_example)
    with [(2, 3%N); (5, 4%N); (8, 5%N); (10, 6%N)] by (by vm_compute).
  intros i j p q Hij Hp Hq.
  do 5 (destruct i as [|i]; [do 5 (destruct j as [|j]; [cbn in *; simplify_eq; cbn; lia |]);
                              by cbn in Hq |]).
  by cbn in Hp.
Defined.

(** ** The index tiles the input *)

Lemma MaxHeapComparator_not_below a b :
  MaxHeapComparator a b = false ->
  sr_end b <= sr_end a /\ (sr_end b = sr_end a -> sr_start b <= sr_start a).
Proof.
  unfold MaxHeapComparator. intros H.
  apply orb_false_iff in H as [H1 H2]. apply Z.ltb_ge in H1.
  split; [done |]. intros Heq.
  apply andb_false_iff in H2 as [H2|H2].
  - apply Z.eqb_neq in H2. lia.
  - by apply Z.ltb_ge in H2.
Qed.

(** The loop keeps [tiling_invariant]; when the queue is empty the index
    is a tiling. *)
Lemma drain_heap_tiling shards fuel : forall q last emitted index,
  tiling_invariant shards q last emitted ->
  drain_heap fuel q last emitted = Some index ->
  exists low, tiling shards low (rev index).
Proof.
  induction fuel as [|fuel IH]; intros q last emitted index Hinv Hrun;
    rewrite drain_heap_unfold in Hrun; cbv zeta in Hrun;
    (destruct (priority_queue.top q) as [shard|] eqn:Htop;
     [| injection Hrun as <-; exists last; apply Hinv]);
    [done |].
  destruct Hinv as (Hheap & Hstems & Hlast & Hheld & Htiling).
  pose proof (pop_top MaxHeapComparator q shard Htop) as Hperm.
  pose proof (pop_ordered MaxHeapComparator MaxHeapComparator_asym
                MaxHeapComparator_trans q Hheap) as Hheap'.
  pose proof (top_maximal MaxHeapComparator MaxHeapComparator_asym
                MaxHeapComparator_trans q shard Hheap Htop) as Hmax.
  set (q' := priority_queue.pop MaxHeapComparator q) in *.
  assert (Hin : forall r, r ∈ q <-> r ∈ q' \/ r = shard).
  { intros r. rewrite <- Hperm, elem_of_app, list_elem_of_singleton. done. }
  assert (Hstems' : Forall (stems_from shards) q' /\ stems_from shards shard).
  { rewrite <- Hperm in Hstems. apply Forall_app in Hstems as [H1 H2].
    split; [done |]. by apply Forall_inv in H2. }
  destruct Hstems' as [Hstems' Hshard].
  destruct Hshard as (s & Hsin & Hwf & Hid & Hstart & Hrange).
  pose proof Hwf as (Hs0 & Hse & Hsmax).
  destruct (Z.ltb_spec (sr_end shard) last) as [Hlt|Hge].
  - (* emit *)
    eapply IH; [| exact Hrun].
    split; [done |]. split; [done |].
    split; [unfold uint128_ok in *; lia |].
    split.
    { intros other Hother Hbelow.
      destruct (Hheld other Hother ltac:(lia)) as (r & Hr & Hrs & Hre).
      apply Hin in Hr as [Hr| ->]; [| lia].
      exists r. split; [done |]. split; [done |]. lia. }
    rewrite rev_unit, Hstart.
    apply tiling_cons with (low := last); [done | | done].
    split; [done |]. split; [done |]. split; [unfold in_range; lia |].
    intros other Hother [Ho1 Ho2].
    destruct (Hheld other Hother ltac:(lia)) as (r & Hr & Hrs & Hre).
    destruct (MaxHeapComparator_not_below _ _ (Hmax r Hr)) as [Hle Htie].
    lia.
  - destruct (Z.ltb_spec (sr_start shard) last) as [Hslt|Hsge].
    + (* trim and push back *)
      rewrite uint128_sub_pred in Hrun by (done || lia).
      set (trimmed := {| sr_shard_id := sr_shard_id shard;
                         sr_start := sr_start shard; sr_end := last - 1 |}) in *.
      pose proof (push_Permutation MaxHeapComparator trimmed q') as Hpush.
      eapply IH; [| exact Hrun].
      split.
      { by apply (push_ordered _ MaxHeapComparator_asym MaxHeapComparator_trans). }
      split.
      { rewrite Hpush. constructor; [| done].
        exists s. split; [done |]. split; [done |]. split; [done |].
        split; [done |]. cbn. lia. }
      split; [done |]. split; [| done].
      intros other Hother Hbelow.
      destruct (Hheld other Hother Hbelow) as (r & Hr & Hrs & Hre).
      apply Hin in Hr as [Hr| ->].
      * exists r. split; [| done]. rewrite Hpush. apply elem_of_cons. by right.
      * exists trimmed. split; [rewrite Hpush; apply elem_of_cons; by left |].
        split; [done |]. cbn. lia.
    + (* fully shadowed *)
      eapply IH; [| exact Hrun].
      split; [done |]. split; [done |]. split; [done |]. split; [| done].
      intros other Hother Hbelow.
      destruct (Hheld other Hother Hbelow) as (r & Hr & Hrs & Hre).
      apply Hin in Hr as [Hr| ->]; [| lia].
      by exists r.
Qed.

(** What a tiling says entry by entry. *)
Lemma tiling_lookup shards low index :
  tiling shards low index ->
  forall j entry, index !! j = Some entry ->
    exists shard,
      narrowest shards entry.1 entry.2 shard
      /\ low <= GetStartingHashKey (GetHashKeyRange shard)
      /\ forall i p, (i < j)%nat -> index !! i = Some p ->
           p.1 < GetStartingHashKey (GetHashKeyRange shard).
Proof.
  induction 1 as [|shard e id low rest Hrest IH Hnarrow He]; intros j entry Hj; [done |].
  destruct j as [|j]; cbn in Hj.
  - injection Hj as <-. exists shard. split; [done |]. split; [lia |].
    intros i p Hi. lia.
  - destruct (IH j entry Hj) as (shard' & Hn' & Hlow' & Hbefore).
    exists shard'. split; [done |].
    destruct Hnarrow as (_ & _ & [Hr1 Hr2] & _).
    split; [lia |].
    intros [|i] p Hi Hp; cbn in Hp.
    + injection Hp as <-. cbn. lia.
    + apply (Hbefore i); [lia | done].
Qed.

Lemma tiling_ascending shards low index : tiling shards low index -> ascending index.
Proof.
  intros Ht i j p q Hij Hp Hq.
  destruct (decide (i = j)) as [->|Hne]; [assert (p = q) by congruence; subst; lia |].
  destruct (tiling_lookup _ _ _ Ht j q Hq) as (shard & (_ & _ & [Hr _] & _) & _ & Hbefore).
  specialize (Hbefore i p ltac:(lia) Hp). lia.
Qed.

Lemma build_minimal_disjoint_hashranges_tiling m m' :
  Forall well_formed (open_shards_ m) ->
  end_hash_key_to_shard_id_ m = [] ->
  build_minimal_disjoint_hashranges m = Ret tt m' ->
  exists low, tiling (open_shards_ m) low (end_hash_key_to_shard_id_ m').
Proof.
  intros Hwf Hindex Hbuild.
  destruct (open_shards_ m) as [|s0 rest] eqn:Hopen.
  { revert Hbuild. unfold build_minimal_disjoint_hashranges. unfold_monad.
    rewrite Hopen. intros [= <-]. rewrite Hindex. exists uint128_max. constructor. }
  rewrite <- Hopen in *.
  apply build_minimal_disjoint_hashranges_index in Hbuild
    as (q & index & Hfill & Hdrain & ->); [| by rewrite Hopen].
  rewrite Hindex in Hdrain.
  destruct (fill_heap_spec _ _ _ Hfill) as [Hheap Hmem].
  destruct (fill_heap_inv _ _ _ Hfill) as [ids Hids].
  rewrite Forall_forall in Hwf.
  eapply drain_heap_tiling; [| exact Hdrain].
  split; [apply Hheap, heap_ordered_nil |]. split.
  { apply Forall_forall. intros r [[]%elem_of_nil | (s & id & Hs & Hid & ->)]%Hmem.
    pose proof (Hwf s Hs) as Hs_wf.
    destruct (to_range_well_formed id s Hs_wf) as [Hstart Hend].
    exists s. rewrite Hstart, Hend. destruct Hs_wf as (? & ? & ?).
    split; [done |]. split; [done |]. split; [done |]. split; [done |]. lia. }
  split; [unfold uint128_ok, uint128_max, uint128_modulus; lia |].
  split; [| constructor].
  intros shard Hin _.
  destruct (shard_ids_parse _ _ _ Hids Hin) as [id Hid].
  destruct (to_range_well_formed id shard (Hwf shard Hin)) as [Hstart Hend].
  exists (to_range id shard). split; [| split; [done | lia]].
  apply Hmem. right. by exists shard, id.
Qed.

(** X2: if the staged shards have proper ranges (0 <= start <= end < 2^128)
    and ids that parse, and the index is empty, then
    [build_minimal_disjoint_hashranges] returns with an index whose end
    keys are strictly ascending; every entry names a staged shard, by its
    parsed id, whose range contains the entry's end key and whose start
    lies above the end key of every earlier entry.  So the buckets
    [start, end] of the entries are pairwise disjoint.  The shards need
    not cover the key space. *)
Theorem index_is_ascending_and_disjoint m ids :
  Forall well_formed (open_shards_ m) ->
  shard_ids (open_shards_ m) = Ok ids ->
  end_hash_key_to_shard_id_ m = [] ->
  exists m',
    build_minimal_disjoint_hashranges m = Ret tt m'
    /\ (forall i j p q, (i < j)%nat ->
          end_hash_key_to_shard_id_ m' !! i = Some p ->
          end_hash_key_to_shard_id_ m' !! j = Some q ->
          p.1 < q.1)
    /\ (forall j q, end_hash_key_to_shard_id_ m' !! j = Some q ->
          exists shard,
            shard ∈ open_shards_ m
            /\ shard_id_from_str (GetShardId shard) = Ok q.2
            /\ in_range q.1 shard
            /\ forall i p, (i < j)%nat ->
                 end_hash_key_to_shard_id_ m' !! i = Some p ->
                 p.1 < GetStartingHashKey (GetHashKeyRange shard)).
Proof.
  intros Hwf Hids Hindex.
  destruct (build_minimal_disjoint_hashranges_returns m ids Hids) as [m' Hbuild].
  exists m'. split; [done |].
  destruct (build_minimal_disjoint_hashranges_tiling _ _ Hwf Hindex Hbuild) as [low Ht].
  split.
  - intros i j p q Hij Hp Hq.
    destruct (tiling_lookup _ _ _ Ht j q Hq) as (shard & (_ & _ & [Hr _] & _) & _ & Hbefore).
    specialize (Hbefore i p Hij Hp). lia.
  - intros j q Hq.
    destruct (tiling_lookup _ _ _ Ht j q Hq) as (shard & (Hin & Hid & Hr & _) & _ & Hbefore).
    by exists shard.
Qed.

Lemma index_is_ascending_and_disjoint_witness :
  exists m',
    build_minimal_disjoint_hashranges staged_example = Ret tt m'
    /\ (forall i j p q, (i < j)%nat ->
          end_hash_key_to_shard_id_ m' !! i = Some p ->
          end_hash_key_to_shard_id_ m' !! j = Some q ->
          p.1 < q.1)
    /\ (forall j q, end_hash_key_to_shard_id_ m' !! j = Some q ->
          exists shard,
            shard ∈ open_shards_ staged_example
            /\ shard_id_from_str (GetShardId shard) = Ok q.2
            /\ in_range q.1 shard
            /\ forall i p, (i < j)%nat ->
                 end_hash_key_to_shard_id_ m' !! i = Some p ->
                 p.1 < GetStartingHashKey (GetHashKeyRange shard)).
Proof.
  apply (index_is_ascending_and_disjoint staged_example [0; 1; 3; 4; 5; 6; 7]%N).
  - replace (open_shards_ staged_example) with lineage_example by (by vm_compute).
    apply lineage_example_well_formed.
  - by vm_compute.
  - by vm_compute.
Defined.

(** X3: under the same conditions every index entry [(e, id)] names a
    staged shard that contains [e] and starts at least as high as any
    other staged shard containing [e]: where ranges overlap, the bucket
    that ends at [e] goes to a narrowest shard (the comparator breaks ties
    between equal ends by the start). *)
Theorem index_prefers_narrowest_shard m ids :
  Forall well_formed (open_shards_ m) ->
  shard_ids (open_shards_ m) = Ok ids ->
  end_hash_key_to_shard_id_ m = [] ->
  exists m',
    build_minimal_disjoint_hashranges m = Ret tt m'
    /\ forall e id, (e, id) ∈ end_hash_key_to_shard_id_ m' ->
         exists shard,
           shard ∈ open_shards_ m
           /\ shard_id_from_str (GetShardId shard) = Ok id
           /\ in_range e shard
           /\ forall other, other ∈ open_shards_ m -> in_range e other ->
                GetStartingHashKey (GetHashKeyRange other)
                <= GetStartingHashKey (GetHashKeyRange shard).
Proof.
  intros Hwf Hids Hindex.
  destruct (build_minimal_disjoint_hashranges_returns m ids Hids) as [m' Hbuild].
  exists m'. split; [done |].
  destruct (build_minimal_disjoint_hashranges_tiling _ _ Hwf Hindex Hbuild) as [low Ht].
  intros e id [j Hj]%list_elem_of_lookup.
  destruct (tiling_lookup _ _ _ Ht j _ Hj) as (shard & Hnarrow & _).
  by exists shard.
Qed.

Lemma index_prefers_narrowest_shard_witness :
  exists m',
    build_minimal_disjoint_hashranges staged_example = Ret tt m'
    /\ forall e id, (e, id) ∈ end_hash_key_to_shard_id_ m' ->
         exists shard,
           shard ∈ open_shards_ staged_example
           /\ shard_id_from_str (GetShardId shard) = Ok id
           /\ in_range e shard
           /\ forall other, other ∈ open_shards_ staged_example -> in_range e other ->
                GetStartingHashKey (GetHashKeyRange other)
                <= GetStartingHashKey (GetHashKeyRange shard).
Proof.
  apply (index_prefers_narrowest_shard staged_example [0; 1; 3; 4; 5; 6; 7]%N).
  - replace (open_shards_ staged_example) with lineage_example by (by vm_compute).
    apply lineage_example_well_formed.
  - by vm_compute.
  - by vm_compute.
Defined.

(** ** The index across refreshes *)

(** The ids in the index are ids of queued ranges. *)
Lemma drain_heap_ids (ids : gset N) fuel : forall q last emitted index,
  Forall (fun r => sr_shard_id r ∈ ids) q ->
  Forall (fun p : Z * N => p.2 ∈ ids) emitted ->
  drain_heap fuel q last emitted = Some index ->
  Forall (fun p : Z * N => p.2 ∈ ids) index.
Proof.
  induction fuel as [|fuel IH]; intros q last emitted index Hq Hemitted Hrun;
    rewrite drain_heap_unfold in Hrun; cbv zeta in Hrun;
    (destruct (priority_queue.top q) as [shard|] eqn:Htop;
     [| by injection Hrun as <-]);
    [done |].
  pose proof (pop_top MaxHeapComparator q shard Htop) as Hperm.
  rewrite <- Hperm in Hq. apply Forall_app in Hq as [Hq' Hshard].
  apply Forall_inv in Hshard.
  destruct (sr_end shard <? last).
  - eapply IH; [exact Hq' | | exact Hrun].
    apply Forall_app. split; [done |]. by constructor.
  - destruct (sr_start shard <? last).
    + eapply IH; [| exact Hemitted | exact Hrun].
      rewrite push_Permutation. by constructor.
    + by eapply IH.
Qed.

Lemma build_minimal_disjoint_hashranges_ids m m' ids :
  shard_ids (open_shards_ m) = Ok ids ->
  end_hash_key_to_shard_id_ m = [] ->
  build_minimal_disjoint_hashranges m = Ret tt m' ->
  Forall (fun p : Z * N => p.2 ∈ (list_to_set ids : gset N)) (end_hash_key_to_shard_id_ m').
Proof.
  intros Hids Hindex Hbuild.
  destruct (open_shards_ m) as [|s0 rest] eqn:Hopen.
  { revert Hbuild. unfold build_minimal_disjoint_hashranges. unfold_monad.
    rewrite Hopen. intros [= <-]. by rewrite Hindex. }
  rewrite <- Hopen in *.
  apply build_minimal_disjoint_hashranges_index in Hbuild
    as (q & index & Hfill & Hdrain & ->); [| by rewrite Hopen].
  rewrite Hindex in Hdrain.
  destruct (fill_heap_spec _ _ _ Hfill) as [_ Hmem].
  assert (Forall (fun p : Z * N => p.2 ∈ (list_to_set ids : gset N)) index) as Hall.
  { eapply drain_heap_ids; [| | exact Hdrain]; [| done].
    apply Forall_forall. intros r [[]%elem_of_nil | (s & id & Hs & Hid & ->)]%Hmem.
    cbn. apply elem_of_list_to_set. apply (shard_ids_elem _ _ _ Hids). by exists s. }
  rewrite Forall_forall in Hall. apply Forall_forall.
  intros p Hp%list_elem_of_In%in_rev%list_elem_of_In. by apply Hall.
Qed.

Lemma list_to_set_ids_app (ids0 ids : list N) :
  (list_to_set ids ∪ list_to_set ids0 : gset N) = list_to_set (ids0 ++ ids).
Proof. rewrite list_to_set_app_L. apply (comm_L (∪)). Qed.

Lemma index_invariant_cleared m' :
  state_ m' = UPDATING ->
  open_shards_ m' = [] ->
  open_shard_ids_ m' = ∅ ->
  end_hash_key_to_shard_id_ m' = [] ->
  index_invariant m'.
Proof.
  intros Hst Hopen Hids Hindex. unfold index_invariant.
  rewrite Hst, Hopen, Hids, Hindex. split; [by exists [] |]. split; [done |]. done.
Qed.

Lemma index_invariant_update m m' :
  index_invariant m -> update m = Ret tt m' -> index_invariant m'.
Proof.
  intros Hinv H. rewrite update_eq in H.
  destruct (State_eqb (state_ m) UPDATING); injection H as <-; [done |].
  apply index_invariant_cleared; by destruct m.
Qed.

Lemma index_invariant_executor ex m :
  index_invariant m -> index_invariant (set_executor_ ex m).
Proof. by destruct m. Qed.

Lemma handle_index_invariant ev m m' :
  engine_invariant m ->
  index_invariant m ->
  handle ev m = Some (Ret tt m') ->
  index_invariant m'.
Proof.
  intros (Hk & _ & _) Hinv H.
  destruct ev as [now [code msg|shards token] | h | seen pred | now]; cbn [handle] in H.
  - (* a failed page *)
    destruct (kinesis_client_ m) as [|r rest] eqn:Hkin; [done |].
    destruct (outstanding_request _ _ _ Hk) as [Hst ->].
    injection H as H. unfold list_shards_callback in H.
    rewrite update_fail_eq in H. injection H as <-.
    destruct Hinv as (Hids & Hempty & _).
    assert (end_hash_key_to_shard_id_ m = []) as Hindex by (apply Hempty; by rewrite Hst).
    clear Hempty Hkin Hk.
    destruct m as [ex kin ? ? st ? ? ? ? ? ? mn mx bo ? [h|]];
      unfold index_invariant; proj_simpl; subst; done.
  - destruct (kinesis_client_ m) as [|r rest] eqn:Hkin; [done |].
    destruct (outstanding_request _ _ _ Hk) as [Hst ->].
    injection H as H.
    fold_callback H now shards token.
    destruct Hinv as ((ids0 & Hids0 & Hopen0) & Hempty & _).
    assert (end_hash_key_to_shard_id_ m = []) as Hindex by (apply Hempty; by rewrite Hst).
    clear Hempty Hk.
    destruct token as [|c token].
    + (* the final page *)
      apply list_shards_callback_final_build in H as (ids & m3 & Hids & Hbuild & ->).
      set (m2 := staged shards ids (set_kinesis_client_ [] m)) in *.
      assert (Hopen2 : open_shards_ m2 = open_shards_ m ++ shards) by (by destruct m).
      assert (Hindex2 : end_hash_key_to_shard_id_ m2 = []) by (by destruct m).
      assert (Hset2 : open_shard_ids_ m2 = list_to_set (ids0 ++ ids)).
      { rewrite <- list_to_set_ids_app, <- Hopen0. by destruct m. }
      assert (Hids2 : shard_ids (open_shards_ m2) = Ok (ids0 ++ ids)).
      { rewrite Hopen2. by apply shard_ids_app. }
      pose proof (build_minimal_disjoint_hashranges_ids _ _ _ Hids2 Hindex2 Hbuild) as Hfrom.
      pose proof (fun Hwf => build_minimal_disjoint_hashranges_tiling _ _ Hwf Hindex2 Hbuild)
        as Htiling.
      pose proof (fun max_end Hwf Hcov =>
                    build_minimal_disjoint_hashranges_serves _ _ max_end Hwf Hcov Hindex2 Hbuild)
        as Hserves.
      destruct (build_minimal_disjoint_hashranges_inv _ _ Hbuild)
        as (index & cache & flag & Hm3 & _ & Hcached & _).
      assert (Hopen3 : open_shards_ m3 = open_shards_ m2) by (rewrite Hm3; by destruct m2).
      assert (Hset3 : open_shard_ids_ m3 = open_shard_ids_ m2) by (rewrite Hm3; by destruct m2).
      assert (Hcache3 : shard_id_to_shard_cache_ m3 = cache) by (rewrite Hm3; by destruct m2).
      clearbody m2. clear Hm3 Hbuild.
      unfold index_invariant.
      replace (open_shards_ (set_updated_at_ now (set_state_ READY m3)))
        with (open_shards_ m2) by (rewrite <- Hopen3; by destruct m3).
      replace (open_shard_ids_ (set_updated_at_ now (set_state_ READY m3)))
        with (open_shard_ids_ m2) by (rewrite <- Hset3; by destruct m3).
      replace (end_hash_key_to_shard_id_ (set_updated_at_ now (set_state_ READY m3)))
        with (end_hash_key_to_shard_id_ m3) by (by destruct m3).
      replace (shard_id_to_shard_cache_ (set_updated_at_ now (set_state_ READY m3)))
        with cache by (rewrite <- Hcache3; by destruct m3).
      replace (state_ (set_updated_at_ now (set_state_ READY m3)))
        with READY by (by destruct m3).
      split; [by exists (ids0 ++ ids) |]. split; [done |]. intros _.
      split; [by rewrite Hset2 |]. split.
      * intros id Hid. rewrite Hset2 in Hid. apply elem_of_list_to_set in Hid.
        apply (shard_ids_elem _ _ _ Hids2) in Hid as (shard & Hin & Hparse).
        by eapply Hcached.
      * intros Hwf. split; [by apply Htiling |].
        intros max_end Hcov. by apply Hserves.
    + (* a page with a continuation token *)
      destruct (list_shards_callback_success_inv _ _ _ _ _ H) as [ids Hids].
      rewrite (list_shards_callback_next_page _ _ _ ids) in H; [| done | done].
      injection H as <-.
      pose proof (shard_ids_app _ _ _ _ Hids0 Hids) as Happ.
      pose proof (list_to_set_ids_app ids0 ids) as Hset.
      clear Hkin.
      destruct m; unfold index_invariant; proj_simpl; subst.
      split; [by exists (ids0 ++ ids) |]. split; [done |]. done.
  - destruct (executor_ m !! h) as [[d|]|] eqn:Hh; try done.
    injection H as H. eapply index_invariant_update; [| exact H].
    by apply index_invariant_executor.
  - injection H as H. rewrite invalidate_eq in H.
    destruct (_ && _ && _); [by eapply index_invariant_update | by injection H as <-].
  - injection H as H. rewrite cleanup_eq in H.
    destruct (_ && _ && _) eqn:Hcond; injection H as <-; [| done].
    destruct Hinv as (Hids & Hempty & Hready).
    clear Hk.
    destruct m; unfold index_invariant; proj_simpl; subst.
    split; [done |]. split; [done |]. intros Hst.
    destruct (Hready Hst) as (Hfrom & Hcached & Hrest).
    split; [done |]. split; [| done].
    intros id Hid. destruct (Hcached id Hid) as [d Hd].
    exists d. by apply map_lookup_filter_Some.
Qed.

Lemma run_index_invariant evs : forall m m',
  engine_invariant m -> index_invariant m -> run evs m = Some m' -> index_invariant m'.
Proof.
  induction evs as [|ev evs IH]; intros m m' Heng Hinv H; cbn in H.
  - by injection H as <-.
  - destruct (handle ev m) as [[[] m1| |]|] eqn:Hev; try done.
    eapply IH; [| | done].
    + by eapply handle_engine_invariant.
    + by eapply handle_index_invariant.
Qed.

Lemma reachable_index_invariant minb maxb m :
  reachable minb maxb m -> index_invariant m.
Proof.
  intros (stream & arn & ttl & flag & m0 & evs & Hc & Hrun).
  eapply run_index_invariant; [| | done].
  - by eapply construct_engine_invariant.
  - rewrite construct_eq in Hc. injection Hc as <-.
    by apply index_invariant_cleared.
Qed.

(** X4: in every reachable state the index is empty unless the state is
    READY, and an id that [shard_id] returns is in the open set and is
    resolved by [get_shard] to a descriptor whose id string parses to that
    id. *)
Theorem lookup_result_is_cached minb maxb m :
  reachable minb maxb m ->
  (state_ m <> READY -> end_hash_key_to_shard_id_ m = [])
  /\ forall try_lock hash_key id,
       shard_id try_lock hash_key m = Some id ->
       id ∈ open_shard_ids_ m
       /\ exists shard,
            get_shard id m = Some shard
            /\ shard_id_from_str (GetShardId shard) = Ok id.
Proof.
  intros Hreach.
  pose proof (reachable_engine_invariant _ _ _ Hreach) as (_ & _ & Hkeys).
  pose proof (reachable_index_invariant _ _ _ Hreach) as (_ & Hempty & Hready).
  split; [done |]. intros try_lock hash_key id. unfold shard_id.
  destruct try_lock; [| done]. cbn [andb].
  destruct (state_ m) eqn:Hst; cbn [State_eqb]; try done.
  destruct (Hready eq_refl) as (Hfrom & Hcached & _).
  destruct (end_hash_key_to_shard_id_ m !! _) as [entry|] eqn:Hentry; [| done].
  intros [= <-].
  apply list_elem_of_lookup_2 in Hentry.
  rewrite Forall_forall in Hfrom. specialize (Hfrom _ Hentry).
  split; [done |].
  destruct (Hcached _ Hfrom) as [shard Hshard].
  exists shard. split; [done |]. by apply Hkeys.
Qed.

Lemma lookup_result_is_cached_witness :
  (state_ ready_example <> READY -> end_hash_key_to_shard_id_ ready_example = [])
  /\ forall try_lock hash_key id,
       shard_id try_lock hash_key ready_example = Some id ->
       id ∈ open_shard_ids_ ready_example
       /\ exists shard,
            get_shard id ready_example = Some shard
            /\ shard_id_from_str (GetShardId shard) = Ok id.
Proof.
  apply (lookup_result_is_cached kMinBackoff kMaxBackoff ready_example).
  apply ready_example_reachable.
Defined.

(** X5: containment in every reachable READY state, however many pages the
    listing came in: if the staged shards have proper ranges and cover
    [0, max_end], where [max_end] is their largest ending hash key, then
    every hash key up to [max_end] other than the largest 128-bit value is
    mapped to a staged shard whose range contains it, and every hash key
    above [max_end], as well as the largest 128-bit value, is mapped to
    nothing. *)
Theorem ready_lookup_contained minb maxb m max_end :
  reachable minb maxb m ->
  state_ m = READY ->
  Forall well_formed (open_shards_ m) ->
  covers (open_shards_ m) max_end ->
  (forall hash_key, 0 <= hash_key <= max_end -> hash_key < uint128_max ->
     exists id shard,
       shard_id true hash_key m = Some id
       /\ shard ∈ open_shards_ m
       /\ shard_id_from_str (GetShardId shard) = Ok id
       /\ in_range hash_key shard)
  /\ (forall hash_key, max_end < hash_key \/ hash_key = uint128_max ->
        shard_id true hash_key m = None).
Proof.
  intros Hreach Hst Hwf Hcov.
  pose proof (reachable_index_invariant _ _ _ Hreach) as (_ & _ & Hready).
  destruct (Hready Hst) as (_ & _ & Hbuilt).
  destruct (Hbuilt Hwf) as [[low Ht] Hserves].
  destruct (Hserves max_end Hcov) as [Hle Hserved].
  pose proof (tiling_ascending _ _ _ Ht) as Hasc.
  split.
  - intros key Hkey Hsentinel.
    destruct (Hserved key) as (entry & shard & Hfind & Hin & Hid & Hrange).
    { unfold servable. lia. }
    exists entry.2, shard. split; [| done].
    by rewrite shard_id_find_entry, Hfind.
  - intros key Hkey. rewrite shard_id_find_entry by done.
    rewrite find_entry_none; [done |].
    eapply Forall_impl; [exact Hle |]. cbn. intros p Hp.
    unfold servable in Hp. lia.
Qed.

Lemma ready_lookup_contained_witness :
  (forall hash_key, 0 <= hash_key <= 10 -> hash_key < uint128_max ->
     exists id shard,
       shard_id true hash_key ready_example = Some id
       /\ shard ∈ open_shards_ ready_example
       /\ shard_id_from_str (GetShardId shard) = Ok id
       /\ in_range hash_key shard)
  /\ (forall hash_key, 10 < hash_key \/ hash_key = uint128_max ->
        shard_id true hash_key ready_example = None).
Proof.
  apply (ready_lookup_contained kMinBackoff kMaxBackoff ready_example 10).
  - apply ready_example_reachable.
  - by vm_compute.
  - replace (open_shards_ ready_example) with lineage_example by (by vm_compute).
    apply lineage_example_well_formed.
  - replace (open_shards_ ready_example) with lineage_example by (by vm_compute).
    apply lineage_example_covers.
Defined.

(** ** Termination and exceptions *)

Lemma fill_heap_throw shards : forall q e,
  shard_ids shards = Throw e -> fill_heap shards q = Throw e.
Proof.
  induction shards as [|shard rest IH]; intros q e H; [by cbn in H |].
  cbn [shard_ids fill_heap] in *.
  destruct (shard_id_from_str (GetShardId shard)) as [id|]; cbn [result_bind] in *;
    [| by injection H as ->].
  apply IH. by destruct (shard_ids rest).
Qed.

Lemma store_shards_total shards : forall m, store_shards shards m <> Diverge.
Proof.
  induction shards as [|shard rest IH]; intros m; [done |].
  cbn [store_shards]. unfold_monad.
  destruct (shard_id_from_str (GetShardId shard)) as [id|]; [| done].
  match goal with
  | |- context [store_shards rest ?m1] =>
      specialize (IH m1); by destruct (store_shards rest m1) as [[] ?| |]
  end.
Qed.

Lemma build_minimal_disjoint_hashranges_throw m e :
  shard_ids (open_shards_ m) = Throw e ->
  build_minimal_disjoint_hashranges m = Raise e m.
Proof.
  intros H. unfold build_minimal_disjoint_hashranges. unfold_monad.
  destruct (open_shards_ m) as [|s0 rest] eqn:Hopen; [done |].
  by rewrite (fill_heap_throw _ _ _ H).
Qed.

(** X6: on staged shards with proper ranges (so that the conversion of
    their hash keys returns) the loop of
    [build_minimal_disjoint_hashranges] terminates, whatever the index
    holds: the function returns normally when all ids of the staged shards
    parse, and otherwise leaves with the parse exception of the first bad
    id and the object untouched; neither it nor [list_shards_callback],
    given a page of shards with proper ranges, runs forever. *)
Theorem reconciler_terminates :
  (forall m ids,
     Forall well_formed (open_shards_ m) ->
     shard_ids (open_shards_ m) = Ok ids ->
     exists m', build_minimal_disjoint_hashranges m = Ret tt m')
  /\ (forall m e,
        Forall well_formed (open_shards_ m) ->
        shard_ids (open_shards_ m) = Throw e ->
        build_minimal_disjoint_hashranges m = Raise e m)
  /\ (forall m,
        Forall well_formed (open_shards_ m) ->
        build_minimal_disjoint_hashranges m <> Diverge)
  /\ (forall now outcome m,
        match outcome with
        | Success shards _ => Forall well_formed (open_shards_ m ++ shards)
        | Failure _ _ => True
        end ->
        list_shards_callback now outcome m <> Diverge).
Proof.
  assert (Hbuild : forall m, build_minimal_disjoint_hashranges m <> Diverge).
  { intros m. destruct (shard_ids (open_shards_ m)) as [ids|e] eqn:Hids.
    - by destruct (build_minimal_disjoint_hashranges_returns m ids Hids) as [m' ->].
    - by rewrite (build_minimal_disjoint_hashranges_throw m e Hids). }
  split; [intros m ids _; apply build_minimal_disjoint_hashranges_returns |].
  split; [intros m e _; apply build_minimal_disjoint_hashranges_throw |].
  split; [intros m _; apply Hbuild |].
  intros now [code msg|shards token] m _.
  - unfold list_shards_callback. by rewrite update_fail_eq.
  - unfold list_shards_callback, bind at 1.
    pose proof (store_shards_total shards m) as Hstore.
    destruct (store_shards shards m) as [[] m1| |]; [| done | done].
    unfold list_shards. unfold_monad.
    destruct (negb (string_empty token)); [done |].
    match goal with
    | |- context [build_minimal_disjoint_hashranges ?m2] =>
        specialize (Hbuild m2); by destruct (build_minimal_disjoint_hashranges m2) as [[] ?| |]
    end.
Qed.

Lemma reconciler_terminates_witness :
  (exists m', build_minimal_disjoint_hashranges staged_example = Ret tt m')
  /\ build_minimal_disjoint_hashranges
       (set_open_shards_ [mkShard "shardId-x" 0 5] started_example)
     = Raise invalid_argument (set_open_shards_ [mkShard "shardId-x" 0 5] started_example).
Proof.
  destruct reconciler_terminates as (Hret & Hraise & _).
  split.
  - apply (Hret staged_example [0; 1; 3; 4; 5; 6; 7]%N); [| by vm_compute].
    replace (open_shards_ staged_example) with lineage_example by (by vm_compute).
    apply lineage_example_well_formed.
  - apply Hraise; [| by vm_compute].
    repeat constructor; by vm_compute.
Defined.

Lemma store_shards_throw shards : forall m e,
  shard_ids shards = Throw e ->
  exists good bad rest ids,
    shards = good ++ bad :: rest
    /\ shard_ids good = Ok ids
    /\ shard_id_from_str (GetShardId bad) = Throw e
    /\ store_shards shards m =
         Raise e (set_open_shard_ids_ (list_to_set ids ∪ open_shard_ids_ m)
                    (set_open_shards_ (open_shards_ m ++ good ++ [bad]) m)).
Proof.
  induction shards as [|shard rest IH]; intros m e H; [by cbn in H |].
  cbn [shard_ids] in H. cbn [store_shards]. unfold_monad.
  destruct (shard_id_from_str (GetShardId shard)) as [id|e'] eqn:Hid.
  - cbn [result_bind] in H.
    assert (shard_ids rest = Throw e) as Hrest by (by destruct (shard_ids rest)).
    match goal with
    | |- context [store_shards rest ?m1] =>
        destruct (IH m1 e Hrest) as (good & bad & rest' & ids & -> & Hgood & Hbad & ->)
    end.
    exists (shard :: good), bad, rest', (id :: ids).
    split; [done |]. split; [by cbn; rewrite Hid, Hgood |]. split; [done |].
    record_eq m. do 2 f_equal.
    + by rewrite <- app_assoc.
    + set_solver.
  - injection H as <-. exists [], shard, rest, [].
    split; [done |]. split; [done |]. split; [done |].
    record_eq m. do 2 f_equal. set_solver.
Qed.

(** X7: a page with a shard id that does not parse makes
    [list_shards_callback] leave with the parse exception.  The shards up
    to and including the bad one are already in the staging buffer, the
    ids before it are in the open set; the state, the backoff, the index,
    the executor and the queue of requests are as before: no retry is
    scheduled and no further page is requested. *)
Theorem unparsable_shard_id_aborts_page now shards token m e :
  shard_ids shards = Throw e ->
  exists good bad rest ids m',
    shards = good ++ bad :: rest
    /\ shard_ids good = Ok ids
    /\ shard_id_from_str (GetShardId bad) = Throw e
    /\ list_shards_callback now (Success shards token) m = Raise e m'
    /\ m' = set_open_shard_ids_ (list_to_set ids ∪ open_shard_ids_ m)
              (set_open_shards_ (open_shards_ m ++ good ++ [bad]) m)
    /\ state_ m' = state_ m
    /\ backoff_ m' = backoff_ m
    /\ kinesis_client_ m' = kinesis_client_ m
    /\ executor_ m' = executor_ m
    /\ scheduled_callback_ m' = scheduled_callback_ m
    /\ end_hash_key_to_shard_id_ m' = end_hash_key_to_shard_id_ m.
Proof.
  intros H.
  destruct (store_shards_throw shards m e H) as (good & bad & rest & ids & Hs & Hgood & Hbad & Hst).
  exists good, bad, rest, ids. eexists.
  split; [done |]. split; [done |]. split; [done |].
  split; [unfold list_shards_callback, bind at 1; by rewrite Hst |].
  split; [done |]. by destruct m.
Qed.

Lemma unparsable_shard_id_aborts_page_witness :
  exists good bad rest ids m',
    [mkShard "shardId-000000000001" 0 5; mkShard "shardId-x" 6 10] = good ++ bad :: rest
    /\ shard_ids good = Ok ids
    /\ shard_id_from_str (GetShardId bad) = Throw invalid_argument
    /\ list_shards_callback 9
         (Success [mkShard "shardId-000000000001" 0 5; mkShard "shardId-x" 6 10] EmptyString)
         started_example = Raise invalid_argument m'
    /\ m' = set_open_shard_ids_ (list_to_set ids ∪ open_shard_ids_ started_example)
              (set_open_shards_ (open_shards_ started_example ++ good ++ [bad])
                 started_example)
    /\ state_ m' = state_ started_example
    /\ backoff_ m' = backoff_ started_example
    /\ kinesis_client_ m' = kinesis_client_ started_example
    /\ executor_ m' = executor_ started_example
    /\ scheduled_callback_ m' = scheduled_callback_ started_example
    /\ end_hash_key_to_shard_id_ m' = end_hash_key_to_shard_id_ started_example.
Proof.
  apply (unparsable_shard_id_aborts_page 9
           [mkShard "shardId-000000000001" 0 5; mkShard "shardId-x" 6 10]
           EmptyString started_example invalid_argument).
  by vm_compute.
Defined.

(** X8: in a reachable state that waits for a page, a successful page
    whose shards, like those staged before it, have proper ranges is taken
    in (the callback returns normally, whether or not the page is the last
    one) if and only if all its shard ids parse: the ids staged by earlier
    pages never make the reconciler throw. *)
Theorem page_is_accepted_iff_ids_parse minb maxb m now shards token :
  reachable minb maxb m ->
  state_ m = UPDATING ->
  Forall well_formed (open_shards_ m ++ shards) ->
  (exists m', run [ListShardsCompleted now (Success shards token)] m = Some m')
  <-> exists ids, shard_ids shards = Ok ids.
Proof.
  intros Hreach Hst _.
  pose proof (reachable_engine_invariant _ _ _ Hreach) as (Hk & _ & _).
  pose proof (reachable_index_invariant _ _ _ Hreach) as ((ids0 & Hids0 & _) & _ & _).
  rewrite Hst in Hk. cbn in Hk.
  destruct (kinesis_client_ m) as [|r [|r' rest]] eqn:Hkin; try done.
  split.
  - intros [m' Hrun]. apply run_single in Hrun. cbn [handle] in Hrun.
    rewrite Hkin in Hrun. injection Hrun as Hrun.
    by eapply list_shards_callback_success_inv.
  - intros [ids Hids]. cbn [run handle]. rewrite Hkin.
    destruct token as [|c token].
    + destruct (list_shards_callback_final_returns now shards (set_kinesis_client_ [] m)
                  ids0 ids) as [m' ->]; [by destruct m | done | by eexists].
    + rewrite (list_shards_callback_next_page _ _ _ ids); [by eexists | done | done].
Qed.

Lemma page_is_accepted_iff_ids_parse_witness :
  (exists m', run [ListShardsCompleted 9 (Success lineage_example EmptyString)]
                staged_example = Some m')
  <-> exists ids, shard_ids lineage_example = Ok ids.
Proof.
  apply (page_is_accepted_iff_ids_parse kMinBackoff kMaxBackoff staged_example 9
           lineage_example EmptyString).
  - apply (started_example_reachable
             [ListShardsCompleted 7 (Success lineage_example "token")]).
    by vm_compute.
  - by vm_compute.
  - replace (open_shards_ staged_example) with lineage_example by (by vm_compute).
    apply Forall_app. split; apply lineage_example_well_formed.
Defined.

(** ** The shard cache *)

Lemma cache_shards_lookup shards : forall m m',
  cache_shards shards m = Ret tt m' ->
  forall id,
    shard_id_to_shard_cache_ m' !! id =
      match shard_id_to_shard_cache_ m !! id with
      | Some d => Some d
      | None => first_with_id id shards
      end.
Proof.
  induction shards as [|shard rest IH]; intros m m' H id.
  - injection H as <-. cbn. by destruct (_ !! id).
  - cbn [cache_shards] in H. unfold_monad. cbn [first_with_id].
    destruct (shard_id_from_str (GetShardId shard)) as [i|] eqn:Hi; [| done].
    rewrite (IH _ _ H id).
    replace (shard_id_to_shard_cache_
               (set_shard_id_to_shard_cache_
                  (cache_insert i shard (shard_id_to_shard_cache_ m)) m))
      with (cache_insert i shard (shard_id_to_shard_cache_ m)) by (by destruct m).
    destruct (shard_id_to_shard_cache_ m !! id) as [d|] eqn:Hd.
    + by rewrite (cache_insert_extends _ _ _ _ _ Hd).
    + unfold cache_insert. destruct (N.eqb_spec i id) as [->|Hne].
      * by rewrite Hd, lookup_insert_eq.
      * destruct (shard_id_to_shard_cache_ m !! i); [by rewrite Hd |].
        by rewrite lookup_insert_ne, Hd.
Qed.

Lemma build_minimal_disjoint_hashranges_cache m m' :
  build_minimal_disjoint_hashranges m = Ret tt m' ->
  (forall id,
     shard_id_to_shard_cache_ m' !! id =
       match shard_id_to_shard_cache_ m !! id with
       | Some d => Some d
       | None => first_with_id id (open_shards_ m)
       end)
  /\ shard_cache_needs_cleanup_ m' =
       match open_shards_ m with
       | [] => shard_cache_needs_cleanup_ m
       | _ => true
       end.
Proof.
  unfold build_minimal_disjoint_hashranges. unfold_monad.
  destruct (open_shards_ m) as [|s0 rest] eqn:Hopen.
  - intros [= <-]. split; [| done]. intros id. by destruct (_ !! id).
  - destruct (fill_heap (s0 :: rest) []) as [q|]; [| done].
    destruct (drain_heap _ _ _ _) as [index|]; [| done].
    intros H. split.
    + intros id. rewrite (cache_shards_lookup _ _ _ H id). by destruct m.
    + apply cache_shards_inv in H as (cache & -> & _). by destruct m.
Qed.

(** X9: after a final page [get_shard] answers as before for every id that
    was cached (an entry is never overwritten, even if the listing brings
    another descriptor under that id), and for any other id with the first
    staged shard whose id string parses to it, or with nothing if there is
    none. *)
Theorem refresh_fills_cache now shards m m' :
  list_shards_callback now (Success shards EmptyString) m = Ret tt m' ->
  forall id,
    get_shard id m' =
      match get_shard id m with
      | Some cached => Some cached
      | None => first_with_id id (open_shards_ m ++ shards)
      end.
Proof.
  intros H id.
  apply list_shards_callback_final_build in H as (ids & m3 & Hids & Hbuild & ->).
  apply build_minimal_disjoint_hashranges_cache in Hbuild as [Hcache _].
  unfold get_shard.
  replace (shard_id_to_shard_cache_ (set_updated_at_ now (set_state_ READY m3)))
    with (shard_id_to_shard_cache_ m3) by (by destruct m3).
  rewrite Hcache. by destruct m.
Qed.

Lemma refresh_fills_cache_witness :
  get_shard 7%N ready_example =
    match get_shard 7%N (set_kinesis_client_ [] started_example) with
    | Some cached => Some cached
    | None =>
        first_with_id 7%N
          (open_shards_ (set_kinesis_client_ [] started_example) ++ lineage_example)
    end.
Proof.
  apply (refresh_fills_cache 100 lineage_example (set_kinesis_client_ [] started_example)
           ready_example).
  by vm_compute.
Defined.

(** X10: when a refresh that listed at least one shard completed at [T], a
    janitor pass later than [T + closed_shard_ttl_] keeps exactly the
    cache entries whose id is open: afterwards [get_shard] answers for an
    id if and only if a shard of the last listing has it.  The cleanup
    flag is cleared, and further passes change nothing. *)
Theorem janitor_evicts_closed_shards minb maxb m T shards m1 now :
  reachable minb maxb m ->
  run [ListShardsCompleted T (Success shards EmptyString)] m = Some m1 ->
  open_shards_ m1 <> [] ->
  T + closed_shard_ttl_ m1 < now ->
  exists m2,
    run [JanitorWoke now] m1 = Some m2
    /\ (forall id, get_shard id m2 =
                   if decide (id ∈ open_shard_ids_ m1) then get_shard id m1 else None)
    /\ (forall id, is_Some (get_shard id m2) <->
                   exists shard, shard ∈ open_shards_ m1
                                 /\ shard_id_from_str (GetShardId shard) = Ok id)
    /\ shard_cache_needs_cleanup_ m2 = false
    /\ forall now', run [JanitorWoke now'] m2 = Some m2.
Proof.
  intros Hreach Hrun Hne Hlate.
  pose proof (reachable_run _ _ _ _ _ Hreach Hrun) as Hreach1.
  pose proof (reachable_index_invariant _ _ _ Hreach1) as ((ids & Hids & Hset) & _ & Hready).
  apply run_single in Hrun. cbn [handle] in Hrun.
  destruct (kinesis_client_ m) as [|r rest] eqn:Hkin; [done |].
  injection Hrun as Hrun.
  apply list_shards_callback_final_build in Hrun as (ids' & m3 & Hids' & Hbuild & Hm1).
  pose proof (build_minimal_disjoint_hashranges_cache _ _ Hbuild) as [_ Hflag].
  apply build_minimal_disjoint_hashranges_inv in Hbuild as (index & cache & flag & Hm3 & _).
  assert (Hst1 : state_ m1 = READY) by (rewrite Hm1; by destruct m3).
  assert (Hat1 : updated_at_ m1 = T) by (rewrite Hm1; by destruct m3).
  assert (Hflag1 : shard_cache_needs_cleanup_ m1 = true).
  { replace (shard_cache_needs_cleanup_ m1) with (shard_cache_needs_cleanup_ m3)
      by (rewrite Hm1; by destruct m3).
    rewrite Hflag.
    replace (open_shards_ (staged shards ids' (set_kinesis_client_ rest m)))
      with (open_shards_ m1); [by destruct (open_shards_ m1) |].
    rewrite Hm1, Hm3. by destruct m. }
  clear Hm1 Hm3 Hflag Hkin.
  destruct (Hready Hst1) as (_ & Hcached & _).
  set (m2 := set_shard_cache_needs_cleanup_ false
               (set_shard_id_to_shard_cache_
                  (filter (fun kv : N * Shard => kv.1 ∈ open_shard_ids_ m1)
                     (shard_id_to_shard_cache_ m1)) m1)).
  assert (Hflag2 : shard_cache_needs_cleanup_ m2 = false) by (by destruct m1).
  assert (Hcache2 : shard_id_to_shard_cache_ m2
                    = filter (fun kv : N * Shard => kv.1 ∈ open_shard_ids_ m1)
                        (shard_id_to_shard_cache_ m1)) by (by destruct m1).
  exists m2. split.
  { cbn [run handle]. rewrite cleanup_eq, Hst1, Hat1, Hflag1.
    destruct (Z.ltb_spec (T + closed_shard_ttl_ m1) now); [| lia].
    cbn [andb State_eqb]. reflexivity. }
  clearbody m2.
  assert (Hlookup : forall id,
            get_shard id m2
            = if decide (id ∈ open_shard_ids_ m1) then get_shard id m1 else None).
  { intros id. unfold get_shard. rewrite Hcache2.
    destruct (decide (id ∈ open_shard_ids_ m1)) as [Hin|Hout].
    - destruct (shard_id_to_shard_cache_ m1 !! id) as [d|] eqn:Hd.
      + by apply map_lookup_filter_Some.
      + apply map_lookup_filter_None. by left.
    - apply map_lookup_filter_None. right. intros d _. done. }
  split; [exact Hlookup |]. split.
  { intros id. rewrite Hlookup.
    rewrite <- (shard_ids_elem _ _ id Hids), <- (elem_of_list_to_set (C := gset N)), <- Hset.
    destruct (decide (id ∈ open_shard_ids_ m1)) as [Hin|Hout].
    - split; [done |]. intros _. by apply Hcached.
    - split; [by intros [? ?] | done]. }
  split; [done |].
  intros now'. cbn [run handle]. rewrite cleanup_eq, Hflag2.
  by rewrite andb_false_r.
Qed.

Lemma janitor_evicts_closed_shards_witness :
  exists m2,
    run [JanitorWoke 60101] ready_example = Some m2
    /\ (forall id, get_shard id m2 =
                   if decide (id ∈ open_shard_ids_ ready_example)
                   then get_shard id ready_example else None)
    /\ (forall id, is_Some (get_shard id m2) <->
                   exists shard, shard ∈ open_shards_ ready_example
                                 /\ shard_id_from_str (GetShardId shard) = Ok id)
    /\ shard_cache_needs_cleanup_ m2 = false
    /\ forall now', run [JanitorWoke now'] m2 = Some m2.
Proof.
  apply (janitor_evicts_closed_shards kMinBackoff kMaxBackoff started_example 100
           lineage_example ready_example 60101).
  - by apply (started_example_reachable []).
  - by vm_compute.
  - by vm_compute.
  - by vm_compute.
Defined.

(** X11: a listing without any shard ends the refresh in state READY with
    an empty index, so every lookup returns nothing; the cache and the
    cleanup flag are untouched, so no eviction is scheduled. *)
Theorem empty_listing_leaves_no_index minb maxb m T :
  reachable minb maxb m ->
  state_ m = UPDATING ->
  open_shards_ m = [] ->
  exists m1,
    run [ListShardsCompleted T (Success [] EmptyString)] m = Some m1
    /\ state_ m1 = READY
    /\ updated_at_ m1 = T
    /\ end_hash_key_to_shard_id_ m1 = []
    /\ (forall try_lock hash_key, shard_id try_lock hash_key m1 = None)
    /\ shard_id_to_shard_cache_ m1 = shard_id_to_shard_cache_ m
    /\ shard_cache_needs_cleanup_ m1 = shard_cache_needs_cleanup_ m
    /\ backoff_ m1 = min_backoff_ m.
Proof.
  intros Hreach Hst Hopen.
  pose proof (reachable_engine_invariant _ _ _ Hreach) as (Hk & _ & _).
  pose proof (reachable_index_invariant _ _ _ Hreach) as (_ & Hempty & _).
  assert (Hindex : end_hash_key_to_shard_id_ m = []) by (apply Hempty; by rewrite Hst).
  rewrite Hst in Hk. cbn in Hk.
  destruct (kinesis_client_ m) as [|r [|r' rest]] eqn:Hkin; try done.
  clear Hreach Hempty Hk.
  destruct m; cbn in *; subst.
  eexists. split; [reflexivity |]. cbn.
  repeat split. intros try_lock hash_key. unfold shard_id. cbn.
  by destruct try_lock.
Qed.

Lemma empty_listing_leaves_no_index_witness :
  exists m1,
    run [ListShardsCompleted 5 (Success [] EmptyString)] started_example = Some m1
    /\ state_ m1 = READY
    /\ updated_at_ m1 = 5
    /\ end_hash_key_to_shard_id_ m1 = []
    /\ (forall try_lock hash_key, shard_id try_lock hash_key m1 = None)
    /\ shard_id_to_shard_cache_ m1 = shard_id_to_shard_cache_ started_example
    /\ shard_cache_needs_cleanup_ m1 = shard_cache_needs_cleanup_ started_example
    /\ backoff_ m1 = min_backoff_ started_example.
Proof.
  apply (empty_listing_leaves_no_index kMinBackoff kMaxBackoff started_example 5).
  - by apply (started_example_reachable []).
  - reflexivity.
  - reflexivity.
Defined.

(** ** The backoff for any configuration *)

Lemma flat_backoff_step b hi : 0 <= b <= 1 -> b <= hi -> Z.min (Z.quot (b * 3) 2) hi = b.
Proof.
  intros Hb Hhi. assert (b = 0 \/ b = 1) as [-> | ->] by lia.
  - change (Z.quot (0 * 3) 2) with 0. lia.
  - change (Z.quot (1 * 3) 2) with 1. lia.
Qed.

Lemma handle_flat_backoff_invariant minb maxb ev m m' :
  0 <= minb <= 1 -> minb <= maxb ->
  backoff_invariant minb maxb m ->
  flat_backoff_invariant minb m ->
  handle ev m = Some (Ret tt m') ->
  flat_backoff_invariant minb m'.
Proof.
  intros Hb Hle (Hmin & Hmax & _ & _) (Hbo & Hex) H.
  destruct ev as [now [code msg|shards token] | h | seen pred | now]; cbn [handle] in H.
  - destruct (kinesis_client_ m) as [|r rest] eqn:Hkin; [done |].
    injection H as H. unfold list_shards_callback in H.
    rewrite update_fail_eq in H. injection H as <-.
    pose proof (flat_backoff_step minb maxb Hb Hle) as Hstep.
    destruct m as [ex kin ? ? st ? ? ? ? ? ? mn mx bo ? [h|]];
      unfold flat_backoff_invariant; proj_simpl; subst;
      (split; [done |]).
    + apply Forall_insert; [done | by right].
    + apply Forall_app. split; [done |]. constructor; [by right | done].
  - destruct (kinesis_client_ m) as [|r rest] eqn:Hkin; [done |].
    injection H as H.
    fold_callback H now shards token.
    destruct token as [|c token].
    + apply list_shards_callback_final_inv in H
        as (ids & index & cache & flag & _ & -> & _).
      destruct m; unfold flat_backoff_invariant; proj_simpl; subst. done.
    + destruct (list_shards_callback_success_inv _ _ _ _ _ H) as [ids Hids].
      rewrite (list_shards_callback_next_page _ _ _ ids) in H; [| done | done].
      injection H as <-.
      destruct m; unfold flat_backoff_invariant; proj_simpl; subst. done.
  - destruct (executor_ m !! h) as [[d|]|] eqn:Hh; try done.
    injection H as H. rewrite update_eq in H.
    destruct m as [ex kin ? ? st ? ? ? ? ? ? mn mx bo ? [h'|]];
      unfold flat_backoff_invariant; proj_simpl; subst;
      destruct st; cbn in *; injection H as <-; cbn;
      (split; [done |]);
      repeat (apply Forall_insert; [| by left]); done.
  - injection H as H. rewrite invalidate_eq in H.
    destruct (_ && _ && _) eqn:Hcond; [| by injection H as <-].
    rewrite update_eq in H.
    destruct m as [ex kin ? ? st ? ? ? ? ? ? mn mx bo ? [h'|]];
      unfold flat_backoff_invariant; proj_simpl; subst;
      destruct st; cbn in *; injection H as <-; cbn;
      (split; [done |]);
      repeat (apply Forall_insert; [| by left]); done.
  - injection H as H. rewrite cleanup_eq in H.
    destruct (_ && _ && _); injection H as <-; [| done].
    destruct m; unfold flat_backoff_invariant; proj_simpl; subst. done.
Qed.

Lemma run_flat_backoff_invariant minb maxb evs : forall m m',
  0 <= minb <= 1 -> minb <= maxb ->
  backoff_invariant minb maxb m ->
  flat_backoff_invariant minb m ->
  run evs m = Some m' ->
  flat_backoff_invariant minb m'.
Proof.
  induction evs as [|ev evs IH]; intros m m' Hb Hle Hinv Hflat H; cbn in H.
  - by injection H as <-.
  - destruct (handle ev m) as [[[] m1| |]|] eqn:Hev; try done.
    eapply IH; [done | done | | | done].
    + eapply handle_backoff_invariant; [lia | done | done].
    + by eapply handle_flat_backoff_invariant.
Qed.

(** X12: for every configuration with 0 <= min_backoff <= max_backoff and
    max_backoff small enough for [backoff_ * 3] to fit 64 bits, in every
    reachable state the backoff and every armed delay lie between
    [min_backoff] and [max_backoff], and the multiplication does not
    overflow.  If [min_backoff] is at most one millisecond the backoff never
    grows ([1 * 3 / 2] is 1): it is [min_backoff] in every reachable state,
    and so is every armed delay. *)
Theorem backoff_stays_within_bounds minb maxb m :
  0 <= minb <= maxb ->
  maxb * 3 < 2 ^ 63 ->
  reachable minb maxb m ->
  minb <= backoff_ m <= maxb
  /\ 0 <= backoff_ m * 3 < 2 ^ 63
  /\ Forall (delay_within minb maxb) (executor_ m)
  /\ (minb <= 1 ->
        backoff_ m = minb
        /\ Forall (fun cb => cb = Done \/ cb = Pending minb) (executor_ m)).
Proof.
  intros Hb Hfit Hreach.
  pose proof (reachable_backoff_invariant _ _ _ Hb Hreach) as (_ & _ & Hbo & Hex).
  split; [done |]. split; [lia |]. split; [done |].
  intros Hflat.
  destruct Hreach as (stream & arn & ttl & flag & m0 & evs & Hc & Hrun).
  rewrite construct_eq in Hc. injection Hc as <-.
  eapply (run_flat_backoff_invariant minb maxb); [lia | lia | | | exact Hrun].
  - unfold backoff_invariant. cbn. repeat split; (lia || done).
  - by split.
Qed.

Lemma backoff_stays_within_bounds_witness :
  1 <= backoff_ one_millisecond_example <= kMaxBackoff
  /\ 0 <= backoff_ one_millisecond_example * 3 < 2 ^ 63
  /\ Forall (delay_within 1 kMaxBackoff) (executor_ one_millisecond_example)
  /\ (1 <= 1 ->
        backoff_ one_millisecond_example = 1
        /\ Forall (fun cb => cb = Done \/ cb = Pending 1)
             (executor_ one_millisecond_example)).
Proof.
  apply (backoff_stays_within_bounds 1 kMaxBackoff one_millisecond_example).
  - by vm_compute.
  - by vm_compute.
  - exists "stream"%string, ""%string, kClosedShardTtl, false, one_millisecond_started,
      [ListShardsCompleted 1 (Failure "InternalFailure" EmptyString);
       TimerFired 0;
       ListShardsCompleted 2 (Failure "InternalFailure" EmptyString)].
    split; [reflexivity | by vm_compute].
Defined.

(** ** The retry timer *)

Lemma handle_timer_invariant ev m m' :
  engine_invariant m ->
  timer_invariant m ->
  handle ev m = Some (Ret tt m') ->
  timer_invariant m'.
Proof.
  intros (Hk & Hs & _) (Hinvalid & Hother) H.
  destruct ev as [now [code msg|shards token] | h | seen pred | now]; cbn [handle] in H.
  - destruct (kinesis_client_ m) as [|r rest] eqn:Hkin; [done |].
    destruct (outstanding_request _ _ _ Hk) as [Hst ->].
    injection H as H. unfold list_shards_callback in H.
    rewrite update_fail_eq in H. injection H as <-.
    clear Hinvalid Hother Hk Hkin.
    destruct m as [ex kin ? ? st ? ? ? ? ? ? mn mx bo ? [h|]];
      unfold timer_invariant; proj_simpl; subst; (split; [| done]); intros _.
    + destruct Hs as [-> Hlen]. destruct ex as [|cb [|? ?]]; try done.
      by eexists.
    + by eexists.
  - destruct (kinesis_client_ m) as [|r rest] eqn:Hkin; [done |].
    destruct (outstanding_request _ _ _ Hk) as [Hst ->].
    injection H as H.
    assert (Hdone : Forall (fun cb => cb = Done) (executor_ m)).
    { apply Hother. by rewrite Hst. }
    fold_callback H now shards token.
    clear Hinvalid Hother Hk Hkin Hs.
    destruct token as [|c token].
    + apply list_shards_callback_final_inv in H
        as (ids & index & cache & flag & _ & -> & _).
      destruct m; unfold timer_invariant; proj_simpl; subst. done.
    + destruct (list_shards_callback_success_inv _ _ _ _ _ H) as [ids Hids].
      rewrite (list_shards_callback_next_page _ _ _ ids) in H; [| done | done].
      injection H as <-.
      destruct m; unfold timer_invariant; proj_simpl; subst. done.
  - destruct (executor_ m !! h) as [[d|]|] eqn:Hh; try done.
    injection H as H. rewrite update_eq in H.
    assert (Hst : state_ m = INVALID).
    { destruct (state_ m); [done | |];
        specialize (Hother ltac:(done)); rewrite Forall_lookup in Hother;
        by specialize (Hother _ _ Hh). }
    destruct (Hinvalid Hst) as (d' & Hex & Hcb).
    rewrite Hex in Hh. destruct h as [|h]; [| done].
    clear Hinvalid Hother Hk Hs Hh.
    destruct m; unfold timer_invariant; proj_simpl; subst.
    cbn in H. injection H as <-. cbn. split; [done |]. intros _.
    by repeat constructor.
  - injection H as H. rewrite invalidate_eq in H.
    destruct (_ && _ && _) eqn:Hcond; [| by injection H as <-].
    apply andb_true_iff in Hcond as [[_ Hready]%andb_true_iff _].
    rewrite update_eq in H.
    assert (Hdone : Forall (fun cb => cb = Done) (executor_ m)).
    { apply Hother. by destruct (state_ m). }
    clear Hinvalid Hother Hk Hs.
    destruct m as [ex kin ? ? st ? ? ? ? ? ? mn mx bo ? [h'|]];
      unfold timer_invariant; proj_simpl; subst;
      destruct st; try done; cbn in *; injection H as <-; cbn;
      (split; [done |]); intros _; [by apply Forall_insert | done].
  - injection H as H. rewrite cleanup_eq in H.
    destruct (_ && _ && _); injection H as <-; [| done].
    destruct m; unfold timer_invariant; proj_simpl; subst. done.
Qed.

Lemma run_timer_invariant evs : forall m m',
  engine_invariant m -> timer_invariant m -> run evs m = Some m' -> timer_invariant m'.
Proof.
  induction evs as [|ev evs IH]; intros m m' Heng Hinv H; cbn in H.
  - by injection H as <-.
  - destruct (handle ev m) as [[[] m1| |]|] eqn:Hev; try done.
    eapply IH; [| | done].
    + by eapply handle_engine_invariant.
    + by eapply handle_timer_invariant.
Qed.

Lemma reachable_timer_invariant minb maxb m :
  reachable minb maxb m -> timer_invariant m.
Proof.
  intros (stream & arn & ttl & flag & m0 & evs & Hc & Hrun).
  eapply run_timer_invariant; [| | done].
  - by eapply construct_engine_invariant.
  - rewrite construct_eq in Hc. injection Hc as <-. split; [done |]. by intros _.
Qed.

(** X13: in every reachable state a retry is pending on the executor
    exactly when the state is INVALID.  When it fires, [update()] starts
    over: the state is UPDATING, the one outstanding request asks for the
    first page, the staging buffer, the open set and the index are empty,
    and the backoff keeps the value the failure left. *)
Theorem retry_pending_iff_invalid minb maxb m :
  reachable minb maxb m ->
  (state_ m = INVALID <-> exists d, executor_ m = [Pending d])
  /\ (state_ m = INVALID ->
        exists m',
          run [TimerFired 0] m = Some m'
          /\ state_ m' = UPDATING
          /\ kinesis_client_ m' = [first_page_request m]
          /\ open_shards_ m' = []
          /\ open_shard_ids_ m' = ∅
          /\ end_hash_key_to_shard_id_ m' = []
          /\ executor_ m' = [Done]
          /\ backoff_ m' = backoff_ m).
Proof.
  intros Hreach.
  pose proof (reachable_engine_invariant _ _ _ Hreach) as (Hk & _ & _).
  pose proof (reachable_timer_invariant _ _ _ Hreach) as (Hinvalid & Hother).
  split.
  - split.
    + intros Hst. destruct (Hinvalid Hst) as (d & Hex & _). by exists d.
    + intros (d & Hex). destruct (state_ m); [done | |];
        specialize (Hother ltac:(done)); rewrite Hex in Hother;
        by apply Forall_inv in Hother.
  - intros Hst. destruct (Hinvalid Hst) as (d & Hex & Hcb).
    rewrite Hst in Hk. cbn in Hk. apply nil_length_inv in Hk.
    clear Hreach Hinvalid Hother.
    destruct m; cbn in *; subst.
    eexists. split; [reflexivity |]. by cbn.
Qed.

Lemma retry_pending_iff_invalid_witness :
  (state_ failed_example = INVALID <-> exists d, executor_ failed_example = [Pending d])
  /\ (state_ failed_example = INVALID ->
        exists m',
          run [TimerFired 0] failed_example = Some m'
          /\ state_ m' = UPDATING
          /\ kinesis_client_ m' = [first_page_request failed_example]
          /\ open_shards_ m' = []
          /\ open_shard_ids_ m' = ∅
          /\ end_hash_key_to_shard_id_ m' = []
          /\ executor_ m' = [Done]
          /\ backoff_ m' = backoff_ failed_example).
Proof.
  apply (retry_pending_iff_invalid kMinBackoff kMaxBackoff failed_example).
  apply (started_example_reachable
           [ListShardsCompleted 1 (Failure "InternalFailure" EmptyString)]).
  by vm_compute.
Defined.

(** ** The requests to the topology client *)

Lemma first_page_request_ok m : request_ok (stream_ m) (stream_arn_ m) (first_page_request m).
Proof.
  split; [done |]. left. unfold first_page_request. cbn.
  by destruct (string_empty (stream_arn_ m)).
Qed.

Lemma next_page_request_ok stream arn token :
  token <> EmptyString -> request_ok stream arn (next_page_request token).
Proof. intros H. split; [done |]. right. by exists token. Qed.

Lemma requests_invariant_update stream arn m m' :
  requests_invariant stream arn m -> update m = Ret tt m' -> requests_invariant stream arn m'.
Proof.
  intros (Hs & Ha & Hreq) H. rewrite update_eq in H.
  destruct (State_eqb (state_ m) UPDATING); injection H as <-; [done |].
  pose proof (first_page_request_ok m) as Hfirst. rewrite Hs, Ha in Hfirst.
  destruct m; unfold requests_invariant in *; proj_simpl.
  split; [done |]. split; [done |]. apply Forall_app. split; [done |]. by constructor.
Qed.

Lemma handle_requests_invariant stream arn ev m m' :
  requests_invariant stream arn m ->
  handle ev m = Some (Ret tt m') ->
  requests_invariant stream arn m'.
Proof.
  intros Hinv H. pose proof Hinv as (Hs & Ha & Hreq).
  destruct ev as [now [code msg|shards token] | h | seen pred | now]; cbn [handle] in H.
  - destruct (kinesis_client_ m) as [|r rest] eqn:Hkin; [done |].
    apply Forall_cons in Hreq as [_ Hrest].
    injection H as H. unfold list_shards_callback in H.
    rewrite update_fail_eq in H. injection H as <-.
    clear Hinv Hkin.
    destruct m as [ex kin ? ? st ? ? ? ? ? ? mn mx bo ? [h|]];
      unfold requests_invariant; proj_simpl; subst; done.
  - destruct (kinesis_client_ m) as [|r rest] eqn:Hkin; [done |].
    apply Forall_cons in Hreq as [_ Hrest].
    injection H as H.
    fold_callback H now shards token.
    clear Hinv Hkin.
    destruct token as [|c token].
    + apply list_shards_callback_final_inv in H
        as (ids & index & cache & flag & _ & -> & _).
      destruct m; unfold requests_invariant; proj_simpl; subst. done.
    + destruct (list_shards_callback_success_inv _ _ _ _ _ H) as [ids Hids].
      rewrite (list_shards_callback_next_page _ _ _ ids) in H; [| done | done].
      injection H as <-.
      pose proof (next_page_request_ok stream arn (String c token) ltac:(done)) as Hnext.
      destruct m; unfold requests_invariant; proj_simpl; subst.
      split; [done |]. split; [done |]. apply Forall_app. split; [done |]. by constructor.
  - destruct (executor_ m !! h) as [[d|]|] eqn:Hh; try done.
    injection H as H. eapply requests_invariant_update; [| exact H].
    by destruct m.
  - injection H as H. rewrite invalidate_eq in H.
    destruct (_ && _ && _); [by eapply requests_invariant_update | by injection H as <-].
  - injection H as H. rewrite cleanup_eq in H.
    destruct (_ && _ && _); injection H as <-; [| done].
    by destruct m.
Qed.

Lemma run_requests_invariant stream arn evs : forall m m',
  requests_invariant stream arn m -> run evs m = Some m' -> requests_invariant stream arn m'.
Proof.
  induction evs as [|ev evs IH]; intros m m' Hinv H; cbn in H.
  - by injection H as <-.
  - destruct (handle ev m) as [[[] m1| |]|] eqn:Hev; try done.
    eapply IH; [| done]. by eapply handle_requests_invariant.
Qed.

(** X14: the stream name and ARN of an object never change, and every
    request it has outstanding asks for at most 1000 results and either
    names the stream (with the ARN exactly when one is configured, and the
    AT_LATEST shard filter) without a token, or carries a non-empty
    continuation token and neither stream name, ARN nor filter. *)
Theorem requests_are_well_formed stream stream_arn min_backoff max_backoff ttl flag m0 evs m :
  construct stream stream_arn min_backoff max_backoff ttl flag = Ret tt m0 ->
  run evs m0 = Some m ->
  stream_ m = stream
  /\ stream_arn_ m = stream_arn
  /\ Forall (request_ok stream stream_arn) (kinesis_client_ m).
Proof.
  intros Hc Hrun. eapply run_requests_invariant; [| exact Hrun].
  rewrite construct_eq in Hc. injection Hc as <-.
  split; [done |]. split; [done |]. constructor; [| done].
  split; [done |]. left. cbn. by destruct (string_empty stream_arn).
Qed.

Lemma requests_are_well_formed_witness :
  stream_ staged_example = "stream"%string
  /\ stream_arn_ staged_example = EmptyString
  /\ Forall (request_ok "stream" EmptyString) (kinesis_client_ staged_example).
Proof.
  apply (requests_are_well_formed "stream" EmptyString kMinBackoff kMaxBackoff
           kClosedShardTtl false started_example
           [ListShardsCompleted 7 (Success lineage_example "token")]).
  - reflexivity.
  - by vm_compute.
Defined.

(** ** Shard id strings: padding and the round trip from the string side *)

Section ShardIdPadding.
Local Open Scope N_scope.

Lemma to_string_loop_app fuel : forall n acc tail,
  (Str.to_string_loop fuel n acc ++ tail)%string = Str.to_string_loop fuel n (acc ++ tail).
Proof.
  induction fuel as [|fuel IH]; intros n acc tail; cbn [Str.to_string_loop]; [done |].
  destruct (n / 10 =? 0); [done |]. by rewrite IH.
Qed.

Lemma string_value_no_digit a tail :
  ~ starts_with_digit tail -> string_value a tail = a.
Proof.
  intros H. unfold string_value. destruct tail as [|c tail]; [done |].
  cbn in *. by destruct (Str.is_digit c).
Qed.

(** X15: [shard_id_from_str] does not depend on the padding: for every
    64-bit id, any number of leading zeros and any text after the digits
    that does not begin with a digit, the string "shardId-", zeros, the
    decimal digits of the id, then the text, parses to the id. *)
Theorem shard_id_from_str_ignores_padding (zeros : nat) (id : N) (tail : string) :
  id < uint64_modulus ->
  ~ starts_with_digit tail ->
  shard_id_from_str
    ("shardId-" ++ Str.replicate_char zeros "0" ++ Str.to_string id ++ tail)
  = Ok id.
Proof.
  intros Hid Htail. rewrite shard_id_from_str_prefixed.
  unfold Str.to_string. rewrite to_string_loop_app.
  change (EmptyString ++ tail)%string with tail.
  assert (Hvalue : string_value 0 (Str.replicate_char zeros "0"
                                   ++ Str.to_string_loop 20 id tail) = id).
  { rewrite string_value_zeros, to_string_loop_value.
    - by apply string_value_no_digit.
    - unfold uint64_modulus in Hid. cbn in *. lia. }
  rewrite stoull_digits.
  - by rewrite Hvalue.
  - apply starts_with_digit_zeros, to_string_loop_starts. right. lia.
  - by rewrite Hvalue.
Qed.

Lemma shard_id_from_str_ignores_padding_witness :
  shard_id_from_str "shardId-00042 (closed)" = Ok 42.
Proof.
  apply (shard_id_from_str_ignores_padding 3 42 " (closed)").
  - reflexivity.
  - intros H. discriminate H.
Defined.

Lemma is_digit_val c : Str.is_digit c = true -> Str.digit_val c < 10.
Proof.
  unfold Str.is_digit, Str.digit_val.
  intros [H1%N.leb_le H2%N.leb_le]%andb_true_iff. lia.
Qed.

Lemma digit_val_inj c1 c2 :
  Str.is_digit c1 = true -> Str.is_digit c2 = true ->
  Str.digit_val c1 = Str.digit_val c2 -> c1 = c2.
Proof.
  unfold Str.is_digit, Str.digit_val.
  intros [H1%N.leb_le _]%andb_true_iff [H2%N.leb_le _]%andb_true_iff Heq.
  rewrite <- (ascii_N_embedding c1), <- (ascii_N_embedding c2). f_equal. lia.
Qed.

Lemma string_value_digit a c s :
  Str.is_digit c = true ->
  string_value a (String c s) = string_value (a * 10 + Str.digit_val c) s.
Proof. intros Hc. unfold string_value. cbn [Str.take_digits]. by rewrite Hc. Qed.

Lemma string_value_shift s : forall a,
  all_digits s = true ->
  string_value a s = a * 10 ^ N.of_nat (String.length s) + string_value 0 s.
Proof.
  induction s as [|c s IH]; intros a H.
  - unfold string_value. cbn. lia.
  - cbn [all_digits] in H. apply andb_true_iff in H as [Hc Hs].
    rewrite !string_value_digit by done.
    rewrite (IH (a * 10 + Str.digit_val c) Hs), (IH (0 * 10 + Str.digit_val c) Hs).
    cbn [String.length]. rewrite Nat2N.inj_succ, N.pow_succ_r'. lia.
Qed.

Lemma string_value_bound s :
  all_digits s = true -> string_value 0 s < 10 ^ N.of_nat (String.length s).
Proof.
  induction s as [|c s IH]; intros H.
  - unfold string_value. cbn. lia.
  - cbn [all_digits] in H. apply andb_true_iff in H as [Hc Hs].
    rewrite string_value_digit by done. rewrite string_value_shift by done.
    pose proof (is_digit_val c Hc). specialize (IH Hs).
    cbn [String.length]. rewrite Nat2N.inj_succ, N.pow_succ_r'. nia.
Qed.

Lemma string_value_inj s1 : forall s2,
  all_digits s1 = true -> all_digits s2 = true ->
  String.length s1 = String.length s2 ->
  string_value 0 s1 = string_value 0 s2 ->
  s1 = s2.
Proof.
  induction s1 as [|c1 s1 IH]; intros [|c2 s2] H1 H2 Hlen Hval; try done.
  cbn [all_digits] in H1, H2.
  apply andb_true_iff in H1 as [Hc1 Hs1]. apply andb_true_iff in H2 as [Hc2 Hs2].
  injection Hlen as Hlen.
  rewrite !string_value_digit in Hval by done.
  rewrite (string_value_shift s1), (string_value_shift s2) in Hval by done.
  rewrite Hlen in Hval.
  pose proof (string_value_bound s1 Hs1) as Hb1.
  pose proof (string_value_bound s2 Hs2) as Hb2.
  rewrite Hlen in Hb1.
  assert (Str.digit_val c1 = Str.digit_val c2 /\ string_value 0 s1 = string_value 0 s2)
    as [Hd Hr].
  { generalize dependent (10 ^ N.of_nat (String.length s2)). intros P.
    generalize (Str.digit_val c1) (Str.digit_val c2)
      (string_value 0 s1) (string_value 0 s2).
    intros d1 d2 r1 r2 Hval Hb1 Hb2.
    destruct (N.lt_trichotomy d1 d2) as [H|[H|H]]; [exfalso; nia | | exfalso; nia].
    subst. split; [done | lia]. }
  f_equal; [by apply digit_val_inj | by apply IH].
Qed.

Lemma all_digits_app s1 s2 :
  all_digits (s1 ++ s2) = all_digits s1 && all_digits s2.
Proof.
  induction s1 as [|c s1 IH]; [done |].
  rewrite string_app_cons. cbn [all_digits]. by rewrite IH, andb_assoc.
Qed.

Lemma all_digits_zeros k : all_digits (Str.replicate_char k "0") = true.
Proof. induction k as [|k IH]; [done |]. cbn. exact IH. Qed.

Lemma all_digits_to_string_loop fuel : forall n acc,
  all_digits acc = true -> all_digits (Str.to_string_loop fuel n acc) = true.
Proof.
  induction fuel as [|fuel IH]; intros n acc H; cbn [Str.to_string_loop]; [done |].
  assert (Hd : all_digits (String (Str.digit_char (n mod 10)) acc) = true).
  { cbn [all_digits]. rewrite digit_char_is_digit; [done |]. apply N.mod_lt. lia. }
  destruct (n / 10 =? 0); [done |]. by apply IH.
Qed.

(** X16: the round trip from the string side: for a canonical id string,
    "shardId-" followed by exactly twelve decimal digits,
    [shard_id_from_str] returns an id below 10^12 and [shard_id_to_str]
    of that id gives the string back. *)
Theorem canonical_id_string_round_trip (digits : string) :
  String.length digits = 12%nat ->
  all_digits digits = true ->
  exists id,
    shard_id_from_str ("shardId-" ++ digits) = Ok id
    /\ id < 10 ^ 12
    /\ shard_id_to_str id = Ok ("shardId-" ++ digits)%string.
Proof.
  intros Hlen Hdigits.
  pose proof (string_value_bound digits Hdigits) as Hbound. rewrite Hlen in Hbound.
  exists (string_value 0 digits).
  split; [| split; [exact Hbound |]].
  - rewrite shard_id_from_str_prefixed. apply stoull_digits.
    + destruct digits as [|c rest]; [done |]. cbn in Hdigits. cbn.
      by apply andb_true_iff in Hdigits as [Hc _].
    + unfold uint64_modulus. cbn in *. lia.
  - rewrite shard_id_to_str_small by exact Hbound. do 2 f_equal.
    pose proof (to_string_length_small _ Hbound) as Hshort.
    apply string_value_inj.
    + rewrite all_digits_app, all_digits_zeros. cbn [andb].
      by apply all_digits_to_string_loop.
    + done.
    + rewrite string_length_app, replicate_char_length, Hlen. lia.
    + rewrite string_value_zeros. apply to_string_value.
      unfold uint64_modulus. cbn in *. lia.
Qed.

Lemma canonical_id_string_round_trip_witness :
  exists id,
    shard_id_from_str "shardId-000000049021" = Ok id
    /\ id < 10 ^ 12
    /\ shard_id_to_str id = Ok "shardId-000000049021"%string.
Proof.
  apply (canonical_id_string_round_trip "000000049021"); reflexivity.
Defined.

End ShardIdPadding.
